(** * Rules engine of the two-queens chess variant: a shallow embedding

    The TypeScript rules engine (board access, attack analysis, move
    legality, move execution, draw detection, position signature and the
    alpha-beta search) is embedded function by function.  Numbers are
    integers of [Z]; a board is a list of rows of cells; reads and writes
    that JavaScript would refuse ([undefined[c]]) are errors of a small
    error monad.  The check status, the move notation and the move
    bookkeeping of the board component follow the engine. *)

From Stdlib Require Import ZArith Lia Bool.
From stdpp Require Import base numbers option list strings pretty.

Local Open Scope Z_scope.

(** ** Data model (types/chess.ts) *)

Inductive PieceType := king | queen | rook | bishop | knight | pawn.
Inductive PieceColor := white | black.
Inductive PromotionPiece := promoQueen | promoRook | promoBishop | promoKnight.
Inductive SpecialMoveType :=
  enPassant | castleKingside | castleQueenside | promotion.
Inductive DrawReason :=
  stalemate | threefold | fiftyMove | insufficient | agreement.

Record ChessPiece := mkPiece { type : PieceType; color : PieceColor }.
Record Position := mkPos { row : Z; col : Z }.

Record CastlingRights := mkRights {
  whiteKingside : bool;
  whiteQueenside : bool;
  blackKingside : bool;
  blackQueenside : bool
}.

(** A cell read from a row: a hole or an index past the end reads as
    [undefined], an empty square holds [null]. *)
Inductive cell := Undefined | Null | Pc (p : ChessPiece).

Abbreviation Board := (list (list cell)).

Record MoveResult := mkResult {
  newBoard : Board;
  captured : cell;
  newEnPassantTarget : option Position;
  newCastlingRights : CastlingRights;
  specialMove : option SpecialMoveType
}.

Record DrawStatus := mkDraw { isDraw : bool; reason : option DrawReason }.

Record Move := mkMove { from : Position; to : Position; piece : ChessPiece }.

Definition type_eqb (a b : PieceType) : bool :=
  match a, b with
  | king, king | queen, queen | rook, rook
  | bishop, bishop | knight, knight | pawn, pawn => true
  | _, _ => false
  end.

Definition color_eqb (a b : PieceColor) : bool :=
  match a, b with
  | white, white | black, black => true
  | _, _ => false
  end.

Definition pos_eqb (p q : Position) : bool :=
  (row p =? row q) && (col p =? col q).

Definition opponent (c : PieceColor) : PieceColor :=
  match c with white => black | black => white end.

Definition promoType (p : PromotionPiece) : PieceType :=
  match p with
  | promoQueen => queen | promoRook => rook
  | promoBishop => bishop | promoKnight => knight
  end.

Definition getInitialCastlingRights : CastlingRights :=
  mkRights true true true true.

(** ** Errors *)

Inductive error := TypeError | OutOfBounds | OutOfFuel.

Inductive result (A : Type) := Ok (a : A) | Err (e : error).
Arguments Ok {A} a.
Arguments Err {A} e.

Definition bind {A B} (m : result A) (k : A -> result B) : result B :=
  match m with Ok a => k a | Err e => Err e end.

Notation "'do' x <- m ;; k" := (bind m (fun x => k))
  (at level 10, x name, m at level 99, k at level 200).

(** Loops with an early [return]: the first element satisfying a test,
    and the elements kept by a test, in iteration order. *)
Fixpoint findM {A} (f : A -> result bool) (l : list A) : result (option A) :=
  match l with
  | [] => Ok None
  | x :: l' => do t <- f x ;; if t then Ok (Some x) else findM f l'
  end.

Fixpoint existsM {A} (f : A -> result bool) (l : list A) : result bool :=
  match l with
  | [] => Ok false
  | x :: l' => do t <- f x ;; if t then Ok true else existsM f l'
  end.

Fixpoint filterM {A} (f : A -> result bool) (l : list A) : result (list A) :=
  match l with
  | [] => Ok []
  | x :: l' =>
      do t <- f x ;; do r <- filterM f l' ;; Ok (if t then x :: r else r)
  end.

Fixpoint concatM {A B} (f : A -> result (list B)) (l : list A)
  : result (list B) :=
  match l with
  | [] => Ok []
  | x :: l' => do h <- f x ;; do r <- concatM f l' ;; Ok (h ++ r)
  end.

(** Row-major enumeration of the squares of a [rows] x [cols] grid: the
    order of the nested [for (row) for (col)] loops. *)
Definition squares (nrows ncols : nat) : list Position :=
  r ← seq 0 nrows;
  (fun c => mkPos (Z.of_nat r) (Z.of_nat c)) <$> seq 0 ncols.

Section Engine.

(** [strict = false] is JavaScript: indexing a missing row throws, an
    index outside a row reads [undefined] and a write past the end of a
    row extends it.  [strict = true] makes every index outside the arrays
    an error; it serves to state that accesses stay in bounds. *)
Variable strict : bool.

Definition rowAt (b : Board) (r : Z) : option (list cell) :=
  if r <? 0 then None else b !! Z.to_nat r.

Definition elemAt (rw : list cell) (c : Z) : option cell :=
  if c <? 0 then None else rw !! Z.to_nat c.

Definition noRow {A} : result A :=
  Err (if strict then OutOfBounds else TypeError).

(** [board[r][c]] *)
Definition readCell (b : Board) (r c : Z) : result cell :=
  match rowAt b r with
  | None => noRow
  | Some rw =>
      match elemAt rw c with
      | Some x => Ok x
      | None => if strict then Err OutOfBounds else Ok Undefined
      end
  end.

(** [board[r][c] = v].  A write at a negative column sets a non-index
    property and leaves the elements, which are all a board value
    represents here, as they are. *)
Definition writeCell (b : Board) (r c : Z) (v : cell) : result Board :=
  match rowAt b r with
  | None => noRow
  | Some rw =>
      if c <? 0 then (if strict then Err OutOfBounds else Ok b)
      else if c <? Z.of_nat (length rw)
      then Ok (<[Z.to_nat r := <[Z.to_nat c := v]> rw]> b)
      else if strict then Err OutOfBounds
      else Ok (<[Z.to_nat r :=
                  rw ++ replicate (Z.to_nat c - length rw) Undefined ++ [v]]> b)
  end.

(** [board.length] and [board[0].length] *)
Definition boardRows (b : Board) : Z := Z.of_nat (length b).

Definition boardCols (b : Board) : result Z :=
  match b with
  | [] => noRow
  | r0 :: _ => Ok (Z.of_nat (length r0))
  end.

Definition allSquares (b : Board) : result (list Position) :=
  do cols <- boardCols b ;; Ok (squares (length b) (Z.to_nat cols)).

Definition isNull (x : cell) : bool :=
  match x with Null => true | _ => false end.

(** ** Attack and path analysis *)

(** The [while] loop of [isPathClear]; [fuel] bounds its iterations. *)
Fixpoint isPathClear_loop (fuel : nat) (b : Board) (rowDir colDir : Z)
    (currentRow currentCol : Z) (to_ : Position) : result bool :=
  if negb (currentRow =? row to_) || negb (currentCol =? col to_) then
    match fuel with
    | O => Err OutOfFuel
    | S fuel' =>
        do x <- readCell b currentRow currentCol ;;
        if negb (isNull x) then Ok false
        else isPathClear_loop fuel' b rowDir colDir
               (currentRow + rowDir) (currentCol + colDir) to_
    end
  else Ok true.

Definition isPathClear (b : Board) (from_ to_ : Position) : result bool :=
  let rowDir := Z.sgn (row to_ - row from_) in
  let colDir := Z.sgn (col to_ - col from_) in
  isPathClear_loop
    (S (length b + Z.to_nat (Z.abs (col to_ - col from_))))
    b rowDir colDir (row from_ + rowDir) (col from_ + colDir) to_.

Definition pawnDirection (c : PieceColor) : Z :=
  match c with white => -1 | black => 1 end.

Definition outOfBounds (rows cols : Z) (p : Position) : bool :=
  (row p <? 0) || (rows <=? row p) || (col p <? 0) || (cols <=? col p).

Definition sameColorTarget (target : cell) (p : ChessPiece) : bool :=
  match target with
  | Pc t => color_eqb (color t) (color p)
  | _ => false
  end.

Definition isPiece (x : cell) : bool :=
  match x with Pc _ => true | _ => false end.

Definition isValidMoveBasicForAttack (b : Board) (from_ to_ : Position)
  : result bool :=
  let rows := boardRows b in
  do cols <- boardCols b ;;
  if outOfBounds rows cols to_ then Ok false else
  do pc <- readCell b (row from_) (col from_) ;;
  match pc with
  | Pc p =>
      do target <- readCell b (row to_) (col to_) ;;
      if sameColorTarget target p then Ok false else
      if pos_eqb from_ to_ then Ok false else
      let rowDiff := row to_ - row from_ in
      let colDiff := col to_ - col from_ in
      let absRowDiff := Z.abs rowDiff in
      let absColDiff := Z.abs colDiff in
      match type p with
      | pawn =>
          let direction := pawnDirection (color p) in
          Ok ((absColDiff =? 1) && (rowDiff =? direction))
      | knight =>
          Ok ((absRowDiff =? 2) && (absColDiff =? 1)
              || (absRowDiff =? 1) && (absColDiff =? 2))
      | bishop =>
          if negb (absRowDiff =? absColDiff) then Ok false
          else isPathClear b from_ to_
      | rook =>
          if negb (rowDiff =? 0) && negb (colDiff =? 0) then Ok false
          else isPathClear b from_ to_
      | queen =>
          if negb (absRowDiff =? absColDiff)
             && negb (rowDiff =? 0) && negb (colDiff =? 0)
          then Ok false
          else isPathClear b from_ to_
      | king => Ok ((absRowDiff <=? 1) && (absColDiff <=? 1))
      end
  | _ => Ok false
  end.

Definition isKingOf (c : PieceColor) (x : cell) : bool :=
  match x with
  | Pc p => type_eqb (type p) king && color_eqb (color p) c
  | _ => false
  end.

Definition findKingPosition (b : Board) (c : PieceColor)
  : result (option Position) :=
  do sq <- allSquares b ;;
  findM (fun p => do x <- readCell b (row p) (col p) ;; Ok (isKingOf c x)) sq.

Definition isSquareUnderAttack (b : Board) (position : Position)
    (attackerColor : PieceColor) : result bool :=
  do sq <- allSquares b ;;
  existsM (fun p =>
    do x <- readCell b (row p) (col p) ;;
    match x with
    | Pc pc =>
        if color_eqb (color pc) attackerColor
        then isValidMoveBasicForAttack b p position
        else Ok false
    | _ => Ok false
    end) sq.

Definition isKingInCheck (b : Board) (kingColor : PieceColor) : result bool :=
  do kingPos <- findKingPosition b kingColor ;;
  match kingPos with
  | None => Ok false
  | Some kp => isSquareUnderAttack b kp (opponent kingColor)
  end.

(** ** Castling *)

Definition rightFor (c : PieceColor) (isKingside : bool) (cr : CastlingRights)
  : bool :=
  match c, isKingside with
  | white, true => whiteKingside cr
  | white, false => whiteQueenside cr
  | black, true => blackKingside cr
  | black, false => blackQueenside cr
  end.

Definition homeRow (b : Board) (c : PieceColor) : Z :=
  match c with white => boardRows b - 1 | black => 0 end.

Definition isRookOf (c : PieceColor) (x : cell) : bool :=
  match x with
  | Pc p => type_eqb (type p) rook && color_eqb (color p) c
  | _ => false
  end.

(** [for (let col = startCol; col < endCol; col++)] over a row *)
Definition colRange (startCol endCol : Z) : list Z :=
  (fun i => startCol + Z.of_nat i) <$> seq 0 (Z.to_nat (endCol - startCol)).

Definition canCastle (b : Board) (from_ to_ : Position) (c : PieceColor)
    (castlingRights : CastlingRights) : result bool :=
  let kingRow := homeRow b c in
  let kingCol := 4 in
  if negb (row from_ =? kingRow) || negb (col from_ =? kingCol) then Ok false
  else
  let isKingside := col from_ <? col to_ in
  if negb (rightFor c isKingside castlingRights) then Ok false else
  do chk <- isKingInCheck b c ;;
  if chk then Ok false else
  let rookCol := if isKingside then 8 else 0 in
  do rk <- readCell b kingRow rookCol ;;
  if negb (isRookOf c rk) then Ok false else
  let startCol := Z.min kingCol rookCol + 1 in
  let endCol := Z.max kingCol rookCol in
  do blocked <- existsM (fun cl =>
               do x <- readCell b kingRow cl ;; Ok (negb (isNull x)))
             (colRange startCol endCol) ;;
  if blocked then Ok false else
  let opponentColor := opponent c in
  let direction := if isKingside then 1 else -1 in
  do attacked <- existsM (fun i =>
                isSquareUnderAttack b (mkPos kingRow (kingCol + direction * i))
                  opponentColor)
              [1; 2] ;;
  if attacked then Ok false else Ok true.

(** ** Move legality *)

Definition isValidMoveBasic (b : Board) (from_ to_ : Position)
    (enPassantTarget : option Position)
    (castlingRights : option CastlingRights) : result bool :=
  let rows := boardRows b in
  do cols <- boardCols b ;;
  if outOfBounds rows cols to_ then Ok false else
  do pc <- readCell b (row from_) (col from_) ;;
  match pc with
  | Pc p =>
      do target <- readCell b (row to_) (col to_) ;;
      if sameColorTarget target p then Ok false else
      if pos_eqb from_ to_ then Ok false else
      let rowDiff := row to_ - row from_ in
      let colDiff := col to_ - col from_ in
      let absRowDiff := Z.abs rowDiff in
      let absColDiff := Z.abs colDiff in
      let whiteStartRow := rows - 2 in
      let blackStartRow := 1 in
      match type p with
      | pawn =>
          let direction := pawnDirection (color p) in
          let startRow :=
            match color p with
            | white => whiteStartRow | black => blackStartRow
            end in
          do fwd <-
            (if (colDiff =? 0) && negb (isPiece target) then
               if rowDiff =? direction then Ok true
               else if (row from_ =? startRow) && (rowDiff =? 2 * direction)
               then do mid <- readCell b (row from_ + direction) (col from_) ;;
                    Ok (negb (isPiece mid))
               else Ok false
             else Ok false) ;;
          if fwd then Ok true else
          if (absColDiff =? 1) && (rowDiff =? direction) then
            if isPiece target then Ok true
            else match enPassantTarget with
                 | Some ep => Ok (pos_eqb to_ ep)
                 | None => Ok false
                 end
          else Ok false
      | knight =>
          Ok ((absRowDiff =? 2) && (absColDiff =? 1)
              || (absRowDiff =? 1) && (absColDiff =? 2))
      | bishop =>
          if negb (absRowDiff =? absColDiff) then Ok false
          else isPathClear b from_ to_
      | rook =>
          if negb (rowDiff =? 0) && negb (colDiff =? 0) then Ok false
          else isPathClear b from_ to_
      | queen =>
          if negb (absRowDiff =? absColDiff)
             && negb (rowDiff =? 0) && negb (colDiff =? 0)
          then Ok false
          else isPathClear b from_ to_
      | king =>
          if (absRowDiff <=? 1) && (absColDiff <=? 1) then Ok true
          else match castlingRights with
               | Some cr =>
                   if (absRowDiff =? 0) && (absColDiff =? 2)
                   then canCastle b from_ to_ (color p) cr
                   else Ok false
               | None => Ok false
               end
      end
  | _ => Ok false
  end.

(** Squares named by the special moves, in [wouldMoveLeaveKingInCheck]
    and again in [executeMove]. *)
Definition rookFromCol (isKingside : bool) : Z := if isKingside then 8 else 0.

Definition rookToCol (isKingside : bool) (to_ : Position) : Z :=
  if isKingside then col to_ - 1 else col to_ + 1.

Definition capturedPawnRow (c : PieceColor) (to_ : Position) : Z :=
  match c with white => row to_ + 1 | black => row to_ - 1 end.

Definition epRow (c : PieceColor) (to_ : Position) : Z :=
  match c with white => row to_ + 1 | black => row to_ - 1 end.

Definition isTypeOf (t : PieceType) (x : cell) : bool :=
  match x with Pc p => type_eqb (type p) t | _ => false end.

Definition matchesTarget (to_ : Position) (enPassantTarget : option Position)
  : bool :=
  match enPassantTarget with
  | Some ep => pos_eqb to_ ep
  | None => false
  end.

(** The first half of [wouldMoveLeaveKingInCheck]: the simulated board.
    [board.map(r => [...r])] copies the rows, so the writes never reach
    [board]; with immutable lists the copy is the board itself. *)
Definition simulatedBoard (b : Board) (from_ to_ : Position)
    (enPassantTarget : option Position) : result Board :=
  let newBoard := b in
  do pc <- readCell newBoard (row from_) (col from_) ;;
  do moved <- readCell newBoard (row from_) (col from_) ;;
  do newBoard <- writeCell newBoard (row to_) (col to_) moved ;;
  do newBoard <- writeCell newBoard (row from_) (col from_) Null ;;
  do newBoard <-
    match pc with
    | Pc p =>
        if type_eqb (type p) pawn && matchesTarget to_ enPassantTarget
        then writeCell newBoard (capturedPawnRow (color p) to_) (col to_) Null
        else Ok newBoard
    | _ => Ok newBoard
    end ;;
  if isTypeOf king pc && (Z.abs (col to_ - col from_) =? 2) then
    let isKingside := col from_ <? col to_ in
    do rk <- readCell newBoard (row to_) (rookFromCol isKingside) ;;
    do newBoard <-
      writeCell newBoard (row to_) (rookToCol isKingside to_) rk ;;
    writeCell newBoard (row to_) (rookFromCol isKingside) Null
  else Ok newBoard.

Definition wouldMoveLeaveKingInCheck (b : Board) (from_ to_ : Position)
    (playerColor : PieceColor) (enPassantTarget : option Position)
  : result bool :=
  do newBoard <- simulatedBoard b from_ to_ enPassantTarget ;;
  isKingInCheck newBoard playerColor.

Definition isValidMove (b : Board) (from_ to_ : Position)
    (enPassantTarget : option Position)
    (castlingRights : option CastlingRights) : result bool :=
  do pc <- readCell b (row from_) (col from_) ;;
  match pc with
  | Pc p =>
      do basic <- isValidMoveBasic b from_ to_ enPassantTarget castlingRights ;;
      if negb basic then Ok false else
      do leaves <-
        wouldMoveLeaveKingInCheck b from_ to_ (color p) enPassantTarget ;;
      if leaves then Ok false else Ok true
  | _ => Ok false
  end.

Definition getValidMoves (b : Board) (from_ : Position)
    (enPassantTarget : option Position)
    (castlingRights : option CastlingRights) : result (list Position) :=
  do sq <- allSquares b ;;
  filterM (fun t => isValidMove b from_ t enPassantTarget castlingRights) sq.

Definition getPiecesOfColor (b : Board) (c : PieceColor)
  : result (list (ChessPiece * Position)) :=
  do sq <- allSquares b ;;
  concatM (fun p =>
    do x <- readCell b (row p) (col p) ;;
    match x with
    | Pc pc => Ok (if color_eqb (color pc) c then [(pc, p)] else [])
    | _ => Ok []
    end) sq.

Definition getAllLegalMoves (b : Board) (c : PieceColor)
    (enPassantTarget : option Position)
    (castlingRights : option CastlingRights) : result (list Move) :=
  do pieces <- getPiecesOfColor b c ;;
  concatM (fun pp =>
    do validMoves <-
      getValidMoves b (snd pp) enPassantTarget castlingRights ;;
    Ok ((fun t => mkMove (snd pp) t (fst pp)) <$> validMoves)) pieces.

Definition getAllMoves := getAllLegalMoves.

Definition isEmptyList {A} (l : list A) : bool :=
  match l with [] => true | _ => false end.

Definition isCheckmate (b : Board) (c : PieceColor)
    (enPassantTarget : option Position)
    (castlingRights : option CastlingRights) : result bool :=
  do chk <- isKingInCheck b c ;;
  if negb chk then Ok false else
  do legalMoves <- getAllLegalMoves b c enPassantTarget castlingRights ;;
  Ok (isEmptyList legalMoves).

Definition isStalemate (b : Board) (c : PieceColor)
    (enPassantTarget : option Position)
    (castlingRights : option CastlingRights) : result bool :=
  do chk <- isKingInCheck b c ;;
  if chk then Ok false else
  do legalMoves <- getAllLegalMoves b c enPassantTarget castlingRights ;;
  Ok (isEmptyList legalMoves).

(** ** Draw detection *)

Definition colorLetter (c : PieceColor) : string :=
  match c with white => "w" | black => "b" end.

(** [piece.type[0]]: the first letter of the type's name *)
Definition typeLetter (t : PieceType) : string :=
  match t with
  | king => "k" | queen => "q" | rook => "r"
  | bishop => "b" | knight => "k" | pawn => "p"
  end.

(** The squares visited by [for (row < board.length) for (col <
    board[0].length)]: [board[0]] is only evaluated inside the outer
    loop. *)
Definition gridSquares (b : Board) : list Position :=
  match b with
  | [] => []
  | r0 :: _ => squares (length b) (length r0)
  end.

Fixpoint hashSquares (b : Board) (sq : list Position) (hash : string)
  : result string :=
  match sq with
  | [] => Ok hash
  | p :: sq' =>
      do x <- readCell b (row p) (col p) ;;
      hashSquares b sq'
        match x with
        | Pc pc =>
            hash +:+ colorLetter (color pc) +:+ typeLetter (type pc)
                 +:+ pretty (row p) +:+ pretty (col p)
        | _ => hash
        end
  end.

Definition getBoardPositionHash (b : Board) (currentPlayer : PieceColor)
    (castlingRights : CastlingRights) (enPassantTarget : option Position)
  : result string :=
  do hash <- hashSquares b (gridSquares b) "" ;;
  let hash := hash +:+ colorLetter currentPlayer in
  let hash := hash +:+ (if whiteKingside castlingRights then "K" else "") in
  let hash := hash +:+ (if whiteQueenside castlingRights then "Q" else "") in
  let hash := hash +:+ (if blackKingside castlingRights then "k" else "") in
  let hash := hash +:+ (if blackQueenside castlingRights then "q" else "") in
  Ok match enPassantTarget with
     | Some ep => hash +:+ "e" +:+ pretty (row ep) +:+ pretty (col ep)
     | None => hash
     end.

Definition isThreefoldRepetition (positionHistory : list string)
    (currentPosition : string) : bool :=
  let count :=
    length (filter (fun pos => pos = currentPosition) positionHistory) in
  (2 <=? count)%nat.

Definition isFiftyMoveRule (halfMoveClock : Z) : bool :=
  100 <=? halfMoveClock.

Definition collectPieces (b : Board) : result (list (ChessPiece * Position)) :=
  concatM (fun p =>
    do x <- readCell b (row p) (col p) ;;
    match x with
    | Pc pc => Ok [(pc, p)]
    | _ => Ok []
    end) (gridSquares b).

Definition hasType (t : PieceType) (pp : ChessPiece * Position) : bool :=
  type_eqb (type (fst pp)) t.

Definition squareColor (pp : ChessPiece * Position) : Z :=
  Z.rem (row (snd pp) + col (snd pp)) 2.

Definition insufficientPieces (pieces : list (ChessPiece * Position)) : bool :=
  if (length pieces =? 2)%nat then forallb (hasType king) pieces else
  match
    (if (length pieces =? 3)%nat then
       match List.filter (fun p => negb (hasType king p)) pieces with
       | [nk] => Some (hasType bishop nk || hasType knight nk)
       | _ => None
       end
     else None)
  with
  | Some r => r
  | None =>
      match
        (if (length pieces =? 4)%nat then
           match List.filter (hasType bishop) pieces with
           | [b0; b1] => Some (squareColor b0 =? squareColor b1)
           | _ => None
           end
         else None)
      with
      | Some r => r
      | None => false
      end
  end.

Definition isInsufficientMaterial (b : Board) : result bool :=
  do pieces <- collectPieces b ;; Ok (insufficientPieces pieces).

Definition getDrawStatus (b : Board) (currentPlayer : PieceColor)
    (enPassantTarget : option Position) (castlingRights : CastlingRights)
    (positionHistory : list string) (halfMoveClock : Z) : result DrawStatus :=
  do stale <-
    isStalemate b currentPlayer enPassantTarget (Some castlingRights) ;;
  if stale then Ok (mkDraw true (Some stalemate)) else
  do currentPosition <-
    getBoardPositionHash b currentPlayer castlingRights enPassantTarget ;;
  if isThreefoldRepetition positionHistory currentPosition
  then Ok (mkDraw true (Some threefold)) else
  if isFiftyMoveRule halfMoveClock
  then Ok (mkDraw true (Some fiftyMove)) else
  do insuff <- isInsufficientMaterial b ;;
  if insuff then Ok (mkDraw true (Some insufficient)) else
  Ok (mkDraw false None).

(** ** Move execution *)

Definition lastRankFor (b : Board) (c : PieceColor) : Z :=
  match c with white => 0 | black => boardRows b - 1 end.

Definition getSpecialMoveType (b : Board) (from_ to_ : Position)
    (enPassantTarget : option Position) : result (option SpecialMoveType) :=
  do pc <- readCell b (row from_) (col from_) ;;
  match pc with
  | Pc p =>
      if type_eqb (type p) king && (Z.abs (col to_ - col from_) =? 2)
      then Ok (Some (if col from_ <? col to_
                     then castleKingside else castleQueenside))
      else if type_eqb (type p) pawn && matchesTarget to_ enPassantTarget
      then Ok (Some enPassant)
      else if type_eqb (type p) pawn && (row to_ =? lastRankFor b (color p))
      then Ok (Some promotion)
      else Ok None
  | _ => Ok None
  end.

Definition isSpecial (s : SpecialMoveType) (x : option SpecialMoveType)
  : bool :=
  match x, s with
  | Some enPassant, enPassant
  | Some castleKingside, castleKingside
  | Some castleQueenside, castleQueenside
  | Some promotion, promotion => true
  | _, _ => false
  end.

Definition kingMoved (p : ChessPiece) (cr : CastlingRights) : CastlingRights :=
  if type_eqb (type p) king then
    match color p with
    | white => mkRights false false (blackKingside cr) (blackQueenside cr)
    | black => mkRights (whiteKingside cr) (whiteQueenside cr) false false
    end
  else cr.

(** The two rook blocks of [executeMove] differ only in the piece and the
    square they look at: the moved piece and [from], the captured piece
    and [to]. *)
Definition rookGone (rows : Z) (x : cell) (sq : Position)
    (cr : CastlingRights) : CastlingRights :=
  match x with
  | Pc p =>
      if type_eqb (type p) rook then
        match color p with
        | white =>
            let cr :=
              if (col sq =? 0) && (row sq =? rows - 1)
              then mkRights (whiteKingside cr) false
                     (blackKingside cr) (blackQueenside cr)
              else cr in
            if (col sq =? 8) && (row sq =? rows - 1)
            then mkRights false (whiteQueenside cr)
                   (blackKingside cr) (blackQueenside cr)
            else cr
        | black =>
            let cr :=
              if (col sq =? 0) && (row sq =? 0)
              then mkRights (whiteKingside cr) (whiteQueenside cr)
                     (blackKingside cr) false
              else cr in
            if (col sq =? 8) && (row sq =? 0)
            then mkRights (whiteKingside cr) (whiteQueenside cr)
                   false (blackQueenside cr)
            else cr
        end
      else cr
  | _ => cr
  end.

Definition executeMove (b : Board) (from_ to_ : Position)
    (castlingRights : CastlingRights) (enPassantTarget : option Position)
    (promotionPiece : PromotionPiece) : result MoveResult :=
  let newBoard := b in
  do pc <- readCell newBoard (row from_) (col from_) ;;
  let rows := boardRows b in
  match pc with
  | Pc p =>
      do captured <- readCell newBoard (row to_) (col to_) ;;
      do specialMove <- getSpecialMoveType b from_ to_ enPassantTarget ;;
      do cn <-
        (if isSpecial enPassant specialMove then
           let capturedPawnRow := capturedPawnRow (color p) to_ in
           do captured <- readCell newBoard capturedPawnRow (col to_) ;;
           do newBoard <- writeCell newBoard capturedPawnRow (col to_) Null ;;
           Ok (captured, newBoard)
         else Ok (captured, newBoard)) ;;
      let captured := fst cn in
      let newBoard := snd cn in
      do newBoard <-
        (if isSpecial castleKingside specialMove
            || isSpecial castleQueenside specialMove then
           let isKingside := isSpecial castleKingside specialMove in
           do rk <- readCell newBoard (row to_) (rookFromCol isKingside) ;;
           do newBoard <-
             writeCell newBoard (row to_) (rookToCol isKingside to_) rk ;;
           writeCell newBoard (row to_) (rookFromCol isKingside) Null
         else Ok newBoard) ;;
      do newBoard <-
        writeCell newBoard (row to_) (col to_)
          (if isSpecial promotion specialMove
           then Pc (mkPiece (promoType promotionPiece) (color p))
           else Pc p) ;;
      do newBoard <- writeCell newBoard (row from_) (col from_) Null ;;
      let newEnPassantTarget :=
        if type_eqb (type p) pawn && (Z.abs (row to_ - row from_) =? 2)
        then Some (mkPos (epRow (color p) to_) (col to_))
        else None in
      let newCastlingRights := kingMoved p castlingRights in
      let newCastlingRights := rookGone rows (Pc p) from_ newCastlingRights in
      let newCastlingRights := rookGone rows captured to_ newCastlingRights in
      Ok (mkResult newBoard captured newEnPassantTarget newCastlingRights
            specialMove)
  | _ => Ok (mkResult newBoard Null None castlingRights None)
  end.

End Engine.

(** ** Initial position *)

Inductive BoardSize := size9x8 | size9x9.

Definition getBoardDimensions (size : BoardSize) : nat * nat :=
  match size with size9x9 => (9, 9) | size9x8 => (8, 9) end%nat.

Definition backRow : list PieceType :=
  [rook; knight; bishop; queen; king; queen; bishop; knight; rook].

(** The rows written by [createInitialBoard] (0, 1, [lastRow - 1] and
    [lastRow]) are distinct for both sizes, so the board is given row by
    row. *)
Definition createInitialBoard (boardSize : BoardSize) : Board :=
  let '(rows, cols) := getBoardDimensions boardSize in
  [ (fun t => Pc (mkPiece t black)) <$> backRow;
    replicate cols (Pc (mkPiece pawn black)) ]
  ++ replicate (rows - 4) (replicate cols Null)
  ++ [ replicate cols (Pc (mkPiece pawn white));
       (fun t => Pc (mkPiece t white)) <$> backRow ].

(** ** Evaluation and search

    Scores are JavaScript numbers.  The search only compares them, and
    the evaluation only adds and multiplies them, so the floating-point
    operations are parameters: [flt] is the type of finite numbers,
    [fofZ] the number of an integer literal, [f0_1], [f0_05] and [f0_5]
    the literals [0.1], [0.05] and [0.5]. *)

Inductive score (flt : Type) := NegInf | Fin (x : flt) | PosInf.
Arguments NegInf {flt}.
Arguments Fin {flt} x.
Arguments PosInf {flt}.

Section Search.

Variable strict : bool.
Variable flt : Type.
Variables fadd fmul : flt -> flt -> flt.
Variable fneg : flt -> flt.
Variable fofZ : Z -> flt.
Variables f0_1 f0_05 f0_5 : flt.
Variable fleb : flt -> flt -> bool.

(** [a <= b], [Math.max], [Math.min] and [+] on numbers with the two
    infinities *)
Definition sleb (a b : score flt) : bool :=
  match a, b with
  | NegInf, _ => true
  | _, PosInf => true
  | Fin x, Fin y => fleb x y
  | _, _ => false
  end.

Definition smax (a b : score flt) : score flt := if sleb a b then b else a.
Definition smin (a b : score flt) : score flt := if sleb a b then a else b.

Definition sadd (a : score flt) (x : flt) : score flt :=
  match a with
  | Fin y => Fin (fadd y x)
  | inf => inf
  end.

Definition pieceValues (t : PieceType) : flt :=
  fofZ match t with
       | pawn => 1 | knight => 3 | bishop => 3
       | rook => 5 | queen => 9 | king => 100
       end.

Fixpoint scoreSquares (b : Board) (centerRow centerCol : Z)
    (sq : list Position) (score : flt) : result flt :=
  match sq with
  | [] => Ok score
  | p :: sq' =>
      do x <- readCell strict b (row p) (col p) ;;
      scoreSquares b centerRow centerCol sq'
        match x with
        | Pc pc =>
            let value := pieceValues (type pc) in
            let score :=
              fadd score
                (if color_eqb (color pc) black then value else fneg value) in
            let centerBonus :=
              fadd (fmul (fofZ (centerCol - Z.abs (centerCol - col p))) f0_1)
                   (fmul (fofZ (centerRow - Z.abs (centerRow - row p))) f0_05)
            in
            fadd score
              (if color_eqb (color pc) black
               then centerBonus else fneg centerBonus)
        | _ => score
        end
  end.

Definition evaluateBoard (b : Board) (enPassantTarget : option Position)
    (castlingRights : option CastlingRights) : result flt :=
  let rows := boardRows b in
  do cols <- boardCols strict b ;;
  let score := fofZ 0 in
  let centerCol := cols / 2 in
  let centerRow := rows / 2 in
  do mateW <- isCheckmate strict b white enPassantTarget castlingRights ;;
  if mateW then Ok (fofZ 10000) else
  do mateB <- isCheckmate strict b black enPassantTarget castlingRights ;;
  if mateB then Ok (fofZ (-10000)) else
  do chkW <- isKingInCheck strict b white ;;
  let score := if chkW then fadd score (fofZ 50) else score in
  do chkB <- isKingInCheck strict b black ;;
  let score := if chkB then fadd score (fneg (fofZ 50)) else score in
  scoreSquares b centerRow centerCol
    (squares (length b) (Z.to_nat cols)) score.

Definition searcher :=
  Board -> score flt -> score flt -> bool -> option Position ->
  CastlingRights -> result (score flt).

(** One iteration of a loop of [minimax] up to the recursive call: the
    child a move leads to, searched with the given window. *)
Definition maxChild (rec : searcher) (b : Board)
    (ep : option Position) (cr : CastlingRights) (m : Move)
    (lo hi : score flt) : result (score flt) :=
  do result <- executeMove strict b (from m) (to m) cr ep promoQueen ;;
  rec (newBoard result) lo hi false
    (newEnPassantTarget result) (newCastlingRights result).

Definition minChild (rec : searcher) (b : Board)
    (ep : option Position) (cr : CastlingRights) (m : Move)
    (lo hi : score flt) : result (score flt) :=
  do result <- executeMove strict b (from m) (to m) cr ep promoQueen ;;
  rec (newBoard result) hi lo true
    (newEnPassantTarget result) (newCastlingRights result).

(** The two [for (const move of moves)] loops of [minimax]; [rec] is the
    recursive call at [depth - 1]. *)
Fixpoint maxLoop (rec : searcher) (b : Board)
    (enPassantTarget : option Position) (castlingRights : CastlingRights)
    (moves : list Move) (maxEval alpha beta : score flt)
  : result (score flt) :=
  match moves with
  | [] => Ok maxEval
  | move :: rest =>
      do result <- executeMove strict b (from move) (to move)
                     castlingRights enPassantTarget promoQueen ;;
      do evaluation <- rec (newBoard result) alpha beta false
                         (newEnPassantTarget result)
                         (newCastlingRights result) ;;
      let maxEval := smax maxEval evaluation in
      let alpha := smax alpha evaluation in
      if sleb beta alpha then Ok maxEval
      else maxLoop rec b enPassantTarget castlingRights rest
             maxEval alpha beta
  end.

Fixpoint minLoop (rec : searcher) (b : Board)
    (enPassantTarget : option Position) (castlingRights : CastlingRights)
    (moves : list Move) (minEval alpha beta : score flt)
  : result (score flt) :=
  match moves with
  | [] => Ok minEval
  | move :: rest =>
      do result <- executeMove strict b (from move) (to move)
                     castlingRights enPassantTarget promoQueen ;;
      do evaluation <- rec (newBoard result) alpha beta true
                         (newEnPassantTarget result)
                         (newCastlingRights result) ;;
      let minEval := smin minEval evaluation in
      let beta := smin beta evaluation in
      if sleb beta alpha then Ok minEval
      else minLoop rec b enPassantTarget castlingRights rest
             minEval alpha beta
  end.

(** [depth] counts down to [0]; a natural number is a depth [>= 0]. *)
Fixpoint minimax (depth : nat) (b : Board) (alpha beta : score flt)
    (isMaximizing : bool) (enPassantTarget : option Position)
    (castlingRights : CastlingRights) : result (score flt) :=
  match depth with
  | O =>
      do v <- evaluateBoard b enPassantTarget (Some castlingRights) ;;
      Ok (Fin v)
  | S depth' =>
      let c := if isMaximizing then black else white in
      do mate <- isCheckmate strict b c enPassantTarget
                   (Some castlingRights) ;;
      if mate
      then Ok (Fin (fofZ (if isMaximizing then -10000 else 10000)))
      else
      do moves <- getAllMoves strict b c enPassantTarget
                    (Some castlingRights) ;;
      if isEmptyList moves then Ok (Fin (fofZ 0)) else
      if isMaximizing
      then maxLoop (minimax depth') b enPassantTarget castlingRights
             moves NegInf alpha beta
      else minLoop (minimax depth') b enPassantTarget castlingRights
             moves PosInf alpha beta
  end.

(** [getAIMove]; the [i]-th call of [Math.random()] returns [random i]. *)
Fixpoint aiLoop (difficulty : nat) (b : Board)
    (enPassantTarget : option Position) (castlingRights : CastlingRights)
    (random : nat -> flt) (i : nat) (moves : list Move)
    (bestMove : Move) (bestScore : score flt) : result Move :=
  match moves with
  | [] => Ok bestMove
  | move :: rest =>
      do result <- executeMove strict b (from move) (to move)
                     castlingRights enPassantTarget promoQueen ;;
      do sc <- minimax difficulty (newBoard result) NegInf PosInf false
                 (newEnPassantTarget result) (newCastlingRights result) ;;
      let randomFactor := fmul (random i) f0_5 in
      let adjustedScore := sadd sc randomFactor in
      if negb (sleb adjustedScore bestScore)
      then aiLoop difficulty b enPassantTarget castlingRights random (S i)
             rest move adjustedScore
      else aiLoop difficulty b enPassantTarget castlingRights random (S i)
             rest bestMove bestScore
  end.

Definition getAIMove (b : Board) (difficulty : nat)
    (enPassantTarget : option Position) (castlingRights : CastlingRights)
    (random : nat -> flt) : result (option Move) :=
  do moves <- getAllMoves strict b black enPassantTarget
                (Some castlingRights) ;;
  match moves with
  | [] => Ok None
  | m0 :: _ =>
      do best <- aiLoop difficulty b enPassantTarget castlingRights
                   random 0 moves m0 NegInf ;;
      Ok (Some best)
  end.

(** The reference the search is compared with: the same recursion with
    every move of every node expanded and no window. *)
Fixpoint mapM {A B} (f : A -> result B) (l : list A) : result (list B) :=
  match l with
  | [] => Ok []
  | x :: l' => do y <- f x ;; do r <- mapM f l' ;; Ok (y :: r)
  end.

Fixpoint bruteForceMinimax (depth : nat) (b : Board) (isMaximizing : bool)
    (enPassantTarget : option Position) (castlingRights : CastlingRights)
  : result (score flt) :=
  match depth with
  | O =>
      do v <- evaluateBoard b enPassantTarget (Some castlingRights) ;;
      Ok (Fin v)
  | S depth' =>
      let c := if isMaximizing then black else white in
      do mate <- isCheckmate strict b c enPassantTarget
                   (Some castlingRights) ;;
      if mate
      then Ok (Fin (fofZ (if isMaximizing then -10000 else 10000)))
      else
      do moves <- getAllMoves strict b c enPassantTarget
                    (Some castlingRights) ;;
      if isEmptyList moves then Ok (Fin (fofZ 0)) else
      do values <-
        mapM (fun move =>
          do result <- executeMove strict b (from move) (to move)
                         castlingRights enPassantTarget promoQueen ;;
          bruteForceMinimax depth' (newBoard result) (negb isMaximizing)
            (newEnPassantTarget result) (newCastlingRights result)) moves ;;
      Ok (if isMaximizing
          then foldr smax NegInf values
          else foldr smin PosInf values)
  end.

End Search.

(** ** Well-formed boards and the vocabulary of the statements *)

(** A board of the game: at least one row, nine columns in every row and
    no hole. *)
Definition definedCell (x : cell) : bool :=
  match x with Undefined => false | _ => true end.

Definition wf_row (rw : list cell) : bool :=
  (length rw =? 9)%nat && forallb definedCell rw.

Definition wf_board (b : Board) : Prop :=
  negb (isEmptyList b) && forallb wf_row b = true.

Definition inBounds (b : Board) (p : Position) : Prop :=
  0 <= row p < boardRows b /\ 0 <= col p < 9.

(** The content of a square, [undefined] outside the arrays. *)
Definition cellAt (b : Board) (r c : Z) : cell :=
  match rowAt b r with
  | Some rw => default Undefined (elemAt rw c)
  | None => Undefined
  end.

Definition pieceAt (b : Board) (p : Position) : cell :=
  cellAt b (row p) (col p).

Definition isOk {A} (m : result A) : Prop := exists v, m = Ok v.

(** Source and destination on a common row, column or diagonal. *)
Definition aligned (from_ to_ : Position) : Prop :=
  row to_ = row from_ \/ col to_ = col from_ \/
  Z.abs (row to_ - row from_) = Z.abs (col to_ - col from_).

(** The castling precondition, clause by clause as the specification
    words it; the side is the sign of the column delta. *)
Definition castlingPrecondition (strict : bool) (b : Board)
    (from_ to_ : Position) (c : PieceColor) (cr : CastlingRights) : Prop :=
  let kingside := col from_ <? col to_ in
  let kingRow := homeRow b c in
  let rookCol := if kingside then 8 else 0 in
  let direction := if kingside then 1 else -1 in
  (* the king stands on its home square *)
  (row from_ = kingRow /\ col from_ = 4) /\
  (* the right of that side and direction is still granted *)
  rightFor c kingside cr = true /\
  (* the king is not in check *)
  isKingInCheck strict b c = Ok false /\
  (* the rook of that colour is on its home square *)
  cellAt b kingRow rookCol = Pc (mkPiece rook c) /\
  (* every square strictly between king and rook is empty *)
  (forall cl, Z.min 4 rookCol < cl < Z.max 4 rookCol ->
              cellAt b kingRow cl = Null) /\
  (* the squares one and two steps away are not attacked *)
  (forall i, i = 1 \/ i = 2 ->
     isSquareUnderAttack strict b (mkPos kingRow (4 + direction * i))
       (opponent c) = Ok false).

(** Boards that agree except for the type of some pieces of colour [c]
    that are not kings (a promoted pawn). *)
Definition cell_sim (c : PieceColor) (x y : cell) : Prop :=
  x = y \/
  exists p q, x = Pc p /\ y = Pc q /\ color p = c /\ color q = c /\
              type p <> king /\ type q <> king.

Definition board_sim (c : PieceColor) (b1 b2 : Board) : Prop :=
  boardRows b1 = boardRows b2 /\
  forall r cl, cell_sim c (cellAt b1 r cl) (cellAt b2 r cl).

(** The loop shared by the maximizing and the minimizing side of the
    search, over any order [le] with its [mx]: [best] is the running
    best value, [lo] the bound the loop raises and [hi] the bound that
    cuts it. *)
Fixpoint cutLoop {A T} (le : T -> T -> bool) (mx : T -> T -> T)
    (child : A -> T -> T -> result T) (ms : list A) (best lo hi : T)
  : result T :=
  match ms with
  | [] => Ok best
  | m :: rest =>
      do r <- child m lo hi ;;
      let best := mx best r in
      let lo := mx lo r in
      if le hi lo then Ok best else cutLoop le mx child rest best lo hi
  end.

(** What a search with window [(lo, hi)] promises about its result [r]
    when the exact value is [v]: exact inside the window, a bound on the
    exact value outside. *)
Definition bounded {T} (le : T -> T -> bool) (lo hi v r : T) : Prop :=
  (le r lo = true -> le v r = true) /\
  (le hi r = true -> le r v = true) /\
  (le r lo = false -> le hi r = false -> v = r).

(** Every child of a node returns, and its result for a window is
    bounded by its exact value. *)
Definition children_sound {A T} (le : T -> T -> bool)
    (child : A -> T -> T -> result T) (value : A -> result T)
    (ms : list A) : Prop :=
  forall m, m ∈ ms ->
    exists v, value m = Ok v /\
      forall lo hi, le hi lo = false ->
        exists r, child m lo hi = Ok r /\ bounded le lo hi v r.

Definition rookHome (b : Board) (c : PieceColor) (kingside : bool)
  : Position :=
  mkPos (homeRow b c) (rookFromCol kingside).

(** The three events that revoke the right of colour [c] on one side:
    the king of [c] moves, the rook of [c] leaves its home square, the
    rook of [c] is captured on its home square. *)
Definition rightLost (b : Board) (c : PieceColor) (kingside : bool)
    (mover : cell) (from_ : Position) (taken : cell) (to_ : Position)
  : bool :=
  isKingOf c mover
  || isRookOf c mover && pos_eqb from_ (rookHome b c kingside)
  || isRookOf c taken && pos_eqb to_ (rookHome b c kingside).

(** "Advancing two rows", and the square behind the destination, on the
    side the pawn of colour [c] came from. *)
Definition advancesTwoRows (mover : cell) (from_ to_ : Position) : bool :=
  isTypeOf pawn mover && (Z.abs (row to_ - row from_) =? 2).

Definition squareBehind (c : PieceColor) (to_ : Position) : Position :=
  mkPos (row to_ - pawnDirection c) (col to_).

Definition emptyBoard (nrows : nat) : Board :=
  replicate nrows (replicate 9 Null).

Definition place (b : Board) (sq : nat * nat) (p : ChessPiece) : Board :=
  <[sq.1 := <[sq.2 := Pc p]> (default [] (b !! sq.1))]> b.

Definition boardOf (nrows : nat) (ps : list (nat * nat * ChessPiece)) : Board :=
  foldr (fun sp b => place b sp.1 sp.2) (emptyBoard nrows) ps.

Definition initial9x8 : Board := createInitialBoard size9x8.

(** White may castle kingside: king and rook at home, nothing between. *)
Definition castlingBoard : Board :=
  boardOf 8 [ (7, 4, mkPiece king white); (7, 8, mkPiece rook white);
              (0, 4, mkPiece king black) ]%nat.

(** One king, a queen and two bishops on squares of the same colour. *)
Definition queenAndBishops : Board :=
  boardOf 8 [ (7, 4, mkPiece king white); (7, 3, mkPiece queen white);
              (7, 2, mkPiece bishop white); (0, 1, mkPiece bishop black) ]%nat.

(** Two positions that differ by swapping the white king and knight. *)
Definition kingOnE : Board :=
  boardOf 8 [ (7, 4, mkPiece king white); (7, 7, mkPiece knight white);
              (0, 4, mkPiece king black) ]%nat.

Definition knightOnE : Board :=
  boardOf 8 [ (7, 4, mkPiece knight white); (7, 7, mkPiece king white);
              (0, 4, mkPiece king black) ]%nat.

(** Kings and two pawns, for the search. *)
Definition pawnEnding : Board :=
  boardOf 8 [ (7, 4, mkPiece king white); (6, 0, mkPiece pawn white);
              (0, 4, mkPiece king black); (1, 8, mkPiece pawn black) ]%nat.

(** The draw conditions in the order of the specification. *)
Definition firstDrawReason (isStale isThreefold isFifty isInsufficient : bool)
  : DrawStatus :=
  if isStale then mkDraw true (Some stalemate)
  else if isThreefold then mkDraw true (Some threefold)
  else if isFifty then mkDraw true (Some fiftyMove)
  else if isInsufficient then mkDraw true (Some insufficient)
  else mkDraw false None.

(** Insufficient material as the specification words it: two kings; or
    three pieces whose single non-king is a bishop or a knight; or four
    pieces, two kings and two bishops on squares of the same colour. *)
Definition insufficientSpec (pieces : list (ChessPiece * Position)) : bool :=
  let kings := List.filter (hasType king) pieces in
  let bishops := List.filter (hasType bishop) pieces in
  let knights := List.filter (hasType knight) pieces in
  ((length pieces =? 2) && (length kings =? 2))%nat
  || ((length pieces =? 3) && (length kings =? 2)
      && ((length bishops =? 1) || (length knights =? 1)))%nat
  || ((length pieces =? 4) && (length kings =? 2))%nat
     && match bishops with
        | [b0; b1] => squareColor b0 =? squareColor b1
        | _ => false
        end.

(** The rows [isPathClear] can still visit from [currentRow] before it
    leaves the board. *)
Definition rowsLeft (b : Board) (rowDir currentRow : Z) : Z :=
  if (currentRow <? 0) || (boardRows b <=? currentRow) then 0
  else if rowDir =? 1 then boardRows b - currentRow
  else currentRow + 1.

(** Whenever the first run returns a value, the second returns it too. *)
Definition agrees {A} (m1 m2 : result A) : Prop :=
  forall v, m1 = Ok v -> m2 = Ok v.

(** ** Check status, promotion test and captured king *)

Record CheckStatus := mkCheck {
  isInCheck : bool;
  isCheckmateStatus : bool;
  checkedKingPosition : option Position
}.

Section Status.

Variable strict : bool.

(** [isInCheck && ...] and [isInCheck ? ... : null] only evaluate their
    second part when the king is in check. *)
Definition getCheckStatus (b : Board) (c : PieceColor)
    (enPassantTarget : option Position)
    (castlingRights : option CastlingRights) : result CheckStatus :=
  do isInCheck <- isKingInCheck strict b c ;;
  do isCheckmateStatus <-
    (if isInCheck
     then do legalMoves <-
            getAllLegalMoves strict b c enPassantTarget castlingRights ;;
          Ok (isEmptyList legalMoves)
     else Ok false) ;;
  do kingPos <-
    (if isInCheck then findKingPosition strict b c else Ok None) ;;
  Ok (mkCheck isInCheck isCheckmateStatus kingPos).

Definition isPromotionMove (b : Board) (from_ to_ : Position) : result bool :=
  do pc <- readCell strict b (row from_) (col from_) ;;
  match pc with
  | Pc p =>
      if negb (type_eqb (type p) pawn) then Ok false else
      let rows := boardRows b in
      Ok (color_eqb (color p) white && (row to_ =? 0)
          || color_eqb (color p) black && (row to_ =? rows - 1))
  | _ => Ok false
  end.

Definition isKingCaptured (b : Board) (c : PieceColor) : result bool :=
  do sq <- allSquares strict b ;;
  do found <-
    existsM (fun p =>
      do x <- readCell strict b (row p) (col p) ;; Ok (isKingOf c x)) sq ;;
  Ok (negb found).

End Status.

(** ** Vocabulary of the further properties *)

(** The [k]-th square on the way from [from_] towards [to_], the number
    of steps between them, and a way whose squares strictly between are
    all empty. *)
Definition stepTowards (from_ to_ : Position) (k : Z) : Position :=
  mkPos (row from_ + k * Z.sgn (row to_ - row from_))
        (col from_ + k * Z.sgn (col to_ - col from_)).

Definition distance (from_ to_ : Position) : Z :=
  Z.max (Z.abs (row to_ - row from_)) (Z.abs (col to_ - col from_)).

Definition pathEmpty (b : Board) (from_ to_ : Position) : Prop :=
  forall k, 0 < k < distance from_ to_ ->
            pieceAt b (stepTowards from_ to_ k) = Null.

(** The lines a rook, a bishop and a queen move along. *)
Definition slides (t : PieceType) (from_ to_ : Position) : Prop :=
  match t with
  | rook => row to_ = row from_ \/ col to_ = col from_
  | bishop => Z.abs (row to_ - row from_) = Z.abs (col to_ - col from_)
  | queen => aligned from_ to_
  | _ => False
  end.

Definition pawnStartRow (b : Board) (c : PieceColor) : Z :=
  match c with white => boardRows b - 2 | black => 1 end.

(** No piece of colour [c] has a move that [isValidMove] accepts. *)
Definition noLegalMove (strict : bool) (b : Board) (c : PieceColor)
    (ep : option Position) (cr : option CastlingRights) : Prop :=
  forall from_ to_ p,
    pieceAt b from_ = Pc p -> color p = c ->
    isValidMove strict b from_ to_ ep cr = Ok false.

(** The squares a move changes, and what they hold afterwards: the
    content of square [(r, c)] once the piece [p] has gone from [from_]
    to [to_] as the special move [s]. *)
Definition movedCell (b : Board) (from_ to_ : Position)
    (promo : PromotionPiece) (p : ChessPiece) (s : option SpecialMoveType)
    (r c : Z) : cell :=
  let on (sq : Position) := (r =? row sq) && (c =? col sq) in
  if on from_ then Null
  else if on to_ then
    match s with
    | Some promotion => Pc (mkPiece (promoType promo) (color p))
    | _ => Pc p
    end
  else
    match s with
    | Some enPassant =>
        if on (mkPos (capturedPawnRow (color p) to_) (col to_)) then Null
        else cellAt b r c
    | Some castleKingside =>
        if on (mkPos (row to_) 8) then Null
        else if on (mkPos (row to_) (col to_ - 1)) then cellAt b (row to_) 8
        else cellAt b r c
    | Some castleQueenside =>
        if on (mkPos (row to_) 0) then Null
        else if on (mkPos (row to_) (col to_ + 1)) then cellAt b (row to_) 0
        else cellAt b r c
    | _ => cellAt b r c
    end.

(** The piece a move reports as captured. *)
Definition capturedCell (b : Board) (to_ : Position) (p : ChessPiece)
    (s : option SpecialMoveType) : cell :=
  match s with
  | Some enPassant => cellAt b (capturedPawnRow (color p) to_) (col to_)
  | _ => pieceAt b to_
  end.

(** The side of a castling move, as [canCastle] and [getSpecialMoveType]
    decide it. *)
Definition kingsideMove (from_ to_ : Position) : bool :=
  col from_ <? col to_.

(** Every move of the list can be executed and leads to a board of the
    game. *)
Definition playable (strict : bool) (b : Board) (ep : option Position)
    (cr : CastlingRights) (ms : list Move) : Prop :=
  forall m, m ∈ ms ->
    exists res, executeMove strict b (from m) (to m) cr ep promoQueen = Ok res
                /\ wf_board (newBoard res).

(** An en passant target whose coordinates are written with one digit
    each, as on every board of at most ten rows and columns. *)
Definition oneDigit (ep : option Position) : Prop :=
  match ep with
  | Some e => 0 <= row e <= 9 /\ 0 <= col e <= 9
  | None => True
  end.

(** A computation that returns when every index outside the arrays is an
    error, with the result of the JavaScript run: all its accesses are
    in bounds. *)
Definition inBoundsRun {A} (run : bool -> result A) : Prop :=
  exists v, run true = Ok v /\ run false = Ok v.

(** A white pawn beside a black pawn that has just advanced two rows. *)
Definition enPassantBoard : Board :=
  boardOf 8 [ (3, 4, mkPiece pawn white); (3, 5, mkPiece pawn black);
              (7, 4, mkPiece king white); (0, 4, mkPiece king black) ]%nat.

(** ** Move notation and the board component (components/ChessBoard.tsx) *)

(** The [Move] handed to [onMove]. *)
Record PlayedMove := mkPlayed {
  playedFrom : Position;
  playedTo : Position;
  playedPiece : ChessPiece;
  playedCaptured : option ChessPiece;
  notation : string;
  isCheck : bool;
  playedIsCheckmate : bool;
  playedSpecialMove : option SpecialMoveType;
  promotedTo : option PromotionPiece
}.

Inductive GameMode := pvp | ai | online.

(** The state the component works on: its properties [board],
    [currentPlayer], [gameMode], [boardSize], [enPassantTarget],
    [castlingRights], [positionHistory], [halfMoveClock] and
    [gameOver]. *)
Record GameState := mkState {
  board : Board;
  currentPlayer : PieceColor;
  gameMode : GameMode;
  boardSize : BoardSize;
  enPassantTarget : option Position;
  castlingRights : CastlingRights;
  positionHistory : list string;
  halfMoveClock : Z;
  gameOver : bool
}.

(** What [completeMove] hands to the setters of the state and to the
    callbacks [onCapture] (called for a captured piece only) and
    [onMove]. *)
Record Completed := mkCompleted {
  setBoard : Board;
  setEnPassantTarget : option Position;
  setCastlingRights : CastlingRights;
  setPositionHistory : list string;
  setHalfMoveClock : Z;
  onCapture : option ChessPiece;
  onMove : PlayedMove
}.

(** [x || undefined] for a cell: the piece, if there is one *)
Definition pieceOf (x : cell) : option ChessPiece :=
  match x with Pc p => Some p | _ => None end.

(** [type.charAt(0).toUpperCase()] *)
Definition upperInitial (t : PieceType) : string :=
  match t with
  | king => "K" | queen => "Q" | rook => "R"
  | bishop => "B" | knight => "K" | pawn => "P"
  end.

Definition promotionSymbol (p : PromotionPiece) : string :=
  match p with
  | promoKnight => "N"
  | promoQueen => "Q" | promoRook => "R" | promoBishop => "B"
  end.

Definition checkSymbol (isCheck isCheckmateNotation : bool) : string :=
  if isCheckmateNotation then "#" else if isCheck then "+" else "".

Section Component.

Variable strict : bool.

(** [String.fromCharCode] *)
Variable fromCharCode : Z -> string.

Definition getMoveNotation (from_ to_ : Position) (piece : ChessPiece)
    (captured : option ChessPiece) (boardRows : Z)
    (isCheck isCheckmateNotation : bool)
    (specialMove : option SpecialMoveType)
    (promotedTo : option PromotionPiece) : string :=
  if isSpecial castleKingside specialMove
  then "O-O" +:+ checkSymbol isCheck isCheckmateNotation
  else if isSpecial castleQueenside specialMove
  then "O-O-O" +:+ checkSymbol isCheck isCheckmateNotation
  else
    let pieceSymbol :=
      if type_eqb (type piece) pawn then "" else upperInitial (type piece) in
    let fromSquare :=
      fromCharCode (97 + col from_) +:+ pretty (boardRows - row from_) in
    let toSquare :=
      fromCharCode (97 + col to_) +:+ pretty (boardRows - row to_) in
    let captureSymbol :=
      match captured with Some _ => "x" | None => "-" end in
    let epSuffix :=
      if isSpecial enPassant specialMove then " e.p." else "" in
    let promotionSuffix :=
      if isSpecial promotion specialMove then
        match promotedTo with
        | Some pr => "=" +:+ promotionSymbol pr
        | None => "=Q"
        end
      else "" in
    pieceSymbol +:+ fromSquare +:+ captureSymbol +:+ toSquare
      +:+ promotionSuffix +:+ epSuffix
      +:+ checkSymbol isCheck isCheckmateNotation.

Definition completeMove (st : GameState) (from_ to_ : Position)
    (movingPiece : ChessPiece) (promotionPiece : PromotionPiece)
  : result Completed :=
  let rows := Z.of_nat (fst (getBoardDimensions (boardSize st))) in
  do result <- executeMove strict (board st) from_ to_ (castlingRights st)
                 (enPassantTarget st) promotionPiece ;;
  do specialMove <- getSpecialMoveType strict (board st) from_ to_
                      (enPassantTarget st) ;;
  let opponentColor := opponent (currentPlayer st) in
  do opponentInCheck <- isKingInCheck strict (newBoard result) opponentColor ;;
  do opponentInCheckmate <-
    (if opponentInCheck
     then isCheckmate strict (newBoard result) opponentColor
            (newEnPassantTarget result) (Some (newCastlingRights result))
     else Ok false) ;;
  do newPositionHash <-
    getBoardPositionHash strict (newBoard result) opponentColor
      (newCastlingRights result) (newEnPassantTarget result) ;;
  let isPawnMove := type_eqb (type movingPiece) pawn in
  let isCapture := negb (isNull (captured result)) in
  let promoted :=
    if isSpecial promotion specialMove then Some promotionPiece else None in
  Ok (mkCompleted
        (newBoard result) (newEnPassantTarget result)
        (newCastlingRights result)
        (positionHistory st ++ [newPositionHash])
        (if isPawnMove || isCapture then 0 else halfMoveClock st + 1)
        (pieceOf (captured result))
        (mkPlayed from_ to_ movingPiece (pieceOf (captured result))
           (getMoveNotation from_ to_ movingPiece (pieceOf (captured result))
              rows opponentInCheck opponentInCheckmate specialMove promoted)
           opponentInCheck opponentInCheckmate specialMove promoted)).



End Component.

Definition isAI (m : GameMode) : bool :=
  match m with ai => true | _ => false end.

Section Computer.

Variable strict : bool.
Variable fromCharCode : Z -> string.
Variable flt : Type.
Variables fadd fmul : flt -> flt -> flt.
Variable fneg : flt -> flt.
Variable fofZ : Z -> flt.
Variables f0_1 f0_05 f0_5 : flt.
Variable fleb : flt -> flt -> bool.

(** [makeAIMove]: the guard, and the body of the delayed callback.  Both
    branches on [isPromotionMove] complete the move with a queen, the
    default of [completeMove]. *)
Definition makeAIMove (st : GameState) (random : nat -> flt)
  : result (option Completed) :=
  if negb (isAI (gameMode st)) || negb (color_eqb (currentPlayer st) black)
     || gameOver st
  then Ok None
  else
    do aiMove <- getAIMove strict flt fadd fmul fneg fofZ f0_1 f0_05 f0_5 fleb
                   (board st) 2 (enPassantTarget st) (castlingRights st)
                   random ;;
    match aiMove with
    | Some m =>
        do isPromotion <- isPromotionMove strict (board st) (from m) (to m) ;;
        do done <-
          (if isPromotion
           then completeMove strict fromCharCode st (from m) (to m) (piece m)
                  promoQueen
           else completeMove strict fromCharCode st (from m) (to m) (piece m)
                  promoQueen) ;;
        Ok (Some done)
    | None => Ok None
    end.

End Computer.

(** [String.fromCharCode] on the codes of the ASCII letters. *)
Definition asciiChar (code : Z) : string :=
  String (Ascii.ascii_of_nat (Z.to_nat code)) "".

(** White to move with king and rook; the position after the rook move
    from column 8 to row 5 is already in the history. *)
Definition repeatedState : GameState :=
  mkState castlingBoard white pvp size9x8 None
    (mkRights false false false false) ["bk04wr58wk74b"] 7 false.

(** Black to move against the computer. *)
Definition computerTurn : GameState :=
  mkState pawnEnding black ai size9x8 None getInitialCastlingRights [] 0 false.

(** * Proofs *)

(** ** The error monad and its loops *)

Lemma bind_Ok {A B} (m : result A) (k : A -> result B) a :
  m = Ok a -> bind m k = k a.
Proof. intros ->. reflexivity. Qed.

Lemma bind_Ok_inv {A B} (m : result A) (k : A -> result B) v :
  bind m k = Ok v -> exists a, m = Ok a /\ k a = Ok v.
Proof. destruct m as [a|e]; simpl; [eauto | discriminate]. Qed.

Lemma isOk_Ok {A} (a : A) : isOk (Ok a).
Proof. exists a. reflexivity. Qed.

Lemma isOk_bind {A B} (m : result A) (k : A -> result B) :
  isOk m -> (forall a, m = Ok a -> isOk (k a)) -> isOk (bind m k).
Proof. intros [a Ha] Hk. rewrite Ha. simpl. auto. Qed.

Lemma isOk_if {A} (c : bool) (x y : result A) :
  isOk x -> isOk y -> isOk (if c then x else y).
Proof. destruct c; auto. Qed.

Lemma existsM_isOk {A} (f : A -> result bool) l :
  (forall x, x ∈ l -> isOk (f x)) -> isOk (existsM f l).
Proof.
  induction l as [|x l IH]; intros H; simpl; [apply isOk_Ok|].
  apply isOk_bind; [apply H; left|].
  intros [] _; [apply isOk_Ok|]. apply IH. intros y Hy. apply H. by right.
Qed.

Lemma existsM_false {A} (f : A -> result bool) l :
  existsM f l = Ok false <-> forall x, x ∈ l -> f x = Ok false.
Proof.
  induction l as [|x l IH]; simpl.
  - split; [intros _ y Hy; inversion Hy | done].
  - split.
    + intros H. apply bind_Ok_inv in H as ([] & Hx & H); [discriminate|].
      intros y Hy. apply elem_of_cons in Hy as [->|Hy]; [done|].
      by apply IH.
    + intros H. rewrite (H x) by left. simpl. apply IH.
      intros y Hy. apply H. by right.
Qed.

Lemma existsM_true {A} (f : A -> result bool) l :
  existsM f l = Ok true -> exists x, x ∈ l /\ f x = Ok true.
Proof.
  induction l as [|x l IH]; simpl; [discriminate|].
  intros H. apply bind_Ok_inv in H as ([] & Hx & H).
  - exists x. split; [left | done].
  - destruct (IH H) as (y & Hy & Hfy). exists y. split; [by right | done].
Qed.

Lemma findM_isOk {A} (f : A -> result bool) l :
  (forall x, x ∈ l -> isOk (f x)) -> isOk (findM f l).
Proof.
  induction l as [|x l IH]; intros H; simpl; [apply isOk_Ok|].
  apply isOk_bind; [apply H; left|].
  intros [] _; [apply isOk_Ok|]. apply IH. intros y Hy. apply H. by right.
Qed.

Lemma findM_Some {A} (f : A -> result bool) l x :
  findM f l = Ok (Some x) -> x ∈ l /\ f x = Ok true.
Proof.
  induction l as [|y l IH]; simpl; [discriminate|].
  intros H. apply bind_Ok_inv in H as ([] & Hy & H).
  - injection H as <-. split; [left | done].
  - destruct (IH H). split; [by right | done].
Qed.

Lemma filterM_isOk {A} (f : A -> result bool) l :
  (forall x, x ∈ l -> isOk (f x)) -> isOk (filterM f l).
Proof.
  induction l as [|x l IH]; intros H; simpl; [apply isOk_Ok|].
  apply isOk_bind; [apply H; left|]. intros t _.
  apply isOk_bind; [apply IH; intros y Hy; apply H; by right|].
  intros r _. apply isOk_Ok.
Qed.

Lemma filterM_elem {A} (f : A -> result bool) l r x :
  filterM f l = Ok r -> x ∈ r -> x ∈ l /\ f x = Ok true.
Proof.
  revert r. induction l as [|y l IH]; simpl; intros r H Hx.
  - injection H as <-. inversion Hx.
  - apply bind_Ok_inv in H as (t & Hy & H).
    apply bind_Ok_inv in H as (r' & Hr' & H). injection H as <-.
    destruct t.
    + apply elem_of_cons in Hx as [->|Hx]; [split; [left|done]|].
      destruct (IH _ Hr' Hx). split; [by right | done].
    + destruct (IH _ Hr' Hx). split; [by right | done].
Qed.

Lemma concatM_isOk {A B} (f : A -> result (list B)) l :
  (forall x, x ∈ l -> isOk (f x)) -> isOk (concatM f l).
Proof.
  induction l as [|x l IH]; intros H; simpl; [apply isOk_Ok|].
  apply isOk_bind; [apply H; left|]. intros t _.
  apply isOk_bind; [apply IH; intros y Hy; apply H; by right|].
  intros r _. apply isOk_Ok.
Qed.

Lemma concatM_elem {A B} (f : A -> result (list B)) l r y :
  concatM f l = Ok r -> y ∈ r ->
  exists x h, x ∈ l /\ f x = Ok h /\ y ∈ h.
Proof.
  revert r. induction l as [|x l IH]; simpl; intros r H Hy.
  - injection H as <-. inversion Hy.
  - apply bind_Ok_inv in H as (h & Hx & H).
    apply bind_Ok_inv in H as (r' & Hr' & H). injection H as <-.
    apply elem_of_app in Hy as [Hy|Hy].
    + exists x, h. split; [left | done].
    + destruct (IH _ Hr' Hy) as (x' & h' & ? & ? & ?).
      exists x', h'. split; [by right | done].
Qed.

Lemma elem_of_squares n m p :
  p ∈ squares n m <->
  0 <= row p < Z.of_nat n /\ 0 <= col p < Z.of_nat m.
Proof.
  unfold squares. rewrite list_elem_of_bind. split.
  - intros (r & Hp & Hr). apply list_elem_of_fmap in Hp as (c & -> & Hc).
    apply elem_of_seq in Hr, Hc. simpl. lia.
  - intros [Hr Hc]. exists (Z.to_nat (row p)). split.
    + apply list_elem_of_fmap. exists (Z.to_nat (col p)). split.
      * destruct p as [r c]; simpl in *. f_equal; lia.
      * apply elem_of_seq. lia.
    + apply elem_of_seq. lia.
Qed.

(** ** Reading and writing squares of a well-formed board *)

Section Access.

Variable strict : bool.

Lemma wf_board_rows b : wf_board b -> 0 < boardRows b.
Proof.
  unfold wf_board, boardRows. destruct b; simpl; [discriminate | lia].
Qed.

Lemma wf_board_row b r rw :
  wf_board b -> rowAt b r = Some rw ->
  length rw = 9%nat /\ forall x, x ∈ rw -> x <> Undefined.
Proof.
  unfold wf_board, rowAt. intros Hwf Hr.
  apply andb_true_iff in Hwf as [_ Hwf].
  destruct (r <? 0); [discriminate|].
  apply list_elem_of_lookup_2, list_elem_of_In in Hr.
  rewrite forallb_forall in Hwf. specialize (Hwf _ Hr).
  apply andb_true_iff in Hwf as [Hlen Hdef].
  apply Nat.eqb_eq in Hlen. split; [done|].
  intros x Hx ->. apply list_elem_of_In in Hx.
  rewrite forallb_forall in Hdef. by specialize (Hdef _ Hx).
Qed.

Lemma rowAt_Some b r :
  0 <= r < boardRows b -> exists rw, rowAt b r = Some rw.
Proof.
  unfold rowAt, boardRows. intros Hr.
  destruct (Z.ltb_spec r 0); [lia|].
  apply lookup_lt_is_Some_2. lia.
Qed.

Lemma rowAt_inv b r rw : rowAt b r = Some rw -> 0 <= r < boardRows b.
Proof.
  unfold rowAt, boardRows. destruct (Z.ltb_spec r 0); [discriminate|].
  intros Hl. apply lookup_lt_Some in Hl. lia.
Qed.

Lemma elemAt_inv rw c x :
  elemAt rw c = Some x -> 0 <= c < Z.of_nat (length rw).
Proof.
  unfold elemAt. destruct (Z.ltb_spec c 0); [discriminate|].
  intros Hl. apply lookup_lt_Some in Hl. lia.
Qed.

Lemma cellAt_defined b r c :
  wf_board b -> 0 <= r < boardRows b -> 0 <= c < 9 ->
  cellAt b r c <> Undefined.
Proof.
  intros Hwf Hr Hc. unfold cellAt.
  destruct (rowAt_Some b r Hr) as [rw Hrw]. rewrite Hrw.
  destruct (wf_board_row _ _ _ Hwf Hrw) as [Hlen Hdef].
  unfold elemAt. destruct (Z.ltb_spec c 0); [lia|].
  destruct (lookup_lt_is_Some_2 rw (Z.to_nat c)) as [x Hx]; [lia|].
  rewrite Hx. simpl. apply Hdef. by eapply list_elem_of_lookup_2.
Qed.

Lemma readCell_wf b r c :
  wf_board b -> 0 <= r < boardRows b -> 0 <= c < 9 ->
  readCell strict b r c = Ok (cellAt b r c).
Proof.
  intros Hwf Hr Hc. unfold readCell, cellAt.
  destruct (rowAt_Some b r Hr) as [rw Hrw]. rewrite Hrw.
  destruct (wf_board_row _ _ _ Hwf Hrw) as [Hlen Hdef].
  unfold elemAt. destruct (Z.ltb_spec c 0); [lia|].
  destruct (lookup_lt_is_Some_2 rw (Z.to_nat c)) as [x Hx]; [lia|].
  by rewrite Hx.
Qed.

(** A read that returns a piece was inside the arrays. *)
Lemma readCell_piece b r c p :
  wf_board b -> readCell strict b r c = Ok (Pc p) ->
  0 <= r < boardRows b /\ 0 <= c < 9 /\ cellAt b r c = Pc p.
Proof.
  intros Hwf. unfold readCell, cellAt.
  destruct (rowAt b r) as [rw|] eqn:Hrw; [|unfold noRow; discriminate].
  destruct (wf_board_row _ _ _ Hwf Hrw) as [Hlen _].
  destruct (elemAt rw c) as [x|] eqn:Hx.
  - intros [= ->]. apply rowAt_inv in Hrw. apply elemAt_inv in Hx.
    repeat split; simpl; lia.
  - destruct strict; discriminate.
Qed.

(** Reading a value other than [undefined] is finding it stored there. *)
Lemma readCell_value b r c x :
  x <> Undefined -> readCell strict b r c = Ok x <-> cellAt b r c = x.
Proof.
  intros Hx. unfold readCell, cellAt, noRow.
  destruct (rowAt b r) as [rw|]; [|split; [discriminate | congruence]].
  destruct (elemAt rw c) as [y|]; simpl.
  - split; congruence.
  - destruct strict; split; congruence.
Qed.

Lemma boardCols_wf b : wf_board b -> boardCols strict b = Ok 9.
Proof.
  intros Hwf. destruct b as [|r0 b]; [discriminate|]. simpl.
  destruct (wf_board_row (r0 :: b) 0 r0 Hwf eq_refl) as [-> _]. done.
Qed.

Lemma allSquares_wf b :
  wf_board b -> allSquares strict b = Ok (squares (length b) 9).
Proof. intros Hwf. unfold allSquares. by rewrite boardCols_wf. Qed.

Lemma elem_of_squares_wf b p :
  p ∈ squares (length b) 9 <-> inBounds b p.
Proof. rewrite elem_of_squares. unfold inBounds, boardRows. lia. Qed.

Lemma cellAt_write (b : Board) r c v rw r' c' :
  rowAt b r = Some rw -> 0 <= c < Z.of_nat (length rw) ->
  cellAt (<[Z.to_nat r := <[Z.to_nat c := v]> rw]> b) r' c' =
  if (r' =? r) && (c' =? c) then v else cellAt b r' c'.
Proof.
  intros Hrw Hc. pose proof (rowAt_inv _ _ _ Hrw) as Hr.
  unfold cellAt, rowAt in *. unfold boardRows in Hr.
  destruct (Z.ltb_spec r 0) as [?|_]; [lia|].
  destruct (Z.eqb_spec r' r) as [->|Hne]; simpl.
  - destruct (Z.ltb_spec r 0) as [?|_]; [lia|].
    rewrite list_lookup_insert_eq by lia. rewrite Hrw. unfold elemAt.
    destruct (Z.eqb_spec c' c) as [->|Hnc].
    + destruct (Z.ltb_spec c 0) as [?|_]; [lia|].
      rewrite list_lookup_insert_eq by lia. done.
    + destruct (Z.ltb_spec c' 0) as [?|?]; [done|].
      rewrite list_lookup_insert_ne by lia. done.
  - destruct (Z.ltb_spec r' 0) as [?|?]; [done|].
    rewrite list_lookup_insert_ne by lia. done.
Qed.

Lemma writeCell_wf b r c v :
  wf_board b -> 0 <= r < boardRows b -> 0 <= c < 9 -> v <> Undefined ->
  exists b',
    writeCell strict b r c v = Ok b' /\ wf_board b' /\
    boardRows b' = boardRows b /\
    forall r' c', cellAt b' r' c' =
                  if (r' =? r) && (c' =? c) then v else cellAt b r' c'.
Proof.
  intros Hwf Hr Hc Hv. unfold writeCell.
  destruct (rowAt_Some b r Hr) as [rw Hrw]. rewrite Hrw.
  destruct (wf_board_row _ _ _ Hwf Hrw) as [Hlen Hdef].
  destruct (Z.ltb_spec c 0); [lia|].
  destruct (Z.ltb_spec c (Z.of_nat (length rw))); [|lia].
  eexists. split; [done|]. split; [|split].
  - unfold wf_board in *. apply andb_true_iff in Hwf as [Hne Hall].
    apply andb_true_iff. split.
    + destruct b; [done|]. by destruct (Z.to_nat r).
    + apply forallb_forall. intros rw' Hin.
      apply list_elem_of_In, list_elem_of_lookup in Hin as [i Hi].
      destruct (decide (i = Z.to_nat r)) as [->|Hne'].
      * rewrite list_lookup_insert_eq in Hi
          by (unfold boardRows in Hr; lia).
        injection Hi as <-. unfold wf_row.
        rewrite length_insert, Hlen. simpl.
        apply forallb_forall. intros x Hx.
        apply list_elem_of_In, list_elem_of_lookup in Hx as [j Hj].
        destruct (decide (j = Z.to_nat c)) as [->|Hnj].
        -- rewrite list_lookup_insert_eq in Hj by lia.
           injection Hj as <-. by destruct v.
        -- rewrite list_lookup_insert_ne in Hj by done.
           apply list_elem_of_lookup_2, Hdef in Hj. by destruct x.
      * rewrite list_lookup_insert_ne in Hi by done.
        rewrite forallb_forall in Hall. apply Hall.
        by eapply list_elem_of_In, list_elem_of_lookup_2.
  - unfold boardRows. by rewrite length_insert.
  - intros r' c'. by apply cellAt_write.
Qed.

End Access.

(** ** Attack analysis never fails on a well-formed board *)

Section Totality.

Variable strict : bool.

Lemma isPathClear_loop_ok b to_ rowDir colDir :
  wf_board b ->
  forall (k fuel : nat) cr cc,
    (k <= fuel)%nat ->
    cr = row to_ - Z.of_nat k * rowDir ->
    cc = col to_ - Z.of_nat k * colDir ->
    (forall j : nat, (0 < j <= k)%nat ->
       0 <= row to_ - Z.of_nat j * rowDir < boardRows b /\
       0 <= col to_ - Z.of_nat j * colDir < 9) ->
    isOk (isPathClear_loop strict fuel b rowDir colDir cr cc to_).
Proof.
  intros Hwf. induction k as [|k IH]; intros fuel cr cc Hfuel -> -> Hin.
  - replace (row to_ - Z.of_nat 0 * rowDir) with (row to_) by lia.
    replace (col to_ - Z.of_nat 0 * colDir) with (col to_) by lia.
    destruct fuel; simpl; rewrite !Z.eqb_refl; apply isOk_Ok.
  - destruct fuel as [|fuel]; [lia|]. simpl.
    destruct (negb _ || negb _); [|apply isOk_Ok].
    destruct (Hin (S k)) as [Hr Hc]; [lia|].
    rewrite readCell_wf by done. simpl.
    destruct (negb _); [apply isOk_Ok|].
    apply IH; [lia | lia | lia |]. intros j Hj. apply Hin. lia.
Qed.

Lemma sgn_cases z :
  (z < 0 /\ Z.sgn z = -1) \/ (z = 0 /\ Z.sgn z = 0) \/ (0 < z /\ Z.sgn z = 1).
Proof. destruct z; simpl; lia. Qed.

Lemma isPathClear_ok b from_ to_ :
  wf_board b -> inBounds b from_ -> inBounds b to_ -> aligned from_ to_ ->
  isOk (isPathClear strict b from_ to_).
Proof.
  intros Hwf [Hfr Hfc] [Htr Htc] Hal. unfold isPathClear.
  unfold boardRows, aligned in *.
  set (rd := Z.sgn (row to_ - row from_)).
  set (cd := Z.sgn (col to_ - col from_)).
  assert (Hrd := sgn_cases (row to_ - row from_)). fold rd in Hrd.
  assert (Hcd := sgn_cases (col to_ - col from_)). fold cd in Hcd.
  clearbody rd cd.
  apply isPathClear_loop_ok with
    (k := (Z.to_nat (Z.max (Z.abs (row to_ - row from_))
                           (Z.abs (col to_ - col from_))) - 1)%nat);
    [done | lia | | |]; unfold boardRows;
    destruct Hrd as [[? ->]|[[? ->]|[? ->]]];
    destruct Hcd as [[? ->]|[[? ->]|[? ->]]];
    lia.
Qed.

Lemma isValidMoveBasicForAttack_ok b from_ to_ :
  wf_board b -> inBounds b from_ ->
  isOk (isValidMoveBasicForAttack strict b from_ to_).
Proof.
  intros Hwf [Hfr Hfc]. unfold isValidMoveBasicForAttack.
  rewrite boardCols_wf by done. simpl.
  destruct (outOfBounds _ _ _) eqn:Hout; [apply isOk_Ok|].
  assert (inBounds b to_) as Hto.
  { unfold outOfBounds, inBounds in *. lia. }
  destruct Hto as [Htr Htc].
  rewrite readCell_wf by done. simpl.
  destruct (cellAt b (row from_) (col from_)) as [| |p]; try apply isOk_Ok.
  rewrite readCell_wf by done. simpl.
  destruct (sameColorTarget _ _); [apply isOk_Ok|].
  destruct (pos_eqb _ _); [apply isOk_Ok|].
  destruct (type p); try apply isOk_Ok.
  - destruct (negb _ && _ && _) eqn:Hq; [apply isOk_Ok|].
    apply isPathClear_ok; [done | done | done |]. unfold aligned. lia.
  - destruct (negb _ && _) eqn:Hq; [apply isOk_Ok|].
    apply isPathClear_ok; [done | done | done |]. unfold aligned. lia.
  - destruct (negb _) eqn:Hq; [apply isOk_Ok|].
    apply isPathClear_ok; [done | done | done |]. unfold aligned. lia.
Qed.

Lemma findKingPosition_ok b c :
  wf_board b ->
  exists kp, findKingPosition strict b c = Ok kp /\
             forall p, kp = Some p ->
               inBounds b p /\ isKingOf c (pieceAt b p) = true.
Proof.
  intros Hwf. unfold findKingPosition. rewrite allSquares_wf by done. simpl.
  destruct (findM_isOk
    (fun p => do x <- readCell strict b (row p) (col p) ;; Ok (isKingOf c x))
    (squares (length b) 9)) as [kp Hkp].
  { intros p [Hr Hc]%elem_of_squares_wf. rewrite readCell_wf by done.
    apply isOk_Ok. }
  exists kp. split; [done|]. intros p ->.
  apply findM_Some in Hkp as [[Hr Hc]%elem_of_squares_wf Hk].
  rewrite readCell_wf in Hk by done. simpl in Hk.
  split; [done | unfold pieceAt; congruence].
Qed.

Lemma isSquareUnderAttack_ok b position attackerColor :
  wf_board b -> isOk (isSquareUnderAttack strict b position attackerColor).
Proof.
  intros Hwf. unfold isSquareUnderAttack. rewrite allSquares_wf by done.
  simpl. apply existsM_isOk. intros p [Hr Hc]%elem_of_squares_wf.
  rewrite readCell_wf by done. simpl.
  destruct (cellAt _ _ _); try apply isOk_Ok.
  destruct (color_eqb _ _); [|apply isOk_Ok].
  by apply isValidMoveBasicForAttack_ok.
Qed.

Lemma isKingInCheck_ok b c : wf_board b -> isOk (isKingInCheck strict b c).
Proof.
  intros Hwf. unfold isKingInCheck.
  destruct (findKingPosition_ok b c Hwf) as (kp & -> & _). simpl.
  destruct kp; [|apply isOk_Ok]. by apply isSquareUnderAttack_ok.
Qed.

End Totality.

(** ** Castling *)

Lemma type_eqb_eq a b : type_eqb a b = true <-> a = b.
Proof. destruct a, b; simpl; split; congruence. Qed.

Lemma color_eqb_eq a b : color_eqb a b = true <-> a = b.
Proof. destruct a, b; simpl; split; congruence. Qed.

Lemma pos_eqb_eq p q : pos_eqb p q = true <-> p = q.
Proof.
  destruct p, q; unfold pos_eqb; simpl. split.
  - intros H. f_equal; lia.
  - intros [= -> ->]. lia.
Qed.

Lemma isRookOf_eq c x : isRookOf c x = true <-> x = Pc (mkPiece rook c).
Proof.
  destruct x as [| |[t c']]; simpl; try (split; congruence).
  rewrite andb_true_iff, type_eqb_eq, color_eqb_eq. simpl.
  split; [intros [-> ->]; done | intros [= -> ->]; done].
Qed.

Lemma isKingOf_eq c x : isKingOf c x = true <-> x = Pc (mkPiece king c).
Proof.
  destruct x as [| |[t c']]; simpl; try (split; congruence).
  rewrite andb_true_iff, type_eqb_eq, color_eqb_eq. simpl.
  split; [intros [-> ->]; done | intros [= -> ->]; done].
Qed.

Lemma elem_of_colRange s e cl : cl ∈ colRange s e <-> s <= cl < e.
Proof.
  unfold colRange. rewrite list_elem_of_fmap. split.
  - intros (i & -> & Hi). apply elem_of_seq in Hi. lia.
  - intros H. exists (Z.to_nat (cl - s)). split; [lia|].
    apply elem_of_seq. lia.
Qed.

Lemma homeRow_inBounds b c : wf_board b -> 0 <= homeRow b c < boardRows b.
Proof. intros H%wf_board_rows. destruct c; simpl; lia. Qed.

Section Castling.

Variable strict : bool.

Lemma canCastle_ok b from_ to_ c cr :
  wf_board b -> isOk (canCastle strict b from_ to_ c cr).
Proof.
  intros Hwf. unfold canCastle.
  pose proof (homeRow_inBounds b c Hwf) as Hk.
  destruct (negb _ || negb _); [apply isOk_Ok|].
  destruct (negb _); [apply isOk_Ok|].
  apply isOk_bind; [by apply isKingInCheck_ok|]. intros [] _; [apply isOk_Ok|].
  rewrite readCell_wf by (try done; destruct (_ <? _); lia). cbn [bind].
  destruct (negb _); [apply isOk_Ok|].
  apply isOk_bind.
  { apply existsM_isOk. intros cl Hcl%elem_of_colRange.
    rewrite readCell_wf by (try done; destruct (col from_ <? col to_); lia).
    apply isOk_Ok. }
  intros [] _; [apply isOk_Ok|].
  apply isOk_bind.
  { apply existsM_isOk. intros i _. by apply isSquareUnderAttack_ok. }
  intros [] _; apply isOk_Ok.
Qed.

Lemma canCastle_iff b from_ to_ c cr :
  canCastle strict b from_ to_ c cr = Ok true <->
  castlingPrecondition strict b from_ to_ c cr.
Proof.
  unfold canCastle, castlingPrecondition.
  set (kingside := col from_ <? col to_).
  set (rookCol := if kingside then 8 else 0).
  split.
  - intros H.
    destruct (negb _ || negb _) eqn:Hhome; [discriminate|].
    destruct (negb (rightFor _ _ _)) eqn:Hright; [discriminate|].
    apply bind_Ok_inv in H as ([] & Hchk & H); [discriminate|].
    apply bind_Ok_inv in H as (rk & Hrk & H).
    destruct (negb (isRookOf _ _)) eqn:Hrook; [discriminate|].
    apply bind_Ok_inv in H as ([] & Hblocked & H); [discriminate|].
    apply bind_Ok_inv in H as ([] & Hatt & H); [discriminate|].
    split; [lia|]. split; [by destruct (rightFor _ _ _)|].
    split; [done|]. split.
    { assert (rk = Pc (mkPiece rook c)) as ->
        by (apply isRookOf_eq; by destruct (isRookOf _ _)).
      by apply readCell_value in Hrk. }
    split.
    + intros cl Hcl. rewrite existsM_false in Hblocked.
      specialize (Hblocked cl). rewrite elem_of_colRange in Hblocked.
      specialize (Hblocked ltac:(lia)).
      apply bind_Ok_inv in Hblocked as (x & Hx & Hnull).
      destruct x; try discriminate. by apply readCell_value in Hx.
    + intros i Hi. rewrite existsM_false in Hatt. apply Hatt.
      destruct Hi as [-> | ->]; [left | right; left].
  - intros ((Hr & Hc) & Hright & Hchk & Hrook & Hclear & Hatt).
    destruct (Z.eqb_spec (row from_) (homeRow b c)); [|lia].
    destruct (Z.eqb_spec (col from_) 4); [|lia]. cbn [negb orb].
    rewrite Hright, Hchk. cbn [negb bind].
    rewrite (proj2 (readCell_value strict b (homeRow b c) rookCol
                      (Pc (mkPiece rook c)) ltac:(done))) by done.
    cbn [bind isRookOf type color type_eqb andb].
    replace (color_eqb c c) with true by (by destruct c). cbn [negb].
    rewrite (proj2 (existsM_false _ _)); cbn [bind].
    + rewrite (proj2 (existsM_false _ _)); cbn [bind]; [done|].
      intros i Hi. apply Hatt.
      apply elem_of_cons in Hi as [->|Hi]; [by left|].
      apply elem_of_cons in Hi as [->|Hi]; [by right|]. inversion Hi.
    + intros cl Hcl%elem_of_colRange.
      rewrite (proj2 (readCell_value strict b (homeRow b c) cl Null ltac:(done)));
        [done|].
      apply Hclear. lia.
Qed.

End Castling.

(** ** Basic validity *)

Section Basic.

Variable strict : bool.

Lemma outOfBounds_false b p :
  outOfBounds (boardRows b) 9 p = false <-> inBounds b p.
Proof. unfold outOfBounds, inBounds. lia. Qed.

Lemma isValidMoveBasic_ok b from_ to_ ep cr :
  wf_board b -> inBounds b from_ ->
  isOk (isValidMoveBasic strict b from_ to_ ep cr).
Proof.
  intros Hwf [Hfr Hfc]. unfold isValidMoveBasic.
  rewrite boardCols_wf by done. cbn [bind].
  destruct (outOfBounds _ _ _) eqn:Hout; [apply isOk_Ok|].
  apply outOfBounds_false in Hout as [Htr Htc].
  rewrite readCell_wf by done. cbn [bind].
  destruct (cellAt b (row from_) (col from_)) as [| |p]; try apply isOk_Ok.
  rewrite readCell_wf by done. cbn [bind].
  destruct (sameColorTarget _ _); [apply isOk_Ok|].
  destruct (pos_eqb _ _); [apply isOk_Ok|].
  destruct (type p).
  - destruct (_ && _); [apply isOk_Ok|].
    destruct cr as [cr|]; [|apply isOk_Ok].
    destruct (_ && _); [|apply isOk_Ok]. by apply canCastle_ok.
  - destruct (negb _ && _ && _) eqn:Hq; [apply isOk_Ok|].
    apply isPathClear_ok; [done | done | done |]. unfold aligned. lia.
  - destruct (negb _ && _) eqn:Hq; [apply isOk_Ok|].
    apply isPathClear_ok; [done | done | done |]. unfold aligned. lia.
  - destruct (negb _) eqn:Hq; [apply isOk_Ok|].
    apply isPathClear_ok; [done | done | done |]. unfold aligned. lia.
  - apply isOk_Ok.
  - apply isOk_bind.
    + destruct (_ && negb _); [|apply isOk_Ok].
      destruct (_ =? pawnDirection _); [apply isOk_Ok|].
      destruct (_ && _) eqn:Hd; [|apply isOk_Ok].
      rewrite readCell_wf; [apply isOk_Ok | done | | done].
      unfold pawnDirection in *. destruct (color p); lia.
    + intros [] _; [apply isOk_Ok|].
      destruct (_ && _); [|apply isOk_Ok].
      destruct (isPiece _); [apply isOk_Ok|]. destruct ep; apply isOk_Ok.
Qed.

(** What a move accepted by [isValidMoveBasic] looks like. *)
Lemma isValidMoveBasic_true b from_ to_ ep cr :
  wf_board b -> isValidMoveBasic strict b from_ to_ ep cr = Ok true ->
  exists p,
    pieceAt b from_ = Pc p /\ inBounds b from_ /\ inBounds b to_ /\
    from_ <> to_ /\
    (type p = pawn ->
       row to_ - row from_ = pawnDirection (color p) \/
       row to_ - row from_ = 2 * pawnDirection (color p)) /\
    (type p = king -> Z.abs (col to_ - col from_) = 2 ->
       row to_ = row from_ /\
       exists cr', cr = Some cr' /\
                   castlingPrecondition strict b from_ to_ (color p) cr').
Proof.
  intros Hwf. unfold isValidMoveBasic.
  rewrite boardCols_wf by done. cbn [bind].
  destruct (outOfBounds _ _ _) eqn:Hout; [discriminate|].
  apply outOfBounds_false in Hout as [Htr Htc].
  intros H. apply bind_Ok_inv in H as (pc & Hpc & H).
  destruct pc as [| |p]; try discriminate.
  apply readCell_piece in Hpc as (Hfr & Hfc & Hp); [|done].
  rewrite readCell_wf in H by done. cbn [bind] in H.
  destruct (sameColorTarget _ _); [discriminate|].
  destruct (pos_eqb from_ to_) eqn:Hne; [discriminate|].
  exists p. split; [done|]. split; [done|]. split; [done|].
  split. { intros <-. by rewrite (proj2 (pos_eqb_eq _ _)) in Hne. }
  split; intros Ht; rewrite Ht in H.
  - apply bind_Ok_inv in H as (fwd & Hfwd & H).
    destruct fwd.
    + destruct (_ && negb _); [|discriminate].
      destruct (Z.eqb_spec (row to_ - row from_) (pawnDirection (color p)));
        [by left|].
      destruct (_ && _) eqn:Hd; [|discriminate]. right. lia.
    + clear Hfwd. destruct ((Z.abs _ =? 1) && _) eqn:Hd; [|discriminate].
      left. lia.
  - intros Hc.
    destruct (_ && _) eqn:Hstep; [lia|].
    destruct cr as [cr|]; [|discriminate].
    destruct ((Z.abs _ =? 0) && _) eqn:Hcas; [|discriminate].
    split; [lia|]. exists cr. split; [done|]. by apply canCastle_iff.
Qed.

(** An accepted pawn move over two rows is the double step straight
    ahead. *)
Lemma isValidMoveBasic_double_step b from_ to_ ep cr p :
  wf_board b -> isValidMoveBasic strict b from_ to_ ep cr = Ok true ->
  pieceAt b from_ = Pc p -> type p = pawn ->
  Z.abs (row to_ - row from_) = 2 ->
  col to_ = col from_ /\
  row to_ - row from_ = 2 * pawnDirection (color p).
Proof.
  intros Hwf H Hp Ht Habs. unfold isValidMoveBasic in H.
  rewrite boardCols_wf in H by done. cbn [bind] in H.
  destruct (outOfBounds _ _ _) eqn:Hout; [discriminate|].
  apply outOfBounds_false in Hout as [Htr Htc].
  apply bind_Ok_inv in H as (pc & Hpc & H).
  destruct pc as [| |p']; try discriminate.
  apply readCell_piece in Hpc as (Hfr & Hfc & Hp'); [|done].
  assert (p' = p) as -> by (unfold pieceAt in Hp; congruence).
  rewrite readCell_wf in H by done. cbn [bind] in H.
  destruct (sameColorTarget _ _); [discriminate|].
  destruct (pos_eqb from_ to_); [discriminate|].
  rewrite Ht in H. apply bind_Ok_inv in H as (fwd & Hfwd & H).
  assert (Z.abs (pawnDirection (color p)) = 1) as Hdir
    by (by destruct (color p)).
  destruct fwd.
  - clear H. destruct ((_ =? 0) && negb _) eqn:Hcol; [|discriminate].
    destruct (Z.eqb_spec (row to_ - row from_) (pawnDirection (color p)));
      [lia|].
    destruct ((row from_ =? _) && _) eqn:Hd; [|discriminate]. lia.
  - clear Hfwd. destruct ((Z.abs _ =? 1) && _) eqn:Hd; [|discriminate]. lia.
Qed.

End Basic.

(** ** Boards that differ by a promotion give the same check verdict *)

Section Similar.

Variable strict : bool.

Lemma readCell_wf_out b r c :
  wf_board b -> ~ (0 <= r < boardRows b /\ 0 <= c < 9) ->
  readCell strict b r c =
  if (0 <=? r) && (r <? boardRows b)
  then (if strict then Err OutOfBounds else Ok Undefined)
  else noRow strict.
Proof.
  intros Hwf Hout. unfold readCell.
  destruct (rowAt b r) as [rw|] eqn:Hrw.
  - pose proof (rowAt_inv _ _ _ Hrw) as Hr.
    destruct (wf_board_row _ _ _ Hwf Hrw) as [Hlen _].
    destruct (elemAt rw c) as [x|] eqn:Hx.
    + apply elemAt_inv in Hx. lia.
    + destruct (Z.leb_spec 0 r), (Z.ltb_spec r (boardRows b)); try lia. done.
  - destruct (Z.leb_spec 0 r), (Z.ltb_spec r (boardRows b)); try done.
    destruct (rowAt_Some b r) as [rw Hrw']; [lia | congruence].
Qed.

Lemma cell_sim_isNull c x y : cell_sim c x y -> isNull x = isNull y.
Proof. intros [->|(p & q & -> & -> & _)]; done. Qed.

Lemma cell_sim_isKingOf c x y :
  cell_sim c x y -> isKingOf c x = isKingOf c y.
Proof.
  intros [->|(p & q & -> & -> & _ & _ & Hp & Hq)]; [done|]. simpl.
  destruct (type p), (type q); done.
Qed.

Lemma cell_sim_sameColor c x y p :
  cell_sim c x y -> sameColorTarget x p = sameColorTarget y p.
Proof.
  intros [->|(p1 & q1 & -> & -> & H1 & H2 & _)]; [done|]. simpl. congruence.
Qed.

Lemma readCell_sim c b1 b2 r cl :
  wf_board b1 -> wf_board b2 -> board_sim c b1 b2 ->
  (exists x y, readCell strict b1 r cl = Ok x /\
               readCell strict b2 r cl = Ok y /\ cell_sim c x y) \/
  (exists e, readCell strict b1 r cl = Err e /\
             readCell strict b2 r cl = Err e).
Proof.
  intros Hwf1 Hwf2 [Hrows Hcells].
  destruct (decide (0 <= r < boardRows b1 /\ 0 <= cl < 9)) as [[Hr Hc]|Hout].
  - left. exists (cellAt b1 r cl), (cellAt b2 r cl).
    rewrite !readCell_wf by (try done; lia). done.
  - rewrite (readCell_wf_out b1), (readCell_wf_out b2)
      by (try done; lia).
    rewrite <- Hrows.
    destruct (_ && _); [destruct strict|]; unfold noRow.
    + right. by eexists.
    + left. exists Undefined, Undefined. split; [done|]. split; [done|].
      by left.
    + right. by eexists.
Qed.

Lemma isPathClear_loop_sim c b1 b2 rowDir colDir to_ :
  wf_board b1 -> wf_board b2 -> board_sim c b1 b2 ->
  forall fuel cr cc,
    isPathClear_loop strict fuel b1 rowDir colDir cr cc to_ =
    isPathClear_loop strict fuel b2 rowDir colDir cr cc to_.
Proof.
  intros Hwf1 Hwf2 Hsim. induction fuel as [|fuel IH]; intros cr cc; simpl.
  - done.
  - destruct (negb _ || negb _); [|done].
    destruct (readCell_sim c b1 b2 cr cc Hwf1 Hwf2 Hsim)
      as [(x & y & -> & -> & Hxy)|(e & -> & ->)]; [|done].
    cbn [bind]. rewrite (cell_sim_isNull _ _ _ Hxy).
    destruct (negb _); [done|]. apply IH.
Qed.

Lemma isPathClear_sim c b1 b2 from_ to_ :
  wf_board b1 -> wf_board b2 -> board_sim c b1 b2 ->
  isPathClear strict b1 from_ to_ = isPathClear strict b2 from_ to_.
Proof.
  intros Hwf1 Hwf2 Hsim. unfold isPathClear.
  replace (length b2) with (length b1)
    by (destruct Hsim as [Hr _]; unfold boardRows in Hr; lia).
  by apply (isPathClear_loop_sim c).
Qed.

Lemma isValidMoveBasicForAttack_sim c b1 b2 from_ to_ :
  wf_board b1 -> wf_board b2 -> board_sim c b1 b2 ->
  inBounds b1 from_ -> pieceAt b1 from_ = pieceAt b2 from_ ->
  isValidMoveBasicForAttack strict b1 from_ to_ =
  isValidMoveBasicForAttack strict b2 from_ to_.
Proof.
  intros Hwf1 Hwf2 Hsim [Hfr Hfc] Hfrom. unfold isValidMoveBasicForAttack.
  rewrite !boardCols_wf by done. cbn [bind].
  pose proof Hsim as [Hrows _]. rewrite <- Hrows.
  destruct (outOfBounds _ _ _); [done|].
  rewrite (readCell_wf strict b1 (row from_) (col from_)),
    (readCell_wf strict b2 (row from_) (col from_)) by (try done; lia).
  cbn [bind]. unfold pieceAt in Hfrom. rewrite <- Hfrom.
  destruct (cellAt b1 (row from_) (col from_)) as [| |p]; try done.
  destruct (readCell_sim c b1 b2 (row to_) (col to_) Hwf1 Hwf2 Hsim)
    as [(x & y & -> & -> & Hxy)|(e & -> & ->)]; [|done].
  cbn [bind]. rewrite (cell_sim_sameColor _ _ _ p Hxy).
  rewrite (isPathClear_sim c b1 b2) by done. done.
Qed.

Lemma findM_ext {A} (f g : A -> result bool) l :
  (forall x, x ∈ l -> f x = g x) -> findM f l = findM g l.
Proof.
  induction l as [|x l IH]; intros H; simpl; [done|].
  rewrite (H x) by left. rewrite IH; [done|].
  intros y Hy. apply H. by right.
Qed.

Lemma existsM_ext {A} (f g : A -> result bool) l :
  (forall x, x ∈ l -> f x = g x) -> existsM f l = existsM g l.
Proof.
  induction l as [|x l IH]; intros H; simpl; [done|].
  rewrite (H x) by left. rewrite IH; [done|].
  intros y Hy. apply H. by right.
Qed.

Lemma isKingInCheck_sim c b1 b2 :
  wf_board b1 -> wf_board b2 -> board_sim c b1 b2 ->
  isKingInCheck strict b1 c = isKingInCheck strict b2 c.
Proof.
  intros Hwf1 Hwf2 Hsim. pose proof Hsim as [Hrows Hcells].
  assert (length b2 = length b1) as Hlen by (unfold boardRows in Hrows; lia).
  unfold isKingInCheck, findKingPosition, isSquareUnderAttack.
  rewrite !allSquares_wf by done. cbn [bind]. rewrite Hlen.
  rewrite (findM_ext _
    (fun p => do x <- readCell strict b2 (row p) (col p) ;;
              Ok (isKingOf c x))).
  2:{ intros p [Hr Hc]%elem_of_squares_wf.
      rewrite !readCell_wf by (try done; lia). cbn [bind].
      by rewrite (cell_sim_isKingOf c _ _ (Hcells _ _)). }
  destruct (findM _ _) as [[kp|]|e]; cbn [bind]; try done.
  apply existsM_ext. intros p Hp%elem_of_squares_wf. pose proof Hp as [Hr Hc].
  rewrite !readCell_wf by (try done; lia). cbn [bind].
  destruct (Hcells (row p) (col p))
    as [Heq|(p1 & q1 & -> & -> & H1 & H2 & _)].
  - rewrite <- Heq. destruct (cellAt b1 (row p) (col p)) eqn:Hx; try done.
    destruct (color_eqb _ _); [|done].
    apply (isValidMoveBasicForAttack_sim c); try done.
    unfold pieceAt. congruence.
  - rewrite H1, H2. by destruct c.
Qed.

End Similar.

(** ** Simulating and executing an accepted move *)

Ltac write_step :=
  match goal with
  | |- context [writeCell ?s ?b ?r ?c ?v] =>
      let b' := fresh "nb" in
      let Hw := fresh "Hw" in
      let Hwf' := fresh "Hwf" in
      let Hrows := fresh "Hrows" in
      let Hcell := fresh "Hcell" in
      destruct (writeCell_wf s b r c v)
        as (b' & Hw & Hwf' & Hrows & Hcell);
      [ done | lia | lia
      | first [ done | apply cellAt_defined; [done | lia | lia] ]
      | rewrite Hw; cbn [bind fst snd] ]
  end.

Ltac read_step :=
  match goal with
  | |- context [readCell ?s ?b ?r ?c] =>
      rewrite (readCell_wf s b r c) by (try done; lia); cbn [bind fst snd]
  end.

Ltac run_steps := repeat (first [write_step | read_step]).

Ltac cells_back :=
  repeat match goal with
  | H : forall r' c', cellAt ?nb r' c' = _ |- context [cellAt ?nb _ _] =>
      rewrite !H
  end.

Ltac split_eqb :=
  repeat match goal with
  | |- context [Z.eqb ?a ?b] => destruct (Z.eqb_spec a b)
  end.

Section Accepted.

Variable strict : bool.

Lemma accepted_move_boards b from_ to_ ep cr cr0 promo p :
  wf_board b ->
  isValidMoveBasic strict b from_ to_ ep cr = Ok true ->
  pieceAt b from_ = Pc p ->
  exists S r,
    simulatedBoard strict b from_ to_ ep = Ok S /\ wf_board S /\
    executeMove strict b from_ to_ cr0 ep promo = Ok r /\
    wf_board (newBoard r) /\ board_sim (color p) S (newBoard r).
Proof.
  intros Hwf Hv Hp.
  destruct (isValidMoveBasic_true strict b from_ to_ ep cr Hwf Hv)
    as (p' & Hp' & [Hfr Hfc] & [Htr Htc] & Hne & Hpawn & Hking).
  assert (p' = p) as -> by congruence. clear Hp'.
  unfold pieceAt in Hp.
  unfold simulatedBoard, executeMove, getSpecialMoveType.
  rewrite !(readCell_wf strict b (row from_) (col from_)) by done.
  rewrite Hp. cbn [bind].
  rewrite (readCell_wf strict b (row to_) (col to_)) by done. cbn [bind].
  cbn [isTypeOf].
  destruct (type_eqb (type p) king && (Z.abs (col to_ - col from_) =? 2))
    eqn:Hcas.
  - (* castling *)
    apply andb_true_iff in Hcas as [Ht%type_eqb_eq Hc%Z.eqb_eq].
    destruct (Hking Ht Hc) as (Hrow & cr' & _ & (Hhr & Hhc) & _).
    rewrite Ht. cbn [bind type_eqb andb isSpecial orb fst snd].
    unfold rookFromCol, rookToCol.
    destruct (Z.ltb_spec (col from_) (col to_)) as [Hside|Hside];
      cbn [bind isSpecial orb fst snd];
      run_steps;
      (eexists _, _; split; [reflexivity|]; split; [done|];
       split; [reflexivity|]; cbn [newBoard]; split; [done|];
       split; [lia|]; intros r cl; cells_back;
       split_eqb; cbn [andb]; first [by left | lia]).
  - destruct (type_eqb (type p) pawn) eqn:Ht; cbn [andb].
    + apply type_eqb_eq in Ht. specialize (Hpawn Ht).
      unfold pawnDirection in Hpawn.
      destruct (matchesTarget to_ ep) eqn:Hep;
        cbn [bind isSpecial orb fst snd].
      * unfold capturedPawnRow.
        destruct (color p) eqn:Hcol; run_steps;
          (eexists _, _; split; [reflexivity|]; split; [done|];
           split; [reflexivity|]; cbn [newBoard]; split; [done|];
           split; [lia|]; intros r cl; cells_back;
           split_eqb; cbn [andb]; first [by left | lia]).
      * destruct (row to_ =? lastRankFor b (color p));
          cbn [bind isSpecial orb fst snd];
          run_steps;
          (eexists _, _; split; [reflexivity|]; split; [done|];
           split; [reflexivity|]; cbn [newBoard]; split; [done|];
           split; [lia|]; intros r cl; cells_back;
           split_eqb; cbn [andb];
           first [ by left | lia
                 | by (right; exists p, (mkPiece (promoType promo) (color p));
                       rewrite Ht; destruct promo) ]).
    + cbn [bind isSpecial orb fst snd]. run_steps.
      eexists _, _; split; [reflexivity|]; split; [done|];
        split; [reflexivity|]; cbn [newBoard]; split; [done|];
        split; [lia|]; intros r cl; cells_back;
        split_eqb; cbn [andb]; first [by left | lia].
Qed.

End Accepted.

(** ** Full legality and move enumeration *)

Section Legality.

Variable strict : bool.

Lemma wouldMoveLeaveKingInCheck_ok b from_ to_ ep cr p c :
  wf_board b ->
  isValidMoveBasic strict b from_ to_ ep cr = Ok true ->
  pieceAt b from_ = Pc p ->
  isOk (wouldMoveLeaveKingInCheck strict b from_ to_ c ep).
Proof.
  intros Hwf Hv Hp.
  destruct (accepted_move_boards strict b from_ to_ ep cr
              getInitialCastlingRights promoQueen p Hwf Hv Hp)
    as (S & r & HS & HwfS & _).
  unfold wouldMoveLeaveKingInCheck. rewrite HS. cbn [bind].
  by apply isKingInCheck_ok.
Qed.

Lemma isValidMove_ok b from_ to_ ep cr :
  wf_board b -> inBounds b from_ ->
  isOk (isValidMove strict b from_ to_ ep cr).
Proof.
  intros Hwf Hin. pose proof Hin as [Hfr Hfc]. unfold isValidMove.
  rewrite readCell_wf by done. cbn [bind].
  destruct (cellAt b (row from_) (col from_)) as [| |p] eqn:Hp;
    try apply isOk_Ok.
  apply isOk_bind; [by apply isValidMoveBasic_ok|].
  intros [] Hv; [|apply isOk_Ok]. cbn [negb].
  apply isOk_bind; [by eapply wouldMoveLeaveKingInCheck_ok|].
  intros [] _; apply isOk_Ok.
Qed.

Lemma isValidMove_true b from_ to_ ep cr :
  wf_board b ->
  isValidMove strict b from_ to_ ep cr = Ok true <->
  exists p, pieceAt b from_ = Pc p /\
            isValidMoveBasic strict b from_ to_ ep cr = Ok true /\
            wouldMoveLeaveKingInCheck strict b from_ to_ (color p) ep
            = Ok false.
Proof.
  intros Hwf. unfold isValidMove. split.
  - intros H. apply bind_Ok_inv in H as (pc & Hpc & H).
    destruct pc as [| |p]; try discriminate.
    apply readCell_piece in Hpc as (_ & _ & Hp); [|done].
    apply bind_Ok_inv in H as ([] & Hv & H); [|discriminate].
    apply bind_Ok_inv in H as ([] & Hk & H); [discriminate|].
    by exists p.
  - intros (p & Hp & Hv & Hk).
    destruct (isValidMoveBasic_true strict b from_ to_ ep cr Hwf Hv)
      as (_ & _ & [Hfr Hfc] & _).
    rewrite readCell_wf by done. unfold pieceAt in Hp. rewrite Hp.
    cbn [bind]. rewrite Hv. cbn [bind negb]. by rewrite Hk.
Qed.

Lemma isValidMove_true_iff b from_ to_ ep cr :
  isValidMove strict b from_ to_ ep cr = Ok true <->
  exists p S,
    readCell strict b (row from_) (col from_) = Ok (Pc p) /\
    isValidMoveBasic strict b from_ to_ ep cr = Ok true /\
    simulatedBoard strict b from_ to_ ep = Ok S /\
    isKingInCheck strict S (color p) = Ok false.
Proof.
  unfold isValidMove, wouldMoveLeaveKingInCheck. split.
  - intros H. apply bind_Ok_inv in H as (pc & Hpc & H).
    destruct pc as [| |p]; try discriminate.
    apply bind_Ok_inv in H as ([] & Hv & H); [|discriminate].
    apply bind_Ok_inv in H as ([] & Hk & H); [discriminate|].
    apply bind_Ok_inv in Hk as (S & HS & Hk). by exists p, S.
  - intros (p & S & Hp & Hv & HS & Hk).
    rewrite Hp. cbn [bind]. rewrite Hv. cbn [bind negb].
    rewrite HS. cbn [bind]. by rewrite Hk.
Qed.

Lemma getValidMoves_ok b from_ ep cr :
  wf_board b -> inBounds b from_ ->
  exists ms, getValidMoves strict b from_ ep cr = Ok ms /\
             forall t, t ∈ ms -> isValidMove strict b from_ t ep cr = Ok true.
Proof.
  intros Hwf Hin. unfold getValidMoves. rewrite allSquares_wf by done.
  cbn [bind].
  destruct (filterM_isOk
    (fun t => isValidMove strict b from_ t ep cr) (squares (length b) 9))
    as [ms Hms].
  { intros t _. by apply isValidMove_ok. }
  exists ms. split; [done|]. intros t Ht.
  by destruct (filterM_elem _ _ _ _ Hms Ht).
Qed.

Lemma getPiecesOfColor_ok b c :
  wf_board b ->
  exists ps, getPiecesOfColor strict b c = Ok ps /\
             forall pp, pp ∈ ps ->
               inBounds b (snd pp) /\ pieceAt b (snd pp) = Pc (fst pp) /\
               color (fst pp) = c.
Proof.
  intros Hwf. unfold getPiecesOfColor. rewrite allSquares_wf by done.
  cbn [bind].
  match goal with |- context [concatM ?f ?l] =>
    destruct (concatM_isOk f l) as [ps Hps] end.
  { intros q [Hr Hc]%elem_of_squares_wf. rewrite readCell_wf by done.
    cbn [bind]. destruct (cellAt _ _ _); apply isOk_Ok. }
  exists ps. split; [done|]. intros pp Hpp.
  destruct (concatM_elem _ _ _ _ Hps Hpp) as (q & h & Hq & Hh & Hin).
  apply elem_of_squares_wf in Hq. pose proof Hq as [Hr Hc].
  rewrite readCell_wf in Hh by done. cbn [bind] in Hh.
  destruct (cellAt b (row q) (col q)) as [| |pc] eqn:Hcell;
    injection Hh as <-; try by inversion Hin.
  destruct (color_eqb (color pc) c) eqn:Hcol; [|by inversion Hin].
  apply list_elem_of_singleton in Hin as ->. simpl.
  split; [done|]. split; [done|]. by apply color_eqb_eq.
Qed.

Lemma getAllLegalMoves_ok b c ep cr :
  wf_board b ->
  exists ms, getAllLegalMoves strict b c ep cr = Ok ms /\
             forall m, m ∈ ms ->
               pieceAt b (from m) = Pc (piece m) /\ color (piece m) = c /\
               isValidMove strict b (from m) (to m) ep cr = Ok true.
Proof.
  intros Hwf. unfold getAllLegalMoves.
  destruct (getPiecesOfColor_ok b c Hwf) as (ps & -> & Hps). cbn [bind].
  match goal with |- context [concatM ?f ?l] =>
    destruct (concatM_isOk f l) as [ms Hms] end.
  { intros pp Hpp. destruct (Hps pp Hpp) as (Hin & _).
    destruct (getValidMoves_ok b (snd pp) ep cr Hwf Hin) as (vm & -> & _).
    apply isOk_Ok. }
  exists ms. split; [done|]. intros m Hm.
  destruct (concatM_elem _ _ _ _ Hms Hm) as (pp & h & Hpp & Hh & Hin).
  destruct (Hps pp Hpp) as (Hb & Hpc & Hcol).
  destruct (getValidMoves_ok b (snd pp) ep cr Hwf Hb) as (vm & Hvm & Hall).
  rewrite Hvm in Hh. cbn [bind] in Hh. injection Hh as <-.
  apply list_elem_of_fmap in Hin as (t & -> & Ht). simpl. auto.
Qed.

Lemma isCheckmate_ok b c ep cr :
  wf_board b -> isOk (isCheckmate strict b c ep cr).
Proof.
  intros Hwf. unfold isCheckmate.
  apply isOk_bind; [by apply isKingInCheck_ok|].
  intros [] _; cbn [negb]; [|apply isOk_Ok].
  destruct (getAllLegalMoves_ok b c ep cr Hwf) as (ms & -> & _).
  apply isOk_Ok.
Qed.

Lemma isStalemate_ok b c ep cr :
  wf_board b -> isOk (isStalemate strict b c ep cr).
Proof.
  intros Hwf. unfold isStalemate.
  apply isOk_bind; [by apply isKingInCheck_ok|].
  intros [] _; [apply isOk_Ok|].
  destruct (getAllLegalMoves_ok b c ep cr Hwf) as (ms & -> & _).
  apply isOk_Ok.
Qed.

End Legality.

(** ** Pruning with a window: the generic loop *)

Section CutLoop.

Context {A T : Type}.
Variable le : T -> T -> bool.
Variable mx : T -> T -> T.
Variable bot : T.
Hypothesis le_total : forall a b, le a b = true \/ le b a = true.
Hypothesis le_trans :
  forall a b c, le a b = true -> le b c = true -> le a c = true.
Hypothesis le_antisym : forall a b, le a b = true -> le b a = true -> a = b.
Hypothesis mx_r : forall a b, le a b = true -> mx a b = b.
Hypothesis mx_l : forall a b, le b a = true -> mx a b = a.
Hypothesis bot_le : forall a, le bot a = true.

Lemma le_refl a : le a a = true.
Proof. by destruct (le_total a a). Qed.

Lemma lt_le a b : le b a = false -> le a b = true.
Proof. intros H. destruct (le_total a b); congruence. Qed.

Lemma le_lt_trans a b c : le a b = true -> le c b = false -> le c a = false.
Proof.
  intros Hab Hcb. destruct (le c a) eqn:Hca; [|done].
  rewrite (le_trans c a b) in Hcb; done.
Qed.

Lemma lt_le_trans a b c : le b a = false -> le b c = true -> le c a = false.
Proof.
  intros Hab Hbc. destruct (le c a) eqn:Hca; [|done].
  rewrite (le_trans b c a) in Hab; done.
Qed.

Lemma mx_ge_l a b : le a (mx a b) = true.
Proof.
  destruct (le a b) eqn:H; [by rewrite mx_r|].
  rewrite mx_l by (by apply lt_le). apply le_refl.
Qed.

Lemma mx_ge_r a b : le b (mx a b) = true.
Proof.
  destruct (le a b) eqn:H; [rewrite mx_r by done; apply le_refl|].
  rewrite mx_l by (by apply lt_le). by apply lt_le.
Qed.

Lemma mx_lub a b c : le a c = true -> le b c = true -> le (mx a b) c = true.
Proof.
  intros Ha Hb. destruct (le a b) eqn:H; [by rewrite mx_r|].
  by rewrite mx_l by (by apply lt_le).
Qed.

Lemma mx_assoc a b c : mx (mx a b) c = mx a (mx b c).
Proof.
  apply le_antisym.
  - apply mx_lub; [apply mx_lub|].
    + apply mx_ge_l.
    + eapply le_trans; [apply mx_ge_l | apply mx_ge_r].
    + eapply le_trans; [apply mx_ge_r | apply mx_ge_r].
  - apply mx_lub; [|apply mx_lub].
    + eapply le_trans; [apply mx_ge_l | apply mx_ge_l].
    + eapply le_trans; [apply mx_ge_r | apply mx_ge_l].
    + apply mx_ge_r.
Qed.

Variable child : A -> T -> T -> result T.
Variable value : A -> result T.

Lemma mapM_children ms :
  children_sound le child value ms -> exists vs, mapM value ms = Ok vs.
Proof.
  induction ms as [|m rest IH]; intros Hch; [by exists []|].
  destruct (Hch m) as (v & Hv & _); [left|].
  destruct IH as [vs Hvs]; [intros x Hx; apply Hch; by right|].
  exists (v :: vs). cbn [mapM]. by rewrite Hv, Hvs.
Qed.

Lemma cutLoop_sound ms :
  children_sound le child value ms ->
  forall best lo0 lo hi seen,
    le hi lo0 = false -> lo = mx lo0 best -> le hi lo = false ->
    (le best lo0 = true -> le seen best = true) ->
    (le best lo0 = false -> seen = best) ->
    exists vs r,
      mapM value ms = Ok vs /\
      cutLoop le mx child ms best lo hi = Ok r /\
      bounded le lo0 hi (mx seen (foldr mx bot vs)) r.
Proof.
  induction ms as [|m rest IH];
    intros Hch best lo0 lo hi seen Hwin -> Hlo Hinv1 Hinv2.
  - exists [], best. split; [done|]. split; [done|].
    simpl. rewrite mx_l by apply bot_le.
    split; [exact Hinv1|]. split; [|by intros ? _; apply Hinv2].
    intros Hhi. pose proof (le_lt_trans _ _ _ (mx_ge_r lo0 best) Hlo).
    congruence.
  - destruct (Hch m) as (v & Hv & Hc); [left|].
    destruct (Hc _ _ Hlo) as (r & Hr & Hb1 & Hb2 & Hb3).
    assert (children_sound le child value rest) as Hrest
      by (intros x Hx; apply Hch; by right).
    assert (le seen best = true) as Hsb.
    { destruct (le best lo0) eqn:Hbl; [by apply Hinv1|].
      rewrite Hinv2 by done. apply le_refl. }
    assert (le best (mx lo0 best) = true) as Hbest by apply mx_ge_r.
    cbn [mapM cutLoop]. rewrite Hv, Hr. cbn [bind].
    destruct (le hi (mx (mx lo0 best) r)) eqn:Hcut.
    + (* cutoff: the child reached [hi] *)
      assert (le hi r = true) as Hhr.
      { destruct (le (mx lo0 best) r) eqn:Hmr; [by rewrite mx_r in Hcut|].
        rewrite mx_l in Hcut by (by apply lt_le). congruence. }
      assert (le best r = true) as Hbr.
      { eapply le_trans; [exact Hbest|]. eapply le_trans; [|exact Hhr].
        by apply lt_le. }
      destruct (mapM_children rest Hrest) as [vs Hvs].
      exists (v :: vs), r. rewrite Hvs. cbn [bind]. split; [done|].
      rewrite (mx_r best r) by done. split; [done|].
      assert (le lo0 r = true /\ le r lo0 = false) as [Hl1 Hl2].
      { split.
        - eapply le_trans; [|exact Hhr]. by apply lt_le.
        - eapply lt_le_trans; [exact Hwin | exact Hhr]. }
      split; [congruence|]. split; [|congruence].
      intros _. cbn [foldr].
      eapply le_trans; [by apply Hb2|].
      eapply le_trans; [apply mx_ge_l | apply mx_ge_r].
    + (* no cutoff: the loop goes on *)
      destruct (IH Hrest (mx best r) lo0 (mx (mx lo0 best) r) hi (mx seen v))
        as (vs & res & Hvs & Hres & Hbd).
      * done.
      * apply mx_assoc.
      * done.
      * (* the running best did not pass [lo0] *)
        intros Hle.
        assert (le best lo0 = true) as Hbl
          by (eapply le_trans; [apply mx_ge_l | exact Hle]).
        assert (le r lo0 = true) as Hrl
          by (eapply le_trans; [apply mx_ge_r | exact Hle]).
        assert (le r (mx lo0 best) = true) as Hrm
          by (eapply le_trans; [exact Hrl | apply mx_ge_l]).
        apply mx_lub.
        -- eapply le_trans; [exact Hsb | apply mx_ge_l].
        -- eapply le_trans; [by apply Hb1 | apply mx_ge_r].
      * (* the running best passed [lo0] *)
        intros Hgt.
        destruct (le r (mx lo0 best)) eqn:Hrm.
        -- (* the child stayed below the raised bound *)
           destruct (le best lo0) eqn:Hbl.
           ++ rewrite (mx_l lo0 best) in Hrm by done.
              rewrite (mx_lub best r lo0) in Hgt; done.
           ++ rewrite (mx_r lo0 best) in Hrm by (by apply lt_le).
              rewrite (mx_l best r) by done.
              rewrite Hinv2 by done. apply mx_l.
              eapply le_trans; [by apply Hb1 | done].
        -- (* the child landed inside the window *)
           assert (le hi r = false) as Hhr
             by (eapply le_lt_trans; [apply mx_ge_r | exact Hcut]).
           rewrite (Hb3 eq_refl Hhr).
           assert (le best r = true) as Hbr.
           { eapply le_trans; [exact Hbest|]. by apply lt_le. }
           rewrite (mx_r best r) by done. apply mx_r.
           by eapply le_trans.
      * exists (v :: vs), res. rewrite Hvs. cbn [bind foldr].
        split; [done|]. split; [done|]. by rewrite <- mx_assoc.
Qed.

End CutLoop.

(** ** The search *)

Section SearchFacts.

Variable strict : bool.
Variable flt : Type.
Variables fadd fmul : flt -> flt -> flt.
Variable fneg : flt -> flt.
Variable fofZ : Z -> flt.
Variables f0_1 f0_05 f0_5 : flt.
Variable fleb : flt -> flt -> bool.

Hypothesis fleb_total : forall x y, fleb x y = true \/ fleb y x = true.
Hypothesis fleb_trans :
  forall x y z, fleb x y = true -> fleb y z = true -> fleb x z = true.
Hypothesis fleb_antisym :
  forall x y, fleb x y = true -> fleb y x = true -> x = y.

Abbreviation sle := (sleb flt fleb).
Abbreviation sge := (fun a b => sleb flt fleb b a).
Abbreviation smaxf := (smax flt fleb).
Abbreviation sminf := (smin flt fleb).

Lemma sleb_total a b : sle a b = true \/ sle b a = true.
Proof. destruct a, b; simpl; auto. Qed.

Lemma sleb_trans a b c : sle a b = true -> sle b c = true -> sle a c = true.
Proof. destruct a, b, c; simpl; try done. apply fleb_trans. Qed.

Lemma sleb_antisym a b : sle a b = true -> sle b a = true -> a = b.
Proof.
  destruct a, b; simpl; try done. intros H1 H2. f_equal.
  by apply fleb_antisym.
Qed.

Lemma smax_r a b : sle a b = true -> smaxf a b = b.
Proof. unfold smax. by intros ->. Qed.

Lemma smax_l a b : sle b a = true -> smaxf a b = a.
Proof.
  unfold smax. intros H. destruct (sle a b) eqn:Hab; [|done].
  by apply sleb_antisym.
Qed.

Lemma smin_l a b : sle a b = true -> sminf a b = a.
Proof. unfold smin. by intros ->. Qed.

Lemma smin_r a b : sle b a = true -> sminf a b = b.
Proof.
  unfold smin. intros H. destruct (sle a b) eqn:Hab; [|done].
  by apply sleb_antisym.
Qed.

Lemma sge_total a b : sge a b = true \/ sge b a = true.
Proof. apply sleb_total. Qed.

Lemma sge_trans a b c : sge a b = true -> sge b c = true -> sge a c = true.
Proof. simpl. intros H1 H2. exact (sleb_trans _ _ _ H2 H1). Qed.

Lemma sge_antisym a b : sge a b = true -> sge b a = true -> a = b.
Proof. simpl. intros H1 H2. exact (sleb_antisym _ _ H2 H1). Qed.

Lemma bounded_flip lo hi v r :
  bounded sge hi lo v r <-> bounded sle lo hi v r.
Proof. unfold bounded. simpl. tauto. Qed.

Abbreviation evaluate :=
  (evaluateBoard strict flt fadd fmul fneg fofZ f0_1 f0_05).
Abbreviation search :=
  (minimax strict flt fadd fmul fneg fofZ f0_1 f0_05 fleb).
Abbreviation reference :=
  (bruteForceMinimax strict flt fadd fmul fneg fofZ f0_1 f0_05 fleb).

Lemma scoreSquares_ok b centerRow centerCol sq score :
  wf_board b -> (forall p, p ∈ sq -> inBounds b p) ->
  isOk (scoreSquares strict flt fadd fmul fneg fofZ f0_1 f0_05
          b centerRow centerCol sq score).
Proof.
  intros Hwf. revert score.
  induction sq as [|p sq IH]; intros score Hin; simpl; [apply isOk_Ok|].
  destruct (Hin p) as [Hr Hc]; [left|].
  rewrite readCell_wf by done. cbn [bind].
  apply IH. intros q Hq. apply Hin. by right.
Qed.

Lemma evaluateBoard_ok b ep cr : wf_board b -> isOk (evaluate b ep cr).
Proof.
  intros Hwf. unfold evaluateBoard. rewrite boardCols_wf by done.
  cbn [bind].
  apply isOk_bind; [by apply isCheckmate_ok|]. intros [] _; [apply isOk_Ok|].
  apply isOk_bind; [by apply isCheckmate_ok|]. intros [] _; [apply isOk_Ok|].
  apply isOk_bind; [by apply isKingInCheck_ok|]. intros chkW _.
  apply isOk_bind; [by apply isKingInCheck_ok|]. intros chkB _.
  apply scoreSquares_ok; [done|].
  intros p Hp. by apply elem_of_squares_wf.
Qed.

Lemma maxLoop_cut rec b ep cr ms best alpha beta :
  maxLoop strict flt fleb rec b ep cr ms best alpha beta =
  cutLoop sle smaxf (maxChild strict flt rec b ep cr) ms best alpha beta.
Proof.
  revert best alpha. induction ms as [|m ms IH]; intros best alpha; [done|].
  cbn [maxLoop cutLoop]. unfold maxChild at 1.
  destruct (executeMove _ _ _ _ _ _ _) as [res|e]; [|done]. cbn [bind].
  destruct (rec _ _ _ _ _ _) as [r|e]; [|done]. cbn [bind].
  destruct (sle _ _); [done|]. apply IH.
Qed.

Lemma minLoop_cut rec b ep cr ms best alpha beta :
  minLoop strict flt fleb rec b ep cr ms best alpha beta =
  cutLoop sge sminf (minChild strict flt rec b ep cr) ms best beta alpha.
Proof.
  revert best beta. induction ms as [|m ms IH]; intros best beta; [done|].
  cbn [minLoop cutLoop]. unfold minChild at 1.
  destruct (executeMove _ _ _ _ _ _ _) as [res|e]; [|done]. cbn [bind].
  destruct (rec _ _ _ _ _ _) as [r|e]; [|done]. cbn [bind].
  destruct (sle _ _); [done|]. apply IH.
Qed.

Lemma bounded_exact lo hi v : bounded sle lo hi v v.
Proof.
  assert (sle v v = true) by (by destruct (sleb_total v v)).
  unfold bounded. tauto.
Qed.

(** A legal move can be executed, and leads to a well-formed board. *)
Lemma executeMove_legal b c ep cr cr0 ms m :
  wf_board b ->
  getAllMoves strict b c ep cr = Ok ms -> m ∈ ms ->
  exists res, executeMove strict b (from m) (to m) cr0 ep promoQueen = Ok res
              /\ wf_board (newBoard res).
Proof.
  intros Hwf Hms Hm.
  destruct (getAllLegalMoves_ok strict b c ep cr Hwf) as (ms' & Hms' & Hall).
  unfold getAllMoves in Hms. rewrite Hms in Hms'. injection Hms' as <-.
  destruct (Hall m Hm) as (Hp & _ & Hv).
  apply isValidMove_true in Hv as (p & Hp' & Hv & _); [|done].
  destruct (accepted_move_boards strict b (from m) (to m) ep cr cr0
              promoQueen p Hwf Hv Hp') as (S & res & _ & _ & Hres & Hwf' & _).
  by exists res.
Qed.

Lemma minimax_bounded n :
  forall b isMaximizing ep cr alpha beta,
    wf_board b -> sle beta alpha = false ->
    exists v r,
      reference n b isMaximizing ep cr = Ok v /\
      search n b alpha beta isMaximizing ep cr = Ok r /\
      bounded sle alpha beta v r.
Proof.
  induction n as [|n IH]; intros b isMaximizing ep cr alpha beta Hwf Hwin.
  - cbn [minimax bruteForceMinimax].
    destruct (evaluateBoard_ok b ep (Some cr) Hwf) as [v ->]. cbn [bind].
    exists (Fin v), (Fin v). split; [done|]. split; [done|].
    apply bounded_exact.
  - cbn [minimax bruteForceMinimax].
    set (c := if isMaximizing then black else white).
    destruct (isCheckmate_ok strict b c ep (Some cr) Hwf) as [mate ->].
    cbn [bind]. destruct mate.
    { eexists _, _. split; [done|]. split; [done|]. apply bounded_exact. }
    destruct (getAllLegalMoves_ok strict b c ep (Some cr) Hwf)
      as (ms & Hms & _).
    unfold getAllMoves. rewrite Hms. cbn [bind].
    destruct (isEmptyList ms).
    { eexists _, _. split; [done|]. split; [done|]. apply bounded_exact. }
    assert (forall m, m ∈ ms ->
      exists res,
        executeMove strict b (from m) (to m) cr ep promoQueen = Ok res /\
        wf_board (newBoard res)) as Hexec.
    { intros m Hm. by eapply executeMove_legal. }
    destruct isMaximizing; cbn [negb].
    + rewrite maxLoop_cut.
      destruct (cutLoop_sound sle smaxf NegInf
                  sleb_total sleb_trans sleb_antisym smax_r smax_l
                  (fun a => eq_refl)
                  (maxChild strict flt (search n) b ep cr)
                  (fun move =>
                     do result <- executeMove strict b (from move) (to move)
                                    cr ep promoQueen ;;
                     reference n (newBoard result) false
                       (newEnPassantTarget result) (newCastlingRights result))
                  ms) with (best := NegInf (flt:=flt)) (lo0 := alpha)
                  (lo := alpha) (hi := beta) (seen := NegInf (flt:=flt))
        as (vs & r & Hvs & Hr & Hbd).
      * intros m Hm. destruct (Hexec m Hm) as (res & Hres & Hwf').
        unfold maxChild. rewrite Hres. cbn [bind].
        destruct (IH (newBoard res) false (newEnPassantTarget res)
                    (newCastlingRights res) NegInf PosInf Hwf' eq_refl)
          as (v & _ & Hv & _).
        exists v. split; [done|]. intros lo hi Hlt.
        destruct (IH (newBoard res) false (newEnPassantTarget res)
                    (newCastlingRights res) lo hi Hwf' Hlt)
          as (v' & r & Hv' & Hr & Hbd).
        exists r. split; [done|]. congruence.
      * done.
      * by rewrite smax_l.
      * done.
      * done.
      * done.
      * rewrite Hvs. cbn [bind]. rewrite Hr.
        exists (foldr smaxf NegInf vs), r. split; [done|]. split; [done|].
        by rewrite smax_r in Hbd.
    + rewrite minLoop_cut.
      destruct (cutLoop_sound sge sminf PosInf
                  sge_total sge_trans sge_antisym smin_r smin_l
                  (fun a => match a with NegInf | Fin _ | PosInf => eq_refl end)
                  (minChild strict flt (search n) b ep cr)
                  (fun move =>
                     do result <- executeMove strict b (from move) (to move)
                                    cr ep promoQueen ;;
                     reference n (newBoard result) true
                       (newEnPassantTarget result) (newCastlingRights result))
                  ms) with (best := PosInf (flt:=flt)) (lo0 := beta)
                  (lo := beta) (hi := alpha) (seen := PosInf (flt:=flt))
        as (vs & r & Hvs & Hr & Hbd).
      * intros m Hm. destruct (Hexec m Hm) as (res & Hres & Hwf').
        unfold minChild. rewrite Hres. cbn [bind].
        destruct (IH (newBoard res) true (newEnPassantTarget res)
                    (newCastlingRights res) NegInf PosInf Hwf' eq_refl)
          as (v & _ & Hv & _).
        exists v. split; [done|]. intros lo hi Hlt.
        destruct (IH (newBoard res) true (newEnPassantTarget res)
                    (newCastlingRights res) hi lo Hwf' Hlt)
          as (v' & r & Hv' & Hr & Hbd).
        exists r. split; [done|]. apply bounded_flip. congruence.
      * done.
      * by rewrite smin_l by (by destruct beta).
      * done.
      * by destruct beta.
      * by destruct beta.
      * rewrite Hvs. cbn [bind]. rewrite Hr.
        exists (foldr sminf PosInf vs), r. split; [done|]. split; [done|].
        apply bounded_flip. by rewrite smin_r in Hbd by (by destruct (foldr _ _ _)).
Qed.

Lemma aiLoop_random difficulty b ep cr random1 random2 moves :
  (forall i, random1 i = random2 i) ->
  forall i bestMove bestScore,
    aiLoop strict flt fadd fmul fneg fofZ f0_1 f0_05 f0_5 fleb
      difficulty b ep cr random1 i moves bestMove bestScore =
    aiLoop strict flt fadd fmul fneg fofZ f0_1 f0_05 f0_5 fleb
      difficulty b ep cr random2 i moves bestMove bestScore.
Proof.
  intros Hrandom. induction moves as [|m moves IH];
    intros i bestMove bestScore; [done|].
  cbn [aiLoop]. rewrite Hrandom.
  destruct (executeMove _ _ _ _ _ _ _) as [res|e]; [|done]. cbn [bind].
  destruct (search _ _ _ _ _ _ _) as [sc|e]; [|done]. cbn [bind].
  by rewrite !IH.
Qed.

(** C9.  On a board of the game and for every depth, the search with
    the window from minus infinity to plus infinity returns a value,
    and it is the value of the reference minimax that expands every
    move and never prunes.  The move chosen by [getAIMove] depends on
    the random numbers only: with the same numbers it is the same
    move.  The numbers of the scores are any type with a total order
    [fleb]. *)
Theorem minimax_matches_brute_force n b isMaximizing ep cr :
  wf_board b ->
  (exists v,
     search n b NegInf PosInf isMaximizing ep cr = Ok v /\
     reference n b isMaximizing ep cr = Ok v) /\
  (forall difficulty random1 random2,
     (forall i, random1 i = random2 i) ->
     getAIMove strict flt fadd fmul fneg fofZ f0_1 f0_05 f0_5 fleb
       b difficulty ep cr random1 =
     getAIMove strict flt fadd fmul fneg fofZ f0_1 f0_05 f0_5 fleb
       b difficulty ep cr random2).
Proof.
  intros Hwf. split.
  - destruct (minimax_bounded n b isMaximizing ep cr NegInf PosInf Hwf
                eq_refl) as (v & r & Hv & Hr & Hb1 & Hb2 & Hb3).
    exists r. split; [done|]. rewrite Hv. f_equal.
    destruct r as [|x|].
    + apply sleb_antisym; [by apply Hb1 | done].
    + by apply Hb3.
    + apply sleb_antisym; [by destruct v | by apply Hb2].
  - intros difficulty random1 random2 Hrandom. unfold getAIMove.
    destruct (getAllMoves _ _ _ _ _) as [[|m0 ms]|e]; try done.
    cbn [bind]. by rewrite (aiLoop_random _ _ _ _ random1 random2).
Qed.

End SearchFacts.

(** ** Castling rights and en passant target after a move *)

Lemma rookGone_right rows c kingside x sq cr :
  rightFor c kingside (rookGone rows x sq cr) =
  rightFor c kingside cr &&
  negb (isRookOf c x &&
        pos_eqb sq (mkPos (match c with white => rows - 1 | black => 0 end)
                          (rookFromCol kingside))).
Proof.
  destruct x as [| |[t pc]]; simpl; try by rewrite andb_true_r.
  destruct t; simpl; try by rewrite andb_true_r.
  unfold pos_eqb, rookFromCol. simpl.
  destruct pc, c, kingside, cr as [wk wq bk bq]; simpl;
    repeat match goal with
    | |- context [Z.eqb ?a ?b] => destruct (Z.eqb_spec a b)
    end; simpl; try lia; by rewrite ?andb_true_r, ?andb_false_r.
Qed.

Lemma kingMoved_right c kingside p cr :
  rightFor c kingside (kingMoved p cr) =
  rightFor c kingside cr && negb (isKingOf c (Pc p)).
Proof.
  destruct p as [t pc]. unfold kingMoved. simpl.
  destruct t, pc, c, kingside; simpl; by rewrite ?andb_true_r, ?andb_false_r.
Qed.

Section Execution.

Variable strict : bool.

Lemma executeMove_fields b from_ to_ cr ep promo p r :
  readCell strict b (row from_) (col from_) = Ok (Pc p) ->
  executeMove strict b from_ to_ cr ep promo = Ok r ->
  newCastlingRights r =
    rookGone (boardRows b) (captured r) to_
      (rookGone (boardRows b) (Pc p) from_ (kingMoved p cr)) /\
  newEnPassantTarget r =
    (if type_eqb (type p) pawn && (Z.abs (row to_ - row from_) =? 2)
     then Some (mkPos (epRow (color p) to_) (col to_)) else None).
Proof.
  intros Hp H. unfold executeMove in H. rewrite Hp in H. cbn [bind] in H.
  repeat (apply bind_Ok_inv in H as (? & _ & H)).
  injection H as <-. done.
Qed.

Lemma executeMove_captured b from_ to_ cr ep promo p r :
  readCell strict b (row from_) (col from_) = Ok (Pc p) ->
  executeMove strict b from_ to_ cr ep promo = Ok r ->
  isSpecial enPassant (specialMove r) = false ->
  readCell strict b (row to_) (col to_) = Ok (captured r).
Proof.
  intros Hp H. unfold executeMove in H. rewrite Hp in H. cbn [bind] in H.
  apply bind_Ok_inv in H as (taken & Htaken & H).
  apply bind_Ok_inv in H as (special & _ & H).
  apply bind_Ok_inv in H as (cn & Hcn & H).
  repeat (apply bind_Ok_inv in H as (? & _ & H)).
  injection H as <-. cbn [specialMove captured]. intros Hs.
  rewrite Hs in Hcn. by injection Hcn as <-.
Qed.

Lemma executeMove_no_piece b from_ to_ cr ep promo x :
  readCell strict b (row from_) (col from_) = Ok x -> isPiece x = false ->
  executeMove strict b from_ to_ cr ep promo
  = Ok (mkResult b Null None cr None).
Proof. intros Hx Hn. unfold executeMove. rewrite Hx. by destruct x. Qed.

End Execution.

(** ** Concrete positions *)

Example initial9x8_wf : wf_board initial9x8.
Proof. reflexivity. Qed.

Example getAllLegalMoves_initial :
  length <$> (match getAllLegalMoves false initial9x8 white None
                      (Some getInitialCastlingRights) with
              | Ok l => Some l | Err _ => None end) = Some 22%nat.
Proof. vm_compute. reflexivity. Qed.

Example isFiftyMoveRule_threshold :
  isFiftyMoveRule 99 = false /\ isFiftyMoveRule 100 = true.
Proof. split; reflexivity. Qed.

Example isThreefoldRepetition_third :
  isThreefoldRepetition ["a"; "b"; "a"] "a" = true /\
  isThreefoldRepetition ["a"; "b"] "a" = false.
Proof. split; reflexivity. Qed.

Example isInsufficientMaterial_examples :
  isInsufficientMaterial false
    (boardOf 8 [ (7, 4, mkPiece king white);
                 (0, 4, mkPiece king black) ]%nat) = Ok true /\
  isInsufficientMaterial false
    (boardOf 8 [ (7, 4, mkPiece king white); (7, 2, mkPiece bishop white);
                 (0, 4, mkPiece king black) ]%nat) = Ok true /\
  isInsufficientMaterial false
    (boardOf 8 [ (7, 4, mkPiece king white); (7, 1, mkPiece knight white);
                 (0, 4, mkPiece king black);
                 (0, 1, mkPiece knight black) ]%nat) = Ok false /\
  isInsufficientMaterial false
    (boardOf 8 [ (7, 4, mkPiece king white); (7, 2, mkPiece bishop white);
                 (0, 4, mkPiece king black);
                 (0, 1, mkPiece bishop black) ]%nat) = Ok true /\
  isInsufficientMaterial false
    (boardOf 8 [ (7, 4, mkPiece king white); (7, 2, mkPiece bishop white);
                 (0, 4, mkPiece king black);
                 (0, 2, mkPiece bishop black) ]%nat) = Ok false.
Proof. vm_compute. repeat split. Qed.

(** ** Draw detection on a well-formed board *)

Section Draw.

Variable strict : bool.

Lemma gridSquares_wf b : wf_board b -> gridSquares b = squares (length b) 9.
Proof.
  intros Hwf. destruct b as [|r0 b]; [discriminate|]. simpl.
  by destruct (wf_board_row (r0 :: b) 0 r0 Hwf eq_refl) as [-> _].
Qed.

Lemma hashSquares_ok b sq hash :
  wf_board b -> (forall p, p ∈ sq -> inBounds b p) ->
  isOk (hashSquares strict b sq hash).
Proof.
  intros Hwf. revert hash.
  induction sq as [|p sq IH]; intros hash Hin; simpl; [apply isOk_Ok|].
  destruct (Hin p) as [Hr Hc]; [left|].
  rewrite readCell_wf by done. cbn [bind].
  apply IH. intros q Hq. apply Hin. by right.
Qed.

Lemma getBoardPositionHash_ok b c cr ep :
  wf_board b -> isOk (getBoardPositionHash strict b c cr ep).
Proof.
  intros Hwf. unfold getBoardPositionHash.
  destruct (hashSquares_ok b (gridSquares b) "" Hwf) as [h ->].
  { intros p. rewrite gridSquares_wf by done. apply elem_of_squares_wf. }
  apply isOk_Ok.
Qed.

Lemma isInsufficientMaterial_ok b :
  wf_board b -> isOk (isInsufficientMaterial strict b).
Proof.
  intros Hwf. unfold isInsufficientMaterial, collectPieces.
  apply isOk_bind; [|intros; apply isOk_Ok].
  apply concatM_isOk. intros p. rewrite gridSquares_wf by done.
  intros [Hr Hc]%elem_of_squares_wf. rewrite readCell_wf by done.
  cbn [bind]. destruct (cellAt _ _ _); apply isOk_Ok.
Qed.

Lemma isThreefoldRepetition_count history current :
  isThreefoldRepetition history current =
  bool_decide (2 <= count_occ String.string_dec history current)%nat.
Proof.
  unfold isThreefoldRepetition.
  assert (length (filter (fun pos => pos = current) history)
          = count_occ String.string_dec history current) as ->.
  { induction history as [|h history IH]; [done|].
    rewrite filter_cons. simpl.
    destruct (decide (h = current)), (String.string_dec h current);
      simpl; congruence. }
  destruct (Nat.leb_spec 2 (count_occ String.string_dec history current));
    symmetry; [apply bool_decide_eq_true | apply bool_decide_eq_false]; lia.
Qed.

End Draw.

Lemma insufficient_two_kings pieces :
  length (List.filter (hasType king) pieces) = 2%nat ->
  insufficientPieces pieces = insufficientSpec pieces.
Proof.
  intros Hk. unfold insufficientPieces, insufficientSpec. rewrite Hk.
  destruct pieces as [|[[t1 ?] ?] [|[[t2 ?] ?] [|[[t3 ?] ?] [|? [|? ?]]]]];
    try done.
  - destruct t1, t2; done.
  - destruct t1, t2, t3; done.
  - simpl length. cbn [Nat.eqb orb andb].
    by destruct (List.filter (hasType bishop) _) as [|? [|? [|? ?]]].
Qed.

(** ** The fuel of [isPathClear] is never exhausted *)

Section Fuel.

Variable strict : bool.

Lemma readCell_Ok_row b r c x :
  readCell strict b r c = Ok x -> 0 <= r < boardRows b.
Proof.
  unfold readCell. destruct (rowAt b r) as [rw|] eqn:Hrw.
  - intros _. by eapply rowAt_inv.
  - unfold noRow. discriminate.
Qed.

Lemma rowsLeft_nonneg b rowDir currentRow : 0 <= rowsLeft b rowDir currentRow.
Proof.
  unfold rowsLeft.
  destruct (Z.ltb_spec currentRow 0), (Z.leb_spec (boardRows b) currentRow),
    (rowDir =? 1); simpl; lia.
Qed.

Lemma isPathClear_loop_rows b to_ rowDir colDir :
  rowDir = 1 \/ rowDir = -1 ->
  forall fuel cr cc,
    rowsLeft b rowDir cr < Z.of_nat fuel ->
    isPathClear_loop strict fuel b rowDir colDir cr cc to_ <> Err OutOfFuel.
Proof.
  intros Hdir. induction fuel as [|fuel IH]; intros cr cc Hfuel.
  - pose proof (rowsLeft_nonneg b rowDir cr). lia.
  - simpl. destruct (negb _ || negb _); [|done].
    destruct (readCell strict b cr cc) as [x|e] eqn:Hread.
    + cbn [bind]. destruct (negb _); [done|]. apply IH.
      apply readCell_Ok_row in Hread. unfold rowsLeft in *.
      destruct Hdir as [-> | ->]; simpl in *;
        repeat match goal with
        | |- context [Z.ltb ?a ?b] => destruct (Z.ltb_spec a b)
        | |- context [Z.leb ?a ?b] => destruct (Z.leb_spec a b)
        | H : context [Z.ltb ?a ?b] |- _ => destruct (Z.ltb_spec a b)
        | H : context [Z.leb ?a ?b] |- _ => destruct (Z.leb_spec a b)
        end; simpl in *; lia.
    + cbn [bind]. unfold readCell, noRow in Hread.
      destruct (rowAt b cr); [destruct (elemAt _ _)|];
        destruct strict; congruence.
Qed.

Lemma isPathClear_loop_cols b to_ colDir :
  forall fuel cr cc,
    cr = row to_ ->
    cc = col to_ \/ colDir = Z.sgn (col to_ - cc) ->
    Z.abs (col to_ - cc) < Z.of_nat fuel ->
    isPathClear_loop strict fuel b 0 colDir cr cc to_ <> Err OutOfFuel.
Proof.
  induction fuel as [|fuel IH]; intros cr cc -> Hdir Hfuel; [lia|].
  simpl. rewrite Z.eqb_refl. simpl.
  destruct (Z.eqb_spec cc (col to_)) as [->|Hne]; [done|]. simpl.
  destruct (readCell strict b (row to_) cc) as [x|e] eqn:Hread.
  - cbn [bind]. destruct (negb _); [done|].
    destruct Hdir as [?| ->]; [done|].
    replace (row to_ + 0) with (row to_) by lia.
    apply IH; [done | |];
      destruct (sgn_cases (col to_ - cc)) as [[? ->]|[[? ->]|[? ->]]];
      destruct (sgn_cases (col to_ - (cc + -1))) as [[? ?]|[[? ?]|[? ?]]];
      destruct (sgn_cases (col to_ - (cc + 1))) as [[? ?]|[[? ?]|[? ?]]];
      lia.
  - cbn [bind]. unfold readCell, noRow in Hread.
    destruct (rowAt b (row to_)); [destruct (elemAt _ _)|];
      destruct strict; congruence.
Qed.

Lemma isPathClear_fuel b from_ to_ :
  isPathClear strict b from_ to_ <> Err OutOfFuel.
Proof.
  unfold isPathClear.
  destruct (sgn_cases (row to_ - row from_)) as [[? Hs]|[[? Hs]|[? Hs]]];
    rewrite Hs.
  - apply isPathClear_loop_rows; [by right|]. unfold rowsLeft, boardRows.
    destruct (_ || _) eqn:Hb; [lia|]. simpl. lia.
  - destruct (sgn_cases (col to_ - col from_)) as [[? Hc]|[[? Hc]|[? Hc]]];
      rewrite Hc; (apply isPathClear_loop_cols; [lia | | lia]).
    + destruct (decide (col from_ + -1 = col to_)); [by left | right].
      symmetry. apply Z.sgn_neg. lia.
    + left. lia.
    + destruct (decide (col from_ + 1 = col to_)); [by left | right].
      symmetry. apply Z.sgn_pos. lia.
  - apply isPathClear_loop_rows; [by left|]. unfold rowsLeft, boardRows.
    destruct (_ || _) eqn:Hb; [lia|]. simpl. lia.
Qed.

End Fuel.

(** ** A run that stays in bounds is the JavaScript run *)

Lemma agrees_refl {A} (m : result A) : agrees m m.
Proof. by intros v. Qed.

Lemma agrees_bind {A B} (m1 m2 : result A) (k1 k2 : A -> result B) :
  agrees m1 m2 -> (forall a, agrees (k1 a) (k2 a)) ->
  agrees (bind m1 k1) (bind m2 k2).
Proof.
  intros Hm Hk v H. apply bind_Ok_inv in H as (a & Ha & H).
  rewrite (Hm a Ha). by apply Hk.
Qed.

Lemma existsM_agrees {A} (f g : A -> result bool) l :
  (forall x, agrees (f x) (g x)) -> agrees (existsM f l) (existsM g l).
Proof.
  intros H. induction l as [|x l IH]; simpl; [apply agrees_refl|].
  apply agrees_bind; [done|]. intros []; [apply agrees_refl | done].
Qed.

Lemma findM_agrees {A} (f g : A -> result bool) l :
  (forall x, agrees (f x) (g x)) -> agrees (findM f l) (findM g l).
Proof.
  intros H. induction l as [|x l IH]; simpl; [apply agrees_refl|].
  apply agrees_bind; [done|]. intros []; [apply agrees_refl | done].
Qed.

Lemma readCell_agrees b r c : agrees (readCell true b r c) (readCell false b r c).
Proof.
  intros v. unfold readCell, noRow.
  destruct (rowAt b r); [destruct (elemAt _ _)|]; done.
Qed.

Lemma writeCell_agrees b r c x :
  agrees (writeCell true b r c x) (writeCell false b r c x).
Proof.
  intros v. unfold writeCell, noRow.
  destruct (rowAt b r); [|done]. destruct (c <? 0); [done|].
  by destruct (c <? _).
Qed.

Lemma boardCols_agrees b : agrees (boardCols true b) (boardCols false b).
Proof. intros v. by destruct b. Qed.

Create HintDb agree.
#[local] Hint Resolve readCell_agrees writeCell_agrees boardCols_agrees : agree.

Ltac agree :=
  repeat match goal with
  | |- agrees ?m ?m => apply agrees_refl
  | |- agrees (bind _ _) (bind _ _) => apply agrees_bind; [|intros ?]
  | |- agrees (existsM _ _) (existsM _ _) => apply existsM_agrees; intros ?
  | |- agrees (findM _ _) (findM _ _) => apply findM_agrees; intros ?
  | |- agrees (if ?c then _ else _) (if ?c then _ else _) => destruct c
  | |- agrees (match ?x with _ => _ end) (match ?x with _ => _ end) =>
      destruct x
  | |- agrees _ _ => solve [auto with agree]
  end.

Lemma isPathClear_loop_agrees fuel b rowDir colDir cr cc to_ :
  agrees (isPathClear_loop true fuel b rowDir colDir cr cc to_)
         (isPathClear_loop false fuel b rowDir colDir cr cc to_).
Proof.
  revert cr cc. induction fuel as [|fuel IH]; intros cr cc; simpl; agree.
Qed.

Lemma isPathClear_agrees b from_ to_ :
  agrees (isPathClear true b from_ to_) (isPathClear false b from_ to_).
Proof. apply isPathClear_loop_agrees. Qed.

#[local] Hint Resolve isPathClear_agrees : agree.

Lemma isValidMoveBasicForAttack_agrees b from_ to_ :
  agrees (isValidMoveBasicForAttack true b from_ to_)
         (isValidMoveBasicForAttack false b from_ to_).
Proof. unfold isValidMoveBasicForAttack. agree. Qed.

#[local] Hint Resolve isValidMoveBasicForAttack_agrees : agree.

Lemma allSquares_agrees b : agrees (allSquares true b) (allSquares false b).
Proof. unfold allSquares. agree. Qed.

#[local] Hint Resolve allSquares_agrees : agree.

Lemma findKingPosition_agrees b c :
  agrees (findKingPosition true b c) (findKingPosition false b c).
Proof. unfold findKingPosition. agree. Qed.

Lemma isSquareUnderAttack_agrees b p c :
  agrees (isSquareUnderAttack true b p c) (isSquareUnderAttack false b p c).
Proof. unfold isSquareUnderAttack. agree. Qed.

#[local] Hint Resolve findKingPosition_agrees isSquareUnderAttack_agrees
  : agree.

Lemma isKingInCheck_agrees b c :
  agrees (isKingInCheck true b c) (isKingInCheck false b c).
Proof. unfold isKingInCheck. agree. Qed.

#[local] Hint Resolve isKingInCheck_agrees : agree.

Lemma canCastle_agrees b from_ to_ c cr :
  agrees (canCastle true b from_ to_ c cr) (canCastle false b from_ to_ c cr).
Proof. unfold canCastle. agree. Qed.

#[local] Hint Resolve canCastle_agrees : agree.

Lemma isValidMoveBasic_agrees b from_ to_ ep cr :
  agrees (isValidMoveBasic true b from_ to_ ep cr)
         (isValidMoveBasic false b from_ to_ ep cr).
Proof. unfold isValidMoveBasic. agree. Qed.

Lemma simulatedBoard_agrees b from_ to_ ep :
  agrees (simulatedBoard true b from_ to_ ep)
         (simulatedBoard false b from_ to_ ep).
Proof. unfold simulatedBoard. agree. Qed.

#[local] Hint Resolve isValidMoveBasic_agrees simulatedBoard_agrees : agree.

Lemma wouldMoveLeaveKingInCheck_agrees b from_ to_ c ep :
  agrees (wouldMoveLeaveKingInCheck true b from_ to_ c ep)
         (wouldMoveLeaveKingInCheck false b from_ to_ c ep).
Proof. unfold wouldMoveLeaveKingInCheck. agree. Qed.

#[local] Hint Resolve wouldMoveLeaveKingInCheck_agrees : agree.

Lemma isValidMove_agrees b from_ to_ ep cr :
  agrees (isValidMove true b from_ to_ ep cr)
         (isValidMove false b from_ to_ ep cr).
Proof. unfold isValidMove. agree. Qed.

(** * The claims *)

(** C1.  [isValidMove] returns [true] exactly when a piece stands on the
    source square, [isValidMoveBasic] holds and the king of the mover is
    not in check on the simulated board (the clone with the move
    applied, the pawn captured en passant removed and the castling rook
    relocated).  On a board of the game it returns a boolean for every
    source square of the board, and for every move it accepts
    [executeMove] returns a board on which [isKingInCheck] is false for
    the colour of the mover, whatever the castling rights and promotion
    choice it is given. *)
Theorem isValidMove_legality strict b from_ to_ ep cr :
  (isValidMove strict b from_ to_ ep cr = Ok true <->
   exists p S,
     readCell strict b (row from_) (col from_) = Ok (Pc p) /\
     isValidMoveBasic strict b from_ to_ ep cr = Ok true /\
     simulatedBoard strict b from_ to_ ep = Ok S /\
     isKingInCheck strict S (color p) = Ok false) /\
  (wf_board b ->
   (inBounds b from_ -> isOk (isValidMove strict b from_ to_ ep cr)) /\
   (isValidMove strict b from_ to_ ep cr = Ok true ->
    forall cr0 promo, exists p r,
      pieceAt b from_ = Pc p /\
      executeMove strict b from_ to_ cr0 ep promo = Ok r /\
      isKingInCheck strict (newBoard r) (color p) = Ok false)).
Proof.
  split; [apply isValidMove_true_iff|]. intros Hwf. split.
  - intros Hin. by apply isValidMove_ok.
  - intros H cr0 promo.
    apply isValidMove_true in H as (p & Hp & Hv & Hk); [|done].
    destruct (accepted_move_boards strict b from_ to_ ep cr cr0 promo p
                Hwf Hv Hp) as (S & r & HS & HwfS & Hr & Hwfr & Hsim).
    exists p, r. split; [done|]. split; [done|].
    unfold wouldMoveLeaveKingInCheck in Hk. rewrite HS in Hk.
    cbn [bind] in Hk. by rewrite <- (isKingInCheck_sim strict _ S).
Qed.

Lemma isValidMove_legality_witness :
  isValidMove false initial9x8 (mkPos 6 4) (mkPos 4 4) None None = Ok true /\
  exists p r,
    pieceAt initial9x8 (mkPos 6 4) = Pc p /\
    executeMove false initial9x8 (mkPos 6 4) (mkPos 4 4)
      getInitialCastlingRights None promoQueen = Ok r /\
    isKingInCheck false (newBoard r) (color p) = Ok false.
Proof.
  split; [vm_compute; reflexivity|].
  destruct (isValidMove_legality false initial9x8 (mkPos 6 4) (mkPos 4 4)
              None None) as [_ H].
  destruct H as [_ H]; [vm_compute; reflexivity|].
  apply H. vm_compute. reflexivity.
Defined.

(** C2.  For every board, king square [from_], destination, colour and
    castling rights, [canCastle] returns [true] exactly when the
    castling precondition of the specification holds: king square on
    the home square, right granted, king not in check, rook of that
    colour on its home square (column 0 or 8), empty squares between
    them, and the two squares the king crosses not attacked.  On a
    board of the game it always returns a boolean. *)
Theorem canCastle_precondition strict b from_ to_ c cr :
  (canCastle strict b from_ to_ c cr = Ok true <->
   castlingPrecondition strict b from_ to_ c cr) /\
  (wf_board b -> isOk (canCastle strict b from_ to_ c cr)).
Proof. split; [apply canCastle_iff | apply canCastle_ok]. Qed.

Lemma canCastle_precondition_witness :
  castlingPrecondition false castlingBoard (mkPos 7 4) (mkPos 7 6) white
    getInitialCastlingRights /\
  isOk (canCastle false castlingBoard (mkPos 7 4) (mkPos 7 6) white
          getInitialCastlingRights).
Proof.
  destruct (canCastle_precondition false castlingBoard (mkPos 7 4)
              (mkPos 7 6) white getInitialCastlingRights) as [H1 H2].
  split; [apply H1 | apply H2]; vm_compute; reflexivity.
Defined.

(** C3.  [isInsufficientMaterial] declares a position with four pieces
    and two bishops on squares of the same colour insufficient without
    looking at the other two pieces: with a king, a queen and two such
    bishops it answers [true], where the specification answers
    [false]. *)
Theorem isInsufficientMaterial_queen_and_bishops :
  isInsufficientMaterial false queenAndBishops = Ok true /\
  exists pieces,
    collectPieces false queenAndBishops = Ok pieces /\
    insufficientSpec pieces = false.
Proof.
  split; [vm_compute; reflexivity|].
  eexists. split; vm_compute; reflexivity.
Qed.

(** C4.  The signature writes a king and a knight with the same letter:
    two different positions, with the same side to move, castling
    rights and en passant target, have the same signature. *)
Theorem getBoardPositionHash_collision :
  kingOnE <> knightOnE /\
  exists sig,
    getBoardPositionHash false kingOnE white getInitialCastlingRights None
    = Ok sig /\
    getBoardPositionHash false knightOnE white getInitialCastlingRights None
    = Ok sig.
Proof.
  split; [vm_compute; discriminate|].
  eexists. split; vm_compute; reflexivity.
Qed.

(** C5.  [getDrawStatus] returns the first condition that holds in the
    order stalemate, threefold repetition (the current signature occurs
    at least twice in the history), fifty-move rule (clock at least
    100), insufficient material, and [isDraw = false] with no reason
    when none holds.  On a board of the game the three tests it relies
    on always return. *)
Theorem getDrawStatus_first_reason strict b player ep cr history clock :
  (forall stale sig insuff,
     isStalemate strict b player ep (Some cr) = Ok stale ->
     getBoardPositionHash strict b player cr ep = Ok sig ->
     isInsufficientMaterial strict b = Ok insuff ->
     getDrawStatus strict b player ep cr history clock =
     Ok (firstDrawReason stale
           (bool_decide (2 <= count_occ String.string_dec history sig)%nat)
           (bool_decide (100 <= clock)) insuff)) /\
  (wf_board b ->
   isOk (isStalemate strict b player ep (Some cr)) /\
   isOk (getBoardPositionHash strict b player cr ep) /\
   isOk (isInsufficientMaterial strict b)).
Proof.
  split.
  - intros stale sig insuff Hs Hh Hi.
    unfold getDrawStatus. rewrite Hs, Hh, Hi. cbn [bind].
    rewrite isThreefoldRepetition_count.
    unfold isFiftyMoveRule, firstDrawReason.
    destruct stale; [done|]. destruct (bool_decide (2 <= _)%nat); [done|].
    destruct (Z.leb_spec 100 clock).
    + by rewrite bool_decide_eq_true_2.
    + rewrite bool_decide_eq_false_2 by lia. by destruct insuff.
  - intros Hwf. split; [by apply isStalemate_ok|].
    split; [by apply getBoardPositionHash_ok|].
    by apply isInsufficientMaterial_ok.
Qed.

Lemma getDrawStatus_first_reason_witness :
  getDrawStatus false initial9x8 white None getInitialCastlingRights [] 100
  = Ok (mkDraw true (Some fiftyMove)) /\
  isOk (isStalemate false initial9x8 white None
          (Some getInitialCastlingRights)).
Proof.
  destruct (getDrawStatus_first_reason false initial9x8 white None
              getInitialCastlingRights [] 100) as [H1 H2].
  split.
  - rewrite (H1 false
       "br00bk01bb02bq03bk04bq05bb06bk07br08bp10bp11bp12bp13bp14bp15bp16bp17bp18wp60wp61wp62wp63wp64wp65wp66wp67wp68wr70wk71wb72wq73wk74wq75wb76wk77wr78wKQkq"
       false); vm_compute; reflexivity.
  - apply H2. vm_compute. reflexivity.
Defined.

(** C6.  [executeMove] never restores a castling right, and it revokes
    the right of a colour and side exactly when the king of that colour
    moves, the rook of that colour leaves its home square, or the rook
    of that colour is captured on its home square: the piece reported
    as captured is that rook and the destination is its home square.
    [mover] is the content of the source square; except in an en
    passant capture, the piece reported as captured is the one that
    stood on the destination. *)
Theorem executeMove_castling_rights strict b from_ to_ cr ep promo mover r :
  readCell strict b (row from_) (col from_) = Ok mover ->
  executeMove strict b from_ to_ cr ep promo = Ok r ->
  (forall c kingside,
     (rightFor c kingside (newCastlingRights r) = true ->
      rightFor c kingside cr = true) /\
     rightFor c kingside (newCastlingRights r) =
     rightFor c kingside cr &&
     negb (rightLost b c kingside mover from_ (captured r) to_)) /\
  (isPiece mover = true ->
   isSpecial enPassant (specialMove r) = false ->
   readCell strict b (row to_) (col to_) = Ok (captured r)).
Proof.
  intros Hm Hr. split.
  - intros c kingside.
    assert (rightFor c kingside (newCastlingRights r) =
            rightFor c kingside cr &&
            negb (rightLost b c kingside mover from_ (captured r) to_))
      as Heq.
    { destruct (isPiece mover) eqn:Hpc.
      - destruct mover as [| |p]; try discriminate.
        destruct (executeMove_fields strict b from_ to_ cr ep promo p r
                    Hm Hr) as [-> _].
        rewrite !rookGone_right, kingMoved_right.
        unfold rightLost, rookHome, homeRow.
        destruct (rightFor c kingside cr), (isKingOf c (Pc p)),
          (isRookOf c (Pc p) && _), (isRookOf c (captured r) && _); done.
      - rewrite (executeMove_no_piece strict b from_ to_ cr ep promo mover)
          in Hr by done.
        injection Hr as <-. unfold rightLost. simpl.
        destruct mover; try discriminate; simpl; by rewrite andb_true_r. }
    split; [|done]. rewrite Heq. by intros [? _]%andb_true_iff.
  - intros Hpc Hs. destruct mover as [| |p]; try discriminate.
    by eapply executeMove_captured.
Qed.

Lemma executeMove_castling_rights_witness :
  exists r,
    executeMove false castlingBoard (mkPos 7 8) (mkPos 5 8)
      getInitialCastlingRights None promoQueen = Ok r /\
    rightFor white true (newCastlingRights r) = false /\
    rightFor white false (newCastlingRights r) = true.
Proof.
  eexists. split; [vm_compute; reflexivity|].
  destruct (executeMove_castling_rights false castlingBoard
              (mkPos 7 8) (mkPos 5 8) getInitialCastlingRights None
              promoQueen (Pc (mkPiece rook white)) _ eq_refl eq_refl)
    as [H _].
  destruct (H white true) as [_ H1]. destruct (H white false) as [_ H2].
  split; [exact H1 | exact H2].
Defined.

(** C7.  The en passant target returned by [executeMove] is set exactly
    when the piece on the source square is a pawn whose row changes by
    two; it is then the square behind the destination, on the side the
    pawn came from.  For a step straight ahead, and so for every pawn
    move over two rows that [isValidMoveBasic] accepts, this is the
    square the pawn skipped.  After any other move the target is
    absent, whatever the incoming target. *)
Theorem executeMove_en_passant_target strict b from_ to_ cr ep promo mover r :
  readCell strict b (row from_) (col from_) = Ok mover ->
  executeMove strict b from_ to_ cr ep promo = Ok r ->
  (newEnPassantTarget r <> None <-> advancesTwoRows mover from_ to_ = true) /\
  (forall p, mover = Pc p -> advancesTwoRows mover from_ to_ = true ->
     newEnPassantTarget r = Some (squareBehind (color p) to_) /\
     (col to_ = col from_ ->
      row to_ - row from_ = 2 * pawnDirection (color p) ->
      squareBehind (color p) to_ =
      mkPos (row from_ + pawnDirection (color p)) (col from_)) /\
     (forall ep' cr',
        wf_board b ->
        isValidMoveBasic strict b from_ to_ ep' cr' = Ok true ->
        newEnPassantTarget r =
        Some (mkPos (row from_ + pawnDirection (color p)) (col from_)))) /\
  (advancesTwoRows mover from_ to_ = false -> newEnPassantTarget r = None).
Proof.
  intros Hm Hr. destruct (isPiece mover) eqn:Hpc.
  - destruct mover as [| |p]; try discriminate.
    destruct (executeMove_fields strict b from_ to_ cr ep promo p r Hm Hr)
      as [_ ->].
    unfold advancesTwoRows. cbn [isTypeOf].
    destruct (type_eqb (type p) pawn && _) eqn:Hadv.
    + split; [done|]. split; [|done]. intros p' [= <-] _.
      assert (mkPos (epRow (color p) to_) (col to_)
              = squareBehind (color p) to_) as ->.
      { unfold squareBehind, epRow, pawnDirection.
        destruct (color p); f_equal; lia. }
      assert (col to_ = col from_ ->
              row to_ - row from_ = 2 * pawnDirection (color p) ->
              squareBehind (color p) to_ =
              mkPos (row from_ + pawnDirection (color p)) (col from_))
        as Hstraight.
      { intros Hc Hrow. unfold squareBehind. f_equal; lia. }
      split; [done|]. split; [done|].
      intros ep' cr' Hwf Hv.
      apply andb_true_iff in Hadv as [Ht%type_eqb_eq Habs%Z.eqb_eq].
      destruct (isValidMoveBasic_double_step strict b from_ to_ ep' cr' p)
        as [Hc Hrow]; try done.
      { by apply readCell_piece in Hm as (_ & _ & ?). }
      by rewrite Hstraight.
    + split; [done|]. split; done.
  - rewrite (executeMove_no_piece strict b from_ to_ cr ep promo mover)
      in Hr by done.
    injection Hr as <-. simpl. unfold advancesTwoRows.
    destruct mover; try discriminate; simpl; split; try done; split; done.
Qed.

Lemma executeMove_en_passant_target_witness :
  exists r,
    executeMove false initial9x8 (mkPos 6 4) (mkPos 4 4)
      getInitialCastlingRights (Some (mkPos 2 2)) promoQueen = Ok r /\
    newEnPassantTarget r = Some (mkPos 5 4).
Proof.
  eexists. split; [vm_compute; reflexivity|].
  destruct (executeMove_en_passant_target false initial9x8
              (mkPos 6 4) (mkPos 4 4) getInitialCastlingRights
              (Some (mkPos 2 2)) promoQueen (Pc (mkPiece pawn white)) _
              eq_refl eq_refl) as (_ & H & _).
  destruct (H (mkPiece pawn white) eq_refl eq_refl) as (_ & _ & H').
  apply (H' None None); vm_compute; reflexivity.
Defined.

(** C8.  When the source square holds no piece, [executeMove] returns
    the input board, no captured piece, no en passant target, no special
    move and the castling rights it was given, and [isValidMove] returns
    [false], for every destination. *)
Theorem missing_piece_no_op strict b from_ x :
  readCell strict b (row from_) (col from_) = Ok x ->
  isPiece x = false ->
  (forall to_ cr ep promo,
     executeMove strict b from_ to_ cr ep promo
     = Ok (mkResult b Null None cr None)) /\
  (forall to_ ep cr, isValidMove strict b from_ to_ ep cr = Ok false).
Proof.
  intros Hx Hn. split.
  - intros. by apply (executeMove_no_piece strict _ _ _ _ _ _ x).
  - intros. unfold isValidMove. rewrite Hx. by destruct x.
Qed.

Lemma missing_piece_no_op_witness :
  (forall to_ cr ep promo,
     executeMove false initial9x8 (mkPos 3 3) to_ cr ep promo
     = Ok (mkResult initial9x8 Null None cr None)) /\
  (forall to_ ep cr,
     isValidMove false initial9x8 (mkPos 3 3) to_ ep cr = Ok false).
Proof.
  apply (missing_piece_no_op false initial9x8 (mkPos 3 3) Null);
    vm_compute; reflexivity.
Defined.

(** C10.  On a board of the game, for every source square of the board
    and every destination, [isValidMove] and [isValidMoveBasic] return
    a boolean even when every index outside the arrays is an error, and
    so does [isPathClear] for a destination of the board aligned with
    the source: all their accesses are in bounds, and the JavaScript run
    returns the same boolean.  The source square is read unchecked: for
    a source outside the board the first read of [isValidMove] is out of
    bounds. *)
Theorem legality_accesses_in_bounds b from_ to_ ep cr :
  wf_board b ->
  (inBounds b from_ ->
   (exists v, isValidMove true b from_ to_ ep cr = Ok v /\
              isValidMove false b from_ to_ ep cr = Ok v) /\
   (exists v, isValidMoveBasic true b from_ to_ ep cr = Ok v /\
              isValidMoveBasic false b from_ to_ ep cr = Ok v) /\
   (inBounds b to_ -> aligned from_ to_ ->
    exists v, isPathClear true b from_ to_ = Ok v /\
              isPathClear false b from_ to_ = Ok v)) /\
  (~ inBounds b from_ ->
   isValidMove true b from_ to_ ep cr = Err OutOfBounds).
Proof.
  intros Hwf. split.
  - intros Hin. split; [|split].
    + destruct (isValidMove_ok true b from_ to_ ep cr Hwf Hin) as [v Hv].
      exists v. split; [done | by apply isValidMove_agrees].
    + destruct (isValidMoveBasic_ok true b from_ to_ ep cr Hwf Hin)
        as [v Hv].
      exists v. split; [done | by apply isValidMoveBasic_agrees].
    + intros Hto Hal.
      destruct (isPathClear_ok true b from_ to_ Hwf Hin Hto Hal) as [v Hv].
      exists v. split; [done | by apply isPathClear_agrees].
  - intros Hout. unfold isValidMove.
    rewrite readCell_wf_out by done. by destruct (_ && _).
Qed.

Lemma legality_accesses_in_bounds_witness :
  (exists v,
     isValidMove true initial9x8 (mkPos 7 3) (mkPos 12 (-4)) None
       (Some getInitialCastlingRights) = Ok v /\
     isValidMove false initial9x8 (mkPos 7 3) (mkPos 12 (-4)) None
       (Some getInitialCastlingRights) = Ok v) /\
  isValidMove true initial9x8 (mkPos 8 0) (mkPos 7 0) None None
  = Err OutOfBounds.
Proof.
  destruct (legality_accesses_in_bounds initial9x8 (mkPos 7 3)
              (mkPos 12 (-4)) None (Some getInitialCastlingRights))
    as [H _]; [vm_compute; reflexivity|].
  destruct (H ltac:(vm_compute; intuition congruence)) as [H1 _].
  destruct (legality_accesses_in_bounds initial9x8 (mkPos 8 0)
              (mkPos 7 0) None None) as [_ H2]; [vm_compute; reflexivity|].
  split; [exact H1|]. apply H2. vm_compute. intuition congruence.
Defined.

Lemma minimax_matches_brute_force_witness :
  exists v,
    minimax false Z Z.add (fun x y => x * y / 100) Z.opp (Z.mul 100) 10 5
      Z.leb 2 pawnEnding NegInf PosInf true None getInitialCastlingRights
    = Ok v /\
    bruteForceMinimax false Z Z.add (fun x y => x * y / 100) Z.opp
      (Z.mul 100) 10 5 Z.leb 2 pawnEnding true None getInitialCastlingRights
    = Ok v.
Proof.
  apply (minimax_matches_brute_force false Z Z.add (fun x y => x * y / 100)
           Z.opp (Z.mul 100) 10 5 50 Z.leb
           ltac:(intros; lia) ltac:(intros; lia) ltac:(intros; lia)
           2%nat pawnEnding true None getInitialCastlingRights).
  vm_compute. reflexivity.
Defined.

(** * Further properties of the engine *)

(** ** Clear paths *)

Section Path.

Variable strict : bool.

Lemma cellAt_row b r c x : cellAt b r c = x -> x <> Undefined -> 0 <= r < boardRows b.
Proof.
  unfold cellAt. destruct (rowAt b r) eqn:Hr; [|congruence].
  intros _ _. by eapply rowAt_inv.
Qed.

Lemma isPathClear_loop_true b to_ rd cd :
  forall fuel cr cc,
    isPathClear_loop strict fuel b rd cd cr cc to_ = Ok true ->
    exists k : nat,
      (k <= fuel)%nat /\
      cr + Z.of_nat k * rd = row to_ /\ cc + Z.of_nat k * cd = col to_ /\
      forall j : nat, (j < k)%nat ->
        cellAt b (cr + Z.of_nat j * rd) (cc + Z.of_nat j * cd) = Null.
Proof.
  induction fuel as [|fuel IH]; intros cr cc; simpl;
    destruct (negb (cr =? row to_) || negb (cc =? col to_)) eqn:Hc.
  - discriminate.
  - intros _. exists 0%nat. apply orb_false_iff in Hc as [H1 H2].
    apply negb_false_iff in H1, H2. split; [lia|]. split; [lia|]. split; [lia|].
    intros; lia.
  - intros H. apply bind_Ok_inv in H as (x & Hx & H).
    destruct x; try discriminate. simpl in H.
    apply IH in H as (k & Hk & Hr & Hcl & Hcells).
    exists (S k). split; [lia|]. split; [lia|]. split; [lia|].
    intros [|j] Hj.
    + rewrite !Z.mul_0_l, !Z.add_0_r. by apply (readCell_value strict).
    + replace (cr + Z.of_nat (S j) * rd) with (cr + rd + Z.of_nat j * rd) by lia.
      replace (cc + Z.of_nat (S j) * cd) with (cc + cd + Z.of_nat j * cd) by lia.
      apply Hcells. lia.
  - intros _. exists 0%nat. apply orb_false_iff in Hc as [H1 H2].
    apply negb_false_iff in H1, H2. split; [lia|]. split; [lia|]. split; [lia|].
    intros; lia.
Qed.

Lemma isPathClear_loop_clear b to_ rd cd :
  forall (k fuel : nat) cr cc,
    (k <= fuel)%nat -> rd <> 0 \/ cd <> 0 ->
    cr + Z.of_nat k * rd = row to_ -> cc + Z.of_nat k * cd = col to_ ->
    (forall j : nat, (j < k)%nat ->
       cellAt b (cr + Z.of_nat j * rd) (cc + Z.of_nat j * cd) = Null) ->
    isPathClear_loop strict fuel b rd cd cr cc to_ = Ok true.
Proof.
  induction k as [|k IH]; intros fuel cr cc Hf Hd Hr Hc Hcells.
  - assert (negb (cr =? row to_) || negb (cc =? col to_) = false) as Hz.
    { apply orb_false_iff. split; apply negb_false_iff; lia. }
    destruct fuel; simpl; by rewrite Hz.
  - destruct fuel as [|fuel]; [lia|]. simpl.
    assert (negb (cr =? row to_) || negb (cc =? col to_) = true) as ->.
    { apply orb_true_iff. destruct Hd; [left|right]; apply negb_true_iff;
        apply Z.eqb_neq; nia. }
    rewrite (proj2 (readCell_value strict b cr cc Null ltac:(done))).
    2:{ specialize (Hcells 0%nat ltac:(lia)).
        by rewrite !Z.mul_0_l, !Z.add_0_r in Hcells. }
    simpl. apply IH; [lia | done | lia | lia |].
    intros j Hj. specialize (Hcells (S j) ltac:(lia)).
    replace (cr + rd + Z.of_nat j * rd) with (cr + Z.of_nat (S j) * rd) by lia.
    by replace (cc + cd + Z.of_nat j * cd) with (cc + Z.of_nat (S j) * cd) by lia.
Qed.

Lemma isPathClear_same b p : isPathClear strict b p p = Ok true.
Proof.
  unfold isPathClear. rewrite !Z.sub_diag. simpl Z.sgn. rewrite !Z.add_0_r.
  simpl. by rewrite !Z.eqb_refl.
Qed.

Lemma isPathClear_true_iff b from_ to_ :
  isPathClear strict b from_ to_ = Ok true <->
  aligned from_ to_ /\ pathEmpty b from_ to_.
Proof.
  split.
  - intros H. unfold isPathClear in H.
    apply isPathClear_loop_true in H as (k & _ & Hr & Hc & Hcells).
    unfold aligned, pathEmpty, distance, pieceAt, stepTowards. cbn [row col].
    destruct (sgn_cases (row to_ - row from_)) as [[? Er]|[[? Er]|[? Er]]],
             (sgn_cases (col to_ - col from_)) as [[? Ec]|[[? Ec]|[? Ec]]];
      rewrite Er, Ec in *;
      (split; [lia|]); intros i Hi; try lia;
      specialize (Hcells (Z.to_nat (i - 1)) ltac:(lia));
      rewrite Z2Nat.id in Hcells by lia;
      (rewrite <- Hcells; f_equal; lia).
  - intros [Hal Hempty].
    destruct (decide (row to_ = row from_ /\ col to_ = col from_)) as [[Hr Hc]|Hne].
    { destruct from_, to_; simpl in *; subst. apply isPathClear_same. }
    unfold isPathClear.
    assert (forall i, 0 < i < distance from_ to_ ->
              cellAt b (row from_ + i * Z.sgn (row to_ - row from_))
                       (col from_ + i * Z.sgn (col to_ - col from_)) = Null)
      as Hcells by exact Hempty.
    assert (distance from_ to_ - 1 <= Z.of_nat (S (length b + Z.to_nat (Z.abs (col to_ - col from_))))) as Hfuel.
    { unfold distance in *.
      destruct (Z.le_gt_cases (Z.abs (row to_ - row from_)) (Z.abs (col to_ - col from_))); [lia|].
      destruct (Z.le_gt_cases (Z.abs (row to_ - row from_)) 2); [lia|].
      pose proof (cellAt_row _ _ _ _ (Hcells 1 ltac:(lia)) ltac:(done)) as H1.
      pose proof (cellAt_row _ _ _ _ (Hcells (Z.abs (row to_ - row from_) - 1) ltac:(lia)) ltac:(done)) as H2.
      unfold boardRows in *.
      destruct (sgn_cases (row to_ - row from_)) as [[? Er]|[[? Er]|[? Er]]];
        rewrite Er in *; lia. }
    apply (isPathClear_loop_clear b to_ _ _ (Z.to_nat (distance from_ to_ - 1))).
    + lia.
    + destruct (sgn_cases (row to_ - row from_)) as [[? Er]|[[? Er]|[? Er]]],
             (sgn_cases (col to_ - col from_)) as [[? Ec]|[[? Ec]|[? Ec]]]; lia.
    + unfold aligned, distance in *.
      destruct (sgn_cases (row to_ - row from_)) as [[? Er]|[[? Er]|[? Er]]],
             (sgn_cases (col to_ - col from_)) as [[? Ec]|[[? Ec]|[? Ec]]];
        rewrite Er, ?Ec in *; lia.
    + unfold aligned, distance in *.
      destruct (sgn_cases (row to_ - row from_)) as [[? Er]|[[? Er]|[? Er]]],
             (sgn_cases (col to_ - col from_)) as [[? Ec]|[[? Ec]|[? Ec]]];
        rewrite ?Er, Ec in *; lia.
    + intros j Hj.
      specialize (Hcells (Z.of_nat j + 1) ltac:(lia)).
      rewrite <- Hcells. f_equal; lia.
Qed.

End Path.

(** ** Movement rules *)

Section Rules.

Variable strict : bool.

Lemma cellAt_inBounds b r c x :
  wf_board b -> cellAt b r c = x -> x <> Undefined ->
  0 <= r < boardRows b /\ 0 <= c < 9.
Proof.
  intros Hwf Hx Hd. unfold cellAt in Hx.
  destruct (rowAt b r) as [rw|] eqn:Hr; [|congruence].
  destruct (elemAt rw c) as [y|] eqn:He; [|simpl in Hx; congruence].
  split; [by eapply rowAt_inv|].
  apply elemAt_inv in He. destruct (wf_board_row b r rw Hwf Hr) as [Hl _]. lia.
Qed.

Lemma pieceAt_inBounds b sq p :
  wf_board b -> pieceAt b sq = Pc p -> inBounds b sq.
Proof. intros Hwf H. by eapply cellAt_inBounds. Qed.

Lemma isPathClear_loop_error b to_ rd cd e :
  forall fuel cr cc,
    isPathClear_loop false fuel b rd cd cr cc to_ = Err e ->
    e = TypeError \/ e = OutOfFuel.
Proof.
  induction fuel as [|fuel IH]; intros cr cc; simpl;
    destruct (negb (cr =? row to_) || negb (cc =? col to_)); try done.
  - intros [= <-]. by right.
  - unfold readCell. destruct (rowAt b cr) as [rw|]; simpl.
    + destruct (elemAt rw cc) as [x|]; simpl.
      * destruct (isNull x); simpl; [apply IH | done].
      * done.
    + intros [= <-]. by left.
Qed.

(** The basic rules on a board of the game, with the reads resolved. *)
Lemma isValidMoveBasic_wf b from_ to_ ep cr p :
  wf_board b -> pieceAt b from_ = Pc p ->
  isValidMoveBasic strict b from_ to_ ep cr =
  if outOfBounds (boardRows b) 9 to_ then Ok false else
  let target := pieceAt b to_ in
  if sameColorTarget target p then Ok false else
  if pos_eqb from_ to_ then Ok false else
  let rowDiff := row to_ - row from_ in
  let colDiff := col to_ - col from_ in
  match type p with
  | pawn =>
      let direction := pawnDirection (color p) in
      do fwd <-
        (if (colDiff =? 0) && negb (isPiece target) then
           if rowDiff =? direction then Ok true
           else if (row from_ =? pawnStartRow b (color p))
                   && (rowDiff =? 2 * direction)
           then Ok (negb (isPiece (cellAt b (row from_ + direction)
                                     (col from_))))
           else Ok false
         else Ok false) ;;
      if fwd then Ok true else
      if (Z.abs colDiff =? 1) && (rowDiff =? direction) then
        if isPiece target then Ok true
        else Ok (matchesTarget to_ ep)
      else Ok false
  | knight =>
      Ok ((Z.abs rowDiff =? 2) && (Z.abs colDiff =? 1)
          || (Z.abs rowDiff =? 1) && (Z.abs colDiff =? 2))
  | bishop =>
      if negb (Z.abs rowDiff =? Z.abs colDiff) then Ok false
      else isPathClear strict b from_ to_
  | rook =>
      if negb (rowDiff =? 0) && negb (colDiff =? 0) then Ok false
      else isPathClear strict b from_ to_
  | queen =>
      if negb (Z.abs rowDiff =? Z.abs colDiff)
         && negb (rowDiff =? 0) && negb (colDiff =? 0)
      then Ok false
      else isPathClear strict b from_ to_
  | king =>
      if (Z.abs rowDiff <=? 1) && (Z.abs colDiff <=? 1) then Ok true
      else match cr with
           | Some cr =>
               if (Z.abs rowDiff =? 0) && (Z.abs colDiff =? 2)
               then canCastle strict b from_ to_ (color p) cr
               else Ok false
           | None => Ok false
           end
  end.
Proof.
  intros Hwf Hp. pose proof (pieceAt_inBounds b from_ p Hwf Hp) as [Hfr Hfc].
  unfold isValidMoveBasic. rewrite boardCols_wf by done. cbn [bind].
  destruct (outOfBounds (boardRows b) 9 to_) eqn:Hout; [done|].
  apply outOfBounds_false in Hout as [Htr Htc].
  rewrite (readCell_wf strict b (row from_) (col from_)) by done.
  fold (pieceAt b from_). rewrite Hp. cbn [bind].
  rewrite (readCell_wf strict b (row to_) (col to_)) by done.
  fold (pieceAt b to_). cbn [bind]. cbv zeta.
  destruct (sameColorTarget (pieceAt b to_) p); [done|].
  destruct (pos_eqb from_ to_) eqn:Hpe; [done|].
  destruct (type p); try done.
  assert ((match color p with white => boardRows b - 2 | black => 1 end)
          = pawnStartRow b (color p)) as -> by done.
  destruct ((col to_ - col from_ =? 0) && negb (isPiece (pieceAt b to_)));
    [|by destruct ep].
  destruct (row to_ - row from_ =? pawnDirection (color p)); [done|].
  destruct ((row from_ =? pawnStartRow b (color p)) && _) eqn:Hd;
    [|by destruct ep].
  apply andb_true_iff in Hd as [H1%Z.eqb_eq H2%Z.eqb_eq].
  rewrite readCell_wf; [by destruct ep | done | | done].
  unfold pawnStartRow, pawnDirection in *. destruct (color p); lia.
Qed.

End Rules.

(** X1.  [isPathClear] answers [true] exactly when source and
    destination lie on a common row, column or diagonal and every
    square strictly between them holds [null]; this holds for every
    board, also in the run where an index outside the arrays is an
    error. *)
Theorem isPathClear_clear_path strict b from_ to_ :
  isPathClear strict b from_ to_ = Ok true <->
  aligned from_ to_ /\
  forall k, 0 < k < distance from_ to_ ->
            pieceAt b (stepTowards from_ to_ k) = Null.
Proof. apply isPathClear_true_iff. Qed.

(** X2.  The [while] loop of [isPathClear] ends on every board and every
    pair of squares.  When the squares are not aligned the walk never
    meets the destination: it stops at a cell that is not [null] (a
    piece, or [undefined] beside the row) with [false], or leaves the
    rows of the board and throws. *)
Theorem isPathClear_terminates strict b from_ to_ :
  isPathClear strict b from_ to_ <> Err OutOfFuel /\
  (~ aligned from_ to_ ->
   isPathClear false b from_ to_ = Ok false \/
   isPathClear false b from_ to_ = Err TypeError).
Proof.
  split; [apply isPathClear_fuel|]. intros Hal.
  pose proof (isPathClear_fuel false b from_ to_) as Hf.
  destruct (isPathClear false b from_ to_) as [[|]|e] eqn:He.
  - apply isPathClear_true_iff in He as [? _]. done.
  - by left.
  - right. unfold isPathClear in He.
    apply isPathClear_loop_error in He as [->| ->]; done.
Qed.

Lemma isPathClear_terminates_witness :
  isPathClear false initial9x8 (mkPos 7 0) (mkPos 4 1) = Ok false \/
  isPathClear false initial9x8 (mkPos 7 0) (mkPos 4 1) = Err TypeError.
Proof.
  apply (isPathClear_terminates false initial9x8 (mkPos 7 0) (mkPos 4 1)).
  unfold aligned. simpl. lia.
Defined.

(** X3.  Attack detection and move validation follow the same rules for
    every piece but the pawn: when the source square holds a piece that
    is not a pawn, [isValidMoveBasicForAttack] returns what
    [isValidMoveBasic] returns without castling rights, whatever the en
    passant target, and for a piece that is neither pawn nor king
    whatever the castling rights.  A pawn attacks only the two squares
    diagonally ahead. *)
Theorem attack_matches_basic strict b from_ to_ ep cr p :
  readCell strict b (row from_) (col from_) = Ok (Pc p) ->
  (type p <> pawn -> (type p = king -> cr = None) ->
   isValidMoveBasicForAttack strict b from_ to_ =
   isValidMoveBasic strict b from_ to_ ep cr) /\
  (type p = pawn ->
   isValidMoveBasicForAttack strict b from_ to_ = Ok true ->
   Z.abs (col to_ - col from_) = 1 /\
   row to_ - row from_ = pawnDirection (color p)).
Proof.
  intros Hp. unfold isValidMoveBasicForAttack, isValidMoveBasic.
  split.
  - intros Hnp Hk. destruct (boardCols strict b) as [cols|]; [|done].
    cbn [bind]. destruct (outOfBounds _ _ _); [done|].
    rewrite Hp. cbn [bind].
    destruct (readCell strict b (row to_) (col to_)) as [t|]; [|done].
    cbn [bind]. destruct (sameColorTarget t p); [done|].
    destruct (pos_eqb from_ to_); [done|].
    destruct (type p); try done. rewrite Hk by done.
    by destruct (_ && _).
  - intros Ht.
    destruct (boardCols strict b) as [cols|]; [|done].
    cbn [bind]. destruct (outOfBounds _ _ _); [done|].
    rewrite Hp. cbn [bind].
    destruct (readCell strict b (row to_) (col to_)) as [t|]; [|done].
    cbn [bind]. destruct (sameColorTarget t p); [done|].
    destruct (pos_eqb from_ to_); [done|]. rewrite Ht.
    intros [= [H1%Z.eqb_eq H2%Z.eqb_eq]%andb_true_iff]. done.
Qed.

Lemma attack_matches_basic_witness :
  isValidMoveBasicForAttack false initial9x8 (mkPos 7 1) (mkPos 5 2) =
  isValidMoveBasic false initial9x8 (mkPos 7 1) (mkPos 5 2) (Some (mkPos 2 2))
    (Some getInitialCastlingRights).
Proof.
  apply (attack_matches_basic false initial9x8 (mkPos 7 1) (mkPos 5 2)
           (Some (mkPos 2 2)) (Some getInitialCastlingRights)
           (mkPiece knight white)); [vm_compute; reflexivity | | ];
    simpl; discriminate.
Defined.

Section MoveRules.

Variable strict : bool.

(** X4.  On a board of the game a rook, bishop or queen may make a basic
    move exactly when the destination is a square of the board other
    than the source, does not hold a piece of its own colour, lies on
    one of the lines the piece moves along, and every square strictly
    between is empty. *)
Theorem sliding_move_rule b from_ to_ ep cr p :
  wf_board b -> pieceAt b from_ = Pc p ->
  type p = rook \/ type p = bishop \/ type p = queen ->
  (isValidMoveBasic strict b from_ to_ ep cr = Ok true <->
   inBounds b to_ /\ from_ <> to_ /\
   sameColorTarget (pieceAt b to_) p = false /\
   slides (type p) from_ to_ /\ pathEmpty b from_ to_).
Proof.
  intros Hwf Hp Ht. rewrite (isValidMoveBasic_wf strict b from_ to_ ep cr p)
    by done. cbv zeta.
  destruct (outOfBounds (boardRows b) 9 to_) eqn:Hout.
  { split; [done|]. intros [Hin _]. apply outOfBounds_false in Hin.
    congruence. }
  apply outOfBounds_false in Hout.
  destruct (sameColorTarget (pieceAt b to_) p);
    [split; [done | by intros (_ & _ & ? & _)]|].
  destruct (pos_eqb from_ to_) eqn:Hpe.
  { apply pos_eqb_eq in Hpe. split; [done|tauto]. }
  assert (from_ <> to_) as Hne.
  { intros Heq%pos_eqb_eq. congruence. }
  unfold slides. unfold inBounds in *.
  destruct Ht as [-> | [-> | ->]].
  - destruct (Z.eqb_spec (row to_ - row from_) 0),
             (Z.eqb_spec (col to_ - col from_) 0); simpl;
      rewrite ?isPathClear_true_iff; unfold aligned;
      try (split; [intros [? ?]; repeat split; try done; lia
                  | intros (_ & _ & _ & ? & ?); split; [lia|done]]).
    split; [done|]. intros (_ & _ & _ & ? & _). lia.
  - destruct (Z.eqb_spec (Z.abs (row to_ - row from_))
                         (Z.abs (col to_ - col from_))); simpl;
      rewrite ?isPathClear_true_iff; unfold aligned.
    + split; [intros [? ?]; repeat split; try done; lia
             | intros (_ & _ & _ & ? & ?); split; [lia|done]].
    + split; [done|]. intros (_ & _ & _ & ? & _). lia.
  - destruct (Z.eqb_spec (Z.abs (row to_ - row from_))
                         (Z.abs (col to_ - col from_))),
             (Z.eqb_spec (row to_ - row from_) 0),
             (Z.eqb_spec (col to_ - col from_) 0); simpl;
      rewrite ?isPathClear_true_iff; unfold aligned;
      try (split; [intros [? ?]; repeat split; try done; lia
                  | intros (_ & _ & _ & ? & ?); split; [lia|done]]).
    split; [done|]. intros (_ & _ & _ & ? & _). lia.
Qed.

Lemma matchesTarget_eq to_ ep : matchesTarget to_ ep = true <-> ep = Some to_.
Proof.
  destruct ep as [e|]; simpl; [|done]. rewrite pos_eqb_eq.
  split; [by intros -> | by intros [= ->]].
Qed.

Lemma pawnDirection_cases c :
  (c = white /\ pawnDirection c = -1) \/ (c = black /\ pawnDirection c = 1).
Proof. destruct c; [left|right]; done. Qed.

Lemma isValidMoveBasic_pawn b from_ to_ ep cr p :
  wf_board b -> pieceAt b from_ = Pc p -> type p = pawn ->
  (isValidMoveBasic strict b from_ to_ ep cr = Ok true <->
   inBounds b to_ /\
   ((col to_ = col from_ /\
     row to_ = row from_ + pawnDirection (color p) /\
     pieceAt b to_ = Null) \/
    (col to_ = col from_ /\
     row from_ = pawnStartRow b (color p) /\
     row to_ = row from_ + 2 * pawnDirection (color p) /\
     pieceAt b to_ = Null /\
     pieceAt b (mkPos (row from_ + pawnDirection (color p)) (col from_))
     = Null) \/
    (Z.abs (col to_ - col from_) = 1 /\
     row to_ = row from_ + pawnDirection (color p) /\
     ((exists q, pieceAt b to_ = Pc q /\ color q <> color p) \/
      (pieceAt b to_ = Null /\ ep = Some to_))))).
Proof.
  intros Hwf Hp Ht.
  rewrite (isValidMoveBasic_wf strict b from_ to_ ep cr p) by done.
  rewrite Ht. cbv zeta.
  pose proof (pieceAt_inBounds b from_ p Hwf Hp) as Hfrom.
  destruct (outOfBounds (boardRows b) 9 to_) eqn:Hout.
  { split; [done|]. intros [Hin _]. apply outOfBounds_false in Hin.
    congruence. }
  apply outOfBounds_false in Hout.
  pose proof (cellAt_defined b (row to_) (col to_) Hwf
                (proj1 Hout) (proj2 Hout)) as Hdef.
  assert (pawnDirection (color p) = -1 \/ pawnDirection (color p) = 1) as Hd.
  { destruct (pawnDirection_cases (color p)) as [[_ ?]|[_ ?]]; lia. }
  set (d := pawnDirection (color p)) in *.
  unfold pieceAt in *. cbn [row col]. unfold inBounds in *.
  destruct (cellAt b (row to_) (col to_)) as [| |q] eqn:Htarget; [done| |];
    cbn [sameColorTarget isPiece negb].
  - (* the destination is empty *)
    destruct (pos_eqb from_ to_) eqn:Hpe.
    { apply pos_eqb_eq in Hpe. subst to_. split; [done|].
      intros [_ [(_ & ? & _)|[(_ & _ & ? & _)|(_ & ? & _)]]]; lia. }
    rewrite <- matchesTarget_eq.
    destruct (Z.eqb_spec (col to_ - col from_) 0) as [Hcd|Hcd],
             (Z.eqb_spec (row to_ - row from_) d) as [Hrd|Hrd],
             (Z.eqb_spec (row from_) (pawnStartRow b (color p))) as [Hs|Hs],
             (Z.eqb_spec (row to_ - row from_) (2 * d)) as [Hr2|Hr2],
             (Z.eqb_spec (Z.abs (col to_ - col from_)) 1) as [Hac|Hac];
      cbn [bind andb negb]; try lia.
    all: try (destruct (cellAt b (row from_ + d) (col from_))
                as [| |m] eqn:Hmid;
              [ exfalso; revert Hmid; apply cellAt_defined; [done|lia|lia]
              | | ]; cbn [bind isPiece negb]).
    all: try destruct (matchesTarget to_ ep) eqn:Hep.
    all: try (split; [done|];
              intros [_ [(? & ? & ?)|[(? & ? & ? & ? & ?)|
                (? & ? & [(q' & ? & ?)|[? ?]])]]]; (done || lia)).
    all: split; try done; intros _; (split; [done|]).
    all: first [ left; repeat split; (done || lia)
               | right; left; repeat split; (done || lia)
               | right; right; repeat split; try lia; right; done ].
  - (* the destination holds a piece *)
    destruct (color_eqb (color q) (color p)) eqn:Hcol.
    { apply color_eqb_eq in Hcol. split; [done|].
      intros [_ [(_ & _ & ?)|[(_ & _ & _ & ? & _)|
                (_ & _ & [(q' & [= <-] & ?)|[? _]])]]]; done. }
    assert (color q <> color p) as Hne.
    { intros Heq%color_eqb_eq. congruence. }
    destruct (pos_eqb from_ to_) eqn:Hpe.
    { apply pos_eqb_eq in Hpe. subst to_. split; [done|].
      intros [_ [(_ & ? & _)|[(_ & _ & ? & _)|(_ & ? & _)]]]; lia. }
    rewrite andb_false_r. cbn [bind].
    destruct (Z.eqb_spec (Z.abs (col to_ - col from_)) 1) as [Hac|Hac],
             (Z.eqb_spec (row to_ - row from_) d) as [Hrd|Hrd];
      cbn [andb].
    all: try (split; [done|];
              intros [_ [(? & ? & ?)|[(? & ? & ? & ? & ?)|
                (? & ? & [(q' & ? & ?)|[? ?]])]]]; (done || lia)).
    split; [|done]. intros _. split; [done|].
    right; right. repeat split; try lia. left. by exists q.
Qed.

(** X5.  On a board of the game a pawn may make a basic move in exactly
    three ways: one row ahead on its column onto an empty square; two
    rows ahead from its start row when the square it crosses and the
    destination are both empty; one row ahead on a neighbouring column
    onto a piece of the other colour, or onto the empty en passant
    target.  It never moves backwards or sideways and never captures
    straight ahead. *)
Theorem pawn_move_rule b from_ to_ ep cr p :
  wf_board b -> pieceAt b from_ = Pc p -> type p = pawn ->
  (isValidMoveBasic strict b from_ to_ ep cr = Ok true <->
   inBounds b to_ /\
   ((col to_ = col from_ /\
     row to_ = row from_ + pawnDirection (color p) /\
     pieceAt b to_ = Null) \/
    (col to_ = col from_ /\
     row from_ = pawnStartRow b (color p) /\
     row to_ = row from_ + 2 * pawnDirection (color p) /\
     pieceAt b to_ = Null /\
     pieceAt b (mkPos (row from_ + pawnDirection (color p)) (col from_))
     = Null) \/
    (Z.abs (col to_ - col from_) = 1 /\
     row to_ = row from_ + pawnDirection (color p) /\
     ((exists q, pieceAt b to_ = Pc q /\ color q <> color p) \/
      (pieceAt b to_ = Null /\ ep = Some to_))))).
Proof. apply isValidMoveBasic_pawn. Qed.

End MoveRules.

(** ** Move enumeration *)

Lemma filterM_elem_2 {A} (f : A -> result bool) l r x :
  filterM f l = Ok r -> x ∈ l -> f x = Ok true -> x ∈ r.
Proof.
  revert r. induction l as [|y l IH]; intros r H Hx Hf.
  - by apply elem_of_nil in Hx.
  - simpl in H. apply bind_Ok_inv in H as (t & Ht & H).
    apply bind_Ok_inv in H as (r' & Hr' & [= <-]).
    apply elem_of_cons in Hx as [->|Hx].
    + rewrite Hf in Ht. injection Ht as <-. apply elem_of_cons. by left.
    + specialize (IH r' Hr' Hx Hf). destruct t; [apply elem_of_cons; by right|done].
Qed.

Lemma filterM_sublist {A} (f : A -> result bool) l r :
  filterM f l = Ok r -> r `sublist_of` l.
Proof.
  revert r. induction l as [|y l IH]; intros r H; simpl in H.
  - by injection H as <-.
  - apply bind_Ok_inv in H as (t & Ht & H).
    apply bind_Ok_inv in H as (r' & Hr' & [= <-]).
    destruct t; [apply sublist_skip | apply sublist_cons]; by apply IH.
Qed.

Lemma concatM_elem_2 {A B} (f : A -> result (list B)) l r x h y :
  concatM f l = Ok r -> x ∈ l -> f x = Ok h -> y ∈ h -> y ∈ r.
Proof.
  revert r. induction l as [|z l IH]; intros r H Hx Hf Hy.
  - by apply elem_of_nil in Hx.
  - simpl in H. apply bind_Ok_inv in H as (h' & Hh' & H).
    apply bind_Ok_inv in H as (r' & Hr' & [= <-]).
    apply elem_of_app. apply elem_of_cons in Hx as [->|Hx].
    + left. rewrite Hf in Hh'. by injection Hh' as <-.
    + right. by apply IH.
Qed.

Lemma concatM_NoDup {A B} (f : A -> result (list B)) l r :
  concatM f l = Ok r -> NoDup l ->
  (forall x h, x ∈ l -> f x = Ok h -> NoDup h) ->
  (forall x1 x2 h1 h2 y, x1 ∈ l -> x2 ∈ l -> f x1 = Ok h1 -> f x2 = Ok h2 ->
     y ∈ h1 -> y ∈ h2 -> x1 = x2) ->
  NoDup r.
Proof.
  revert r. induction l as [|z l IH]; intros r H Hnd Hh Hinj; simpl in H.
  - injection H as <-. constructor.
  - apply bind_Ok_inv in H as (h' & Hh' & H).
    apply bind_Ok_inv in H as (r' & Hr' & [= <-]).
    apply NoDup_cons in Hnd as [Hz Hnd].
    apply NoDup_app. split; [|split].
    + apply (Hh z); [apply elem_of_cons; by left | done].
    + intros y Hy1 Hy2.
      destruct (concatM_elem f l r' y Hr' Hy2) as (x & h & Hx & Hfx & Hyh).
      assert (z = x) as ->; [|done].
      apply (Hinj z x h' h y); try done; apply elem_of_cons; auto.
    + apply IH; try done.
      * intros x h Hx. apply Hh. apply elem_of_cons. by right.
      * intros x1 x2 h1 h2 y H1 H2. apply Hinj; apply elem_of_cons; by right.
Qed.

Lemma squares_NoDup n m : NoDup (squares n m).
Proof.
  unfold squares. apply NoDup_bind.
  - intros x1 x2 y _ _ (c1 & -> & _)%list_elem_of_fmap
      (c2 & [= H _] & _)%list_elem_of_fmap. lia.
  - intros x _. apply NoDup_fmap_2_strong; [|apply NoDup_seq].
    intros c1 c2 _ _ [= H]. lia.
  - apply NoDup_seq.
Qed.

Section Enumeration.

Variable strict : bool.

Lemma isValidMove_inBounds b from_ to_ ep cr :
  wf_board b -> isValidMove strict b from_ to_ ep cr = Ok true ->
  inBounds b from_ /\ inBounds b to_.
Proof.
  intros Hwf H. apply isValidMove_true in H as (p & _ & H & _); [|done].
  apply isValidMoveBasic_true in H as (_ & _ & ? & ? & _); done.
Qed.

Lemma getValidMoves_spec b from_ ep cr :
  wf_board b -> inBounds b from_ ->
  exists ms,
    getValidMoves strict b from_ ep cr = Ok ms /\ NoDup ms /\
    forall t, t ∈ ms <-> isValidMove strict b from_ t ep cr = Ok true.
Proof.
  intros Hwf Hin.
  destruct (getValidMoves_ok strict b from_ ep cr Hwf Hin) as (ms & Hms & H).
  exists ms. split; [done|].
  unfold getValidMoves in Hms. rewrite allSquares_wf in Hms by done.
  cbn [bind] in Hms. split.
  - eapply sublist_NoDup; [apply squares_NoDup | by eapply filterM_sublist].
  - intros t. split; [apply H|]. intros Ht.
    eapply filterM_elem_2; [done | | done].
    apply elem_of_squares_wf. by eapply isValidMove_inBounds.
Qed.

Lemma getPiecesOfColor_spec b c :
  wf_board b ->
  exists ps,
    getPiecesOfColor strict b c = Ok ps /\ NoDup ps /\
    forall pp, pp ∈ ps <->
      pieceAt b (snd pp) = Pc (fst pp) /\ color (fst pp) = c.
Proof.
  intros Hwf.
  destruct (getPiecesOfColor_ok strict b c Hwf) as (ps & Hps & H).
  exists ps. split; [done|].
  unfold getPiecesOfColor in Hps. rewrite allSquares_wf in Hps by done.
  cbn [bind] in Hps. split.
  - eapply concatM_NoDup; [done | apply squares_NoDup | |].
    + intros x h Hx%elem_of_squares_wf. cbv beta.
      rewrite (readCell_wf strict b (row x) (col x)) by (done || apply Hx).
      cbn [bind]. destruct (cellAt _ _ _) as [| |q]; try (intros [= <-]; constructor).
      destruct (color_eqb _ _); intros [= <-]; [apply NoDup_singleton | constructor].
    + intros x1 x2 h1 h2 y Hx1%elem_of_squares_wf Hx2%elem_of_squares_wf.
      cbv beta.
      rewrite (readCell_wf strict b (row x1) (col x1)) by (done || apply Hx1).
      rewrite (readCell_wf strict b (row x2) (col x2)) by (done || apply Hx2).
      cbn [bind].
      destruct (cellAt b (row x1) _) as [| |q1];
        try (intros [= <-] _ Hy; by apply elem_of_nil in Hy).
      destruct (cellAt b (row x2) _) as [| |q2];
        try (intros _ [= <-] _ Hy; by apply elem_of_nil in Hy).
      destruct (color_eqb (color q1) c), (color_eqb (color q2) c);
        intros [= <-] [= <-] Hy1 Hy2;
        try (by apply elem_of_nil in Hy1); try (by apply elem_of_nil in Hy2).
      apply list_elem_of_singleton in Hy1, Hy2. congruence.
  - intros pp. split; [intros Hpp; by destruct (H pp Hpp) as (_ & ? & ?)|].
    intros [Hp Hc].
    pose proof (pieceAt_inBounds b (snd pp) (fst pp) Hwf Hp) as Hin.
    eapply (concatM_elem_2 _ _ _ (snd pp)); [done | by apply elem_of_squares_wf | |].
    + cbv beta. rewrite (readCell_wf strict b) by (done || apply Hin).
      fold (pieceAt b (snd pp)). rewrite Hp. cbn [bind]. reflexivity.
    + rewrite (proj2 (color_eqb_eq _ _) Hc). destruct pp.
      apply list_elem_of_singleton. done.
Qed.

Lemma getAllLegalMoves_spec b c ep cr :
  wf_board b ->
  exists ms,
    getAllLegalMoves strict b c ep cr = Ok ms /\ NoDup ms /\
    forall m, m ∈ ms <->
      pieceAt b (from m) = Pc (piece m) /\ color (piece m) = c /\
      isValidMove strict b (from m) (to m) ep cr = Ok true.
Proof.
  intros Hwf.
  destruct (getAllLegalMoves_ok strict b c ep cr Hwf) as (ms & Hms & H).
  exists ms. split; [done|].
  unfold getAllLegalMoves in Hms.
  destruct (getPiecesOfColor_spec b c Hwf) as (ps & Hps & Hnd & Hpp).
  rewrite Hps in Hms. cbn [bind] in Hms.
  assert (forall pp, pp ∈ ps -> inBounds b (snd pp)) as Hin.
  { intros pp [Hp _]%Hpp. by eapply pieceAt_inBounds. }
  split.
  - eapply concatM_NoDup; [done | done | |].
    + intros pp h Hin'%Hin. cbv beta.
      destruct (getValidMoves_spec b (snd pp) ep cr Hwf Hin')
        as (vs & -> & Hvs & _). cbn [bind]. intros [= <-].
      apply NoDup_fmap_2_strong; [|done]. by intros t1 t2 _ _ [= ->].
    + intros pp1 pp2 h1 h2 m H1 H2. cbv beta.
      destruct (getValidMoves_spec b (snd pp1) ep cr Hwf (Hin _ H1))
        as (vs1 & -> & _ & _).
      destruct (getValidMoves_spec b (snd pp2) ep cr Hwf (Hin _ H2))
        as (vs2 & -> & _ & _). cbn [bind]. intros [= <-] [= <-].
      intros (t1 & -> & _)%list_elem_of_fmap (t2 & [= ? ? ?] & _)%list_elem_of_fmap.
      destruct pp1, pp2; simpl in *; congruence.
  - intros m. split; [apply H|]. intros (Hp & Hc & Hv).
    assert ((piece m, from m) ∈ ps) as Hm by by apply Hpp.
    destruct (getValidMoves_spec b (from m) ep cr Hwf (Hin _ Hm))
      as (vs & Hvs' & _ & Hvs).
    eapply (concatM_elem_2 _ _ _ (piece m, from m)); [done | done | |].
    + cbn [fst snd]. rewrite Hvs'. cbn [bind]. reflexivity.
    + cbn [fst snd]. apply list_elem_of_fmap. exists (to m).
      split; [by destruct m | by apply Hvs].
Qed.

End Enumeration.

Lemma findM_existsM {A} (f : A -> result bool) l r :
  findM f l = Ok r ->
  existsM f l = Ok (match r with Some _ => true | None => false end).
Proof.
  induction l as [|x l IH]; simpl; [by intros [= <-]|].
  destruct (f x) as [[|]|]; simpl; [by intros [= <-] | done | done].
Qed.

Lemma existsM_findM {A} (f : A -> result bool) l v :
  existsM f l = Ok v ->
  exists r, findM f l = Ok r /\
            v = match r with Some _ => true | None => false end.
Proof.
  induction l as [|x l IH]; simpl; [intros [= <-]; by exists None|].
  destruct (f x) as [[|]|]; simpl; [|done|done].
  intros [= <-]. by exists (Some x).
Qed.

Section StatusFacts.

Variable strict : bool.

(** X6.  On a board of the game, for a source square of the board,
    [getValidMoves] returns the destinations [isValidMove] accepts: each
    of them once, and no other square; for a source square that holds
    no piece it returns the empty list. *)
Theorem getValidMoves_exact b from_ ep cr :
  wf_board b -> inBounds b from_ ->
  exists ms,
    getValidMoves strict b from_ ep cr = Ok ms /\
    NoDup ms /\
    (forall t, t ∈ ms <-> isValidMove strict b from_ t ep cr = Ok true) /\
    (isPiece (pieceAt b from_) = false -> ms = []).
Proof.
  intros Hwf Hin.
  destruct (getValidMoves_spec strict b from_ ep cr Hwf Hin)
    as (ms & Hms & Hnd & Hiff).
  exists ms. split; [done|]. split; [done|]. split; [done|].
  intros Hnone. destruct ms as [|t ms]; [done|].
  assert (t ∈ t :: ms) as Ht%Hiff by (apply elem_of_cons; by left).
  apply isValidMove_true in Ht as (p & Hp & _); [|done].
  by rewrite Hp in Hnone.
Qed.

(** X7.  On a board of the game [getAllLegalMoves] returns the legal
    moves of a colour, each once: a move is listed exactly when its
    piece is the piece of that colour standing on its source square and
    [isValidMove] accepts it. *)
Theorem getAllLegalMoves_exact b c ep cr :
  wf_board b ->
  exists ms,
    getAllLegalMoves strict b c ep cr = Ok ms /\ NoDup ms /\
    forall m, m ∈ ms <->
      pieceAt b (from m) = Pc (piece m) /\ color (piece m) = c /\
      isValidMove strict b (from m) (to m) ep cr = Ok true.
Proof. apply getAllLegalMoves_spec. Qed.

Lemma getAllLegalMoves_empty b c ep cr :
  wf_board b ->
  getAllLegalMoves strict b c ep cr = Ok [] <-> noLegalMove strict b c ep cr.
Proof.
  intros Hwf.
  destruct (getAllLegalMoves_spec strict b c ep cr Hwf) as (ms & Hms & _ & H).
  rewrite Hms. split.
  - intros [= ->] from_ to_ p Hp Hc.
    pose proof (pieceAt_inBounds b from_ p Hwf Hp) as Hin.
    destruct (isValidMove_ok strict b from_ to_ ep cr Hwf Hin) as [[|] Hv];
      [|done].
    assert (mkMove from_ to_ p ∈ []) as Hm by by apply H.
    by apply elem_of_nil in Hm.
  - intros Hno. destruct ms as [|m ms]; [done|].
    assert (m ∈ m :: ms) as (Hp & Hc & Hv)%H by (apply elem_of_cons; by left).
    rewrite (Hno _ (to m) _ Hp Hc) in Hv. done.
Qed.

(** X8.  On a board of the game [isCheckmate] is true exactly when the
    king of the colour is in check and no piece of the colour has a
    legal move, and [isStalemate] exactly when the king is not in check
    and no piece of the colour has a legal move; the two are never true
    together. *)
Theorem checkmate_stalemate_rule b c ep cr :
  wf_board b ->
  (isCheckmate strict b c ep cr = Ok true <->
   isKingInCheck strict b c = Ok true /\ noLegalMove strict b c ep cr) /\
  (isStalemate strict b c ep cr = Ok true <->
   isKingInCheck strict b c = Ok false /\ noLegalMove strict b c ep cr) /\
  ~ (isCheckmate strict b c ep cr = Ok true /\
     isStalemate strict b c ep cr = Ok true).
Proof.
  intros Hwf.
  pose proof (getAllLegalMoves_empty b c ep cr Hwf) as Hempty.
  destruct (getAllLegalMoves_spec strict b c ep cr Hwf) as (ms & Hms & _).
  rewrite Hms in Hempty.
  unfold isCheckmate, isStalemate. rewrite Hms.
  destruct (isKingInCheck_ok strict b c Hwf) as [chk ->]. cbn [bind].
  destruct chk; cbn [negb bind].
  - split; [|split].
    + rewrite <- Hempty. destruct ms; simpl; split; try done.
      * by intros [_ [=]].
    + split; [done | by intros [[=] _]].
    + by intros [_ [=]].
  - split; [|split].
    + split; [done | by intros [[=] _]].
    + rewrite <- Hempty. destruct ms; simpl; split; try done.
      by intros [_ [=]].
    + by intros [[=] _].
Qed.

Lemma getCheckStatus_spec b c ep cr :
  wf_board b ->
  exists st,
    getCheckStatus strict b c ep cr = Ok st /\
    isKingInCheck strict b c = Ok (isInCheck st) /\
    isCheckmate strict b c ep cr = Ok (isCheckmateStatus st) /\
    (isInCheck st = false -> checkedKingPosition st = None) /\
    (isInCheck st = true ->
     exists kp, checkedKingPosition st = Some kp /\ inBounds b kp /\
                pieceAt b kp = Pc (mkPiece king c)).
Proof.
  intros Hwf. unfold getCheckStatus, isCheckmate.
  destruct (getAllLegalMoves_spec strict b c ep cr Hwf) as (ms & Hms & _).
  destruct (findKingPosition_ok strict b c Hwf) as (kp & Hkp & Hking).
  pose proof (isKingInCheck_ok strict b c Hwf) as [chk Hchk].
  rewrite Hchk. cbn [bind]. destruct chk; cbn [negb bind].
  - rewrite Hms, Hkp. cbn [bind]. eexists. split; [done|]. simpl.
    split; [done|]. split; [done|]. split; [done|]. intros _.
    unfold isKingInCheck in Hchk. rewrite Hkp in Hchk. cbn [bind] in Hchk.
    destruct kp as [kp|]; [|done]. exists kp. split; [done|].
    destruct (Hking kp eq_refl) as [? ?]. split; [done|].
    by apply isKingOf_eq.
  - eexists. split; [done|]. simpl. done.
Qed.

(** X9.  On a board of the game [getCheckStatus] returns, and its
    fields agree with the separate tests: [isInCheck] is the verdict of
    [isKingInCheck], [isCheckmate] the verdict of [isCheckmate], and
    the reported king position is present exactly when the king is in
    check; it is then a square of the board that holds the king of the
    colour. *)
Theorem getCheckStatus_consistent b c ep cr :
  wf_board b ->
  exists st,
    getCheckStatus strict b c ep cr = Ok st /\
    isKingInCheck strict b c = Ok (isInCheck st) /\
    isCheckmate strict b c ep cr = Ok (isCheckmateStatus st) /\
    (isInCheck st = false -> checkedKingPosition st = None) /\
    (isInCheck st = true ->
     exists kp, checkedKingPosition st = Some kp /\ inBounds b kp /\
                pieceAt b kp = Pc (mkPiece king c)).
Proof. apply getCheckStatus_spec. Qed.

Lemma isKingCaptured_spec b c :
  wf_board b ->
  exists v,
    isKingCaptured strict b c = Ok v /\
    (v = true <-> forall sq, pieceAt b sq <> Pc (mkPiece king c)) /\
    (v = true <-> findKingPosition strict b c = Ok None) /\
    (v = true -> forall ep cr,
       isKingInCheck strict b c = Ok false /\
       isCheckmate strict b c ep cr = Ok false).
Proof.
  intros Hwf.
  destruct (findKingPosition_ok strict b c Hwf) as (kp & Hkp & Hking).
  unfold isKingCaptured, isCheckmate, isKingInCheck. rewrite Hkp.
  unfold findKingPosition in Hkp. rewrite allSquares_wf in * by done.
  cbn [bind] in *.
  pose proof (findM_existsM _ _ _ Hkp) as Hex. rewrite Hex. cbn [bind].
  eexists. split; [done|].
  destruct kp as [kp|]; cbn [negb].
  - split; [|split; [|done]]; (split; [done|]); [|done].
    intros Hno. destruct (Hking kp eq_refl) as [_ Hk%isKingOf_eq].
    by apply Hno in Hk.
  - split; [|split; [done|]].
    + split; [|done]. intros _ sq Hsq.
      pose proof (pieceAt_inBounds b sq _ Hwf Hsq) as Hin.
      apply existsM_false with (x := sq) in Hex;
        [|by apply elem_of_squares_wf].
      rewrite (readCell_wf strict b) in Hex by (done || apply Hin).
      cbn [bind] in Hex. injection Hex as Hex.
      fold (pieceAt b sq) in Hex. rewrite Hsq in Hex.
      by destruct c.
    + done.
Qed.

(** X10.  On a board of the game [isKingCaptured] is true exactly when
    no square holds the king of the colour, which is when
    [findKingPosition] finds nothing; the king of such a colour is
    never reported in check or checkmate. *)
Theorem isKingCaptured_no_king b c :
  wf_board b ->
  exists v,
    isKingCaptured strict b c = Ok v /\
    (v = true <-> forall sq, pieceAt b sq <> Pc (mkPiece king c)) /\
    (v = true <-> findKingPosition strict b c = Ok None) /\
    (v = true -> forall ep cr,
       isKingInCheck strict b c = Ok false /\
       isCheckmate strict b c ep cr = Ok false).
Proof. apply isKingCaptured_spec. Qed.

End StatusFacts.

Lemma checkmate_stalemate_rule_witness :
  isKingInCheck false initial9x8 white = Ok false /\
  isStalemate false initial9x8 white None (Some getInitialCastlingRights)
  <> Ok true.
Proof.
  split; [vm_compute; reflexivity|].
  destruct (checkmate_stalemate_rule false initial9x8 white None
              (Some getInitialCastlingRights))
    as (_ & H & _); [vm_compute; reflexivity|].
  intros Hs. apply (proj1 H) in Hs as [_ Hno].
  specialize (Hno (mkPos 6 4) (mkPos 5 4) (mkPiece pawn white)
                eq_refl eq_refl).
  vm_compute in Hno. discriminate.
Defined.

Lemma getCheckStatus_consistent_witness :
  exists st,
    getCheckStatus false initial9x8 white None None = Ok st /\
    isInCheck st = false /\ checkedKingPosition st = None.
Proof.
  destruct (getCheckStatus_consistent false initial9x8 white None None)
    as (st & Hst & Hchk & _ & Hnone & _); [vm_compute; reflexivity|].
  exists st. split; [done|].
  assert (isInCheck st = false) as Hf.
  { vm_compute in Hchk. by injection Hchk. }
  split; [done | by apply Hnone].
Defined.

Lemma isKingCaptured_no_king_witness :
  exists v, isKingCaptured false initial9x8 white = Ok v /\ v <> true.
Proof.
  destruct (isKingCaptured_no_king false initial9x8 white) as (v & Hv & H & _);
    [vm_compute; reflexivity|].
  exists v. split; [done|]. intros Hno.
  pose proof (proj1 H Hno (mkPos 7 4)) as Hk. by apply Hk.
Defined.


(** ** The board after a move *)

Section Moved.

Variable strict : bool.

Ltac moved_done :=
  eexists; split; [reflexivity|]; cbn [newBoard specialMove captured];
  split; [reflexivity|]; split; [done|]; split; [lia|]; split; [done|];
  intros r' c'; unfold movedCell; cbn [row col]; cells_back;
  split_eqb; cbn [andb]; first [done | lia].

Lemma executeMove_cells b from_ to_ cr ep promo p :
  wf_board b -> inBounds b from_ -> inBounds b to_ ->
  pieceAt b from_ = Pc p ->
  (type p = pawn -> matchesTarget to_ ep = true ->
   0 <= capturedPawnRow (color p) to_ < boardRows b) ->
  exists r,
    executeMove strict b from_ to_ cr ep promo = Ok r /\
    getSpecialMoveType strict b from_ to_ ep = Ok (specialMove r) /\
    wf_board (newBoard r) /\
    boardRows (newBoard r) = boardRows b /\
    captured r = capturedCell b to_ p (specialMove r) /\
    forall r' c',
      cellAt (newBoard r) r' c' =
      movedCell b from_ to_ promo p (specialMove r) r' c'.
Proof.
  intros Hwf [Hfr Hfc] [Htr Htc] Hp Hep.
  unfold pieceAt in Hp.
  unfold executeMove, getSpecialMoveType.
  rewrite !(readCell_wf strict b (row from_) (col from_)) by done.
  rewrite Hp. cbn [bind].
  rewrite (readCell_wf strict b (row to_) (col to_)) by done. cbn [bind].
  destruct (type_eqb (type p) king && (Z.abs (col to_ - col from_) =? 2))
    eqn:Hcas.
  - apply andb_true_iff in Hcas as [Ht%type_eqb_eq Hc%Z.eqb_eq].
    cbn [bind isSpecial orb fst snd].
    unfold rookFromCol, rookToCol.
    destruct (Z.ltb_spec (col from_) (col to_)) as [Hside|Hside];
      cbn [bind isSpecial orb fst snd]; run_steps; moved_done.
  - destruct (type_eqb (type p) pawn) eqn:Ht; cbn [andb].
    + apply type_eqb_eq in Ht. specialize (Hep Ht).
      destruct (matchesTarget to_ ep) eqn:Hm;
        cbn [bind isSpecial orb fst snd].
      * specialize (Hep eq_refl). run_steps. moved_done.
      * destruct (row to_ =? lastRankFor b (color p));
          cbn [bind isSpecial orb fst snd]; run_steps; moved_done.
    + cbn [bind isSpecial orb fst snd]. run_steps. moved_done.
Qed.

Lemma pos_eqb_neq p q : p <> q -> pos_eqb p q = false.
Proof.
  intros Hne. destruct (pos_eqb p q) eqn:He; [|done].
  by apply pos_eqb_eq in He.
Qed.

Lemma pos_eqb_refl p : pos_eqb p p = true.
Proof. by apply pos_eqb_eq. Qed.

Lemma accepted_capturedPawnRow b from_ to_ ep cr p :
  wf_board b -> isValidMoveBasic strict b from_ to_ ep cr = Ok true ->
  pieceAt b from_ = Pc p -> type p = pawn ->
  0 <= capturedPawnRow (color p) to_ < boardRows b.
Proof.
  intros Hwf Hv Hp Ht.
  destruct (isValidMoveBasic_true strict b from_ to_ ep cr Hwf Hv)
    as (p' & Hp' & [Hfr Hfc] & [Htr Htc] & _ & Hpawn & _).
  assert (p' = p) as -> by congruence. specialize (Hpawn Ht).
  unfold capturedPawnRow, pawnDirection in *. destruct (color p); lia.
Qed.

(** X11.  A move accepted by [isValidMoveBasic] on a board of the game
    is always executed: [executeMove] returns a board with the same
    number of rows, nine columns and no hole, and reports the special
    move that [getSpecialMoveType] computes for the same arguments. *)
Theorem executeMove_keeps_shape b from_ to_ cr cr0 ep promo :
  wf_board b ->
  isValidMoveBasic strict b from_ to_ ep cr = Ok true ->
  exists r,
    executeMove strict b from_ to_ cr0 ep promo = Ok r /\
    wf_board (newBoard r) /\
    boardRows (newBoard r) = boardRows b /\
    getSpecialMoveType strict b from_ to_ ep = Ok (specialMove r).
Proof.
  intros Hwf Hv.
  destruct (isValidMoveBasic_true strict b from_ to_ ep cr Hwf Hv)
    as (p & Hp & Hfrom & Hto & _).
  destruct (executeMove_cells b from_ to_ cr0 ep promo p Hwf Hfrom Hto Hp)
    as (r & Hr & Hs & Hwf' & Hrows & _).
  { intros Ht _. by eapply accepted_capturedPawnRow. }
  by exists r.
Qed.

(** X12.  A move that is neither castling nor en passant changes the
    source and the destination only: [executeMove] empties the source,
    puts the moving piece on the destination (for a pawn reaching its
    last rank, the chosen promotion piece in the pawn's colour, never a
    king or a pawn), reports what stood on the destination as captured
    and leaves every other square as it was.  No rule is checked: the
    move need not be one [isValidMove] accepts. *)
Theorem executeMove_plain_move b from_ to_ cr ep promo p :
  wf_board b -> inBounds b from_ -> inBounds b to_ ->
  pieceAt b from_ = Pc p ->
  getSpecialMoveType strict b from_ to_ ep = Ok None \/
  getSpecialMoveType strict b from_ to_ ep = Ok (Some promotion) ->
  exists r,
    executeMove strict b from_ to_ cr ep promo = Ok r /\
    captured r = pieceAt b to_ /\
    pieceAt (newBoard r) from_ = Null /\
    (from_ <> to_ ->
     (specialMove r = None -> pieceAt (newBoard r) to_ = Pc p) /\
     (specialMove r = Some promotion ->
      pieceAt (newBoard r) to_ = Pc (mkPiece (promoType promo) (color p)) /\
      promoType promo <> king /\ promoType promo <> pawn)) /\
    (forall sq, sq <> from_ -> sq <> to_ ->
                pieceAt (newBoard r) sq = pieceAt b sq).
Proof.
  intros Hwf Hfrom Hto Hp Hs.
  destruct (executeMove_cells b from_ to_ cr ep promo p Hwf Hfrom Hto Hp)
    as (r & Hr & Hs' & _ & _ & Hcap & Hcells).
  { intros Ht Hm. exfalso. unfold getSpecialMoveType in Hs.
    rewrite (readCell_wf strict b (row from_) (col from_)) in Hs
      by (done || apply Hfrom).
    fold (pieceAt b from_) in Hs. rewrite Hp in Hs. cbn [bind] in Hs.
    rewrite Ht, Hm in Hs. cbn in Hs. by destruct Hs. }
  exists r. split; [done|].
  assert (specialMove r = None \/ specialMove r = Some promotion) as Hsr.
  { rewrite Hs' in Hs. destruct Hs as [[= ->]|[= ->]]; auto. }
  assert (forall sq, pieceAt (newBoard r) sq =
            if pos_eqb sq from_ then Null
            else if pos_eqb sq to_ then
              match specialMove r with
              | Some promotion => Pc (mkPiece (promoType promo) (color p))
              | _ => Pc p
              end
            else pieceAt b sq) as Hsq.
  { intros sq. unfold pieceAt. rewrite Hcells. unfold movedCell.
    fold (pos_eqb sq from_). fold (pos_eqb sq to_).
    by destruct Hsr as [-> | ->]. }
  split; [rewrite Hcap; by destruct Hsr as [Hx | Hx]; rewrite Hx|].
  split; [by rewrite Hsq, pos_eqb_refl|].
  split.
  - intros Hne. rewrite Hsq, (pos_eqb_neq to_ from_), pos_eqb_refl by done.
    split; [by intros ->|]. intros ->. split; [done|]. by destruct promo.
  - intros sq H1 H2. by rewrite Hsq, !pos_eqb_neq.
Qed.

(** X13.  A pawn stepping one row ahead onto the en passant target is
    executed as an en passant capture: the pawn lands on the target,
    its source square and the square beside it, on the source row and
    the destination column, are emptied, the piece that stood there is
    the one reported as captured, and nothing else changes; the pawn is
    not promoted. *)
Theorem executeMove_en_passant b from_ to_ cr promo p :
  wf_board b -> inBounds b from_ -> inBounds b to_ ->
  pieceAt b from_ = Pc p -> type p = pawn ->
  row to_ = row from_ + pawnDirection (color p) ->
  exists r,
    executeMove strict b from_ to_ cr (Some to_) promo = Ok r /\
    specialMove r = Some enPassant /\
    captured r = pieceAt b (mkPos (row from_) (col to_)) /\
    pieceAt (newBoard r) from_ = Null /\
    pieceAt (newBoard r) to_ = Pc p /\
    pieceAt (newBoard r) (mkPos (row from_) (col to_)) = Null /\
    (forall sq, sq <> from_ -> sq <> to_ ->
                sq <> mkPos (row from_) (col to_) ->
                pieceAt (newBoard r) sq = pieceAt b sq).
Proof.
  intros Hwf Hfrom Hto Hp Ht Hrow.
  assert (capturedPawnRow (color p) to_ = row from_) as Hcpr.
  { unfold capturedPawnRow, pawnDirection in *. destruct (color p); lia. }
  destruct (executeMove_cells b from_ to_ cr (Some to_) promo p
              Hwf Hfrom Hto Hp)
    as (r & Hr & Hs' & _ & _ & Hcap & Hcells).
  { intros _ _. rewrite Hcpr. apply Hfrom. }
  assert (specialMove r = Some enPassant) as Hs.
  { unfold getSpecialMoveType in Hs'.
    rewrite (readCell_wf strict b (row from_) (col from_)) in Hs'
      by (done || apply Hfrom).
    fold (pieceAt b from_) in Hs'. rewrite Hp in Hs'. cbn [bind] in Hs'.
    rewrite Ht in Hs'. cbn [bind type_eqb andb matchesTarget] in Hs'.
    rewrite pos_eqb_refl in Hs'. by injection Hs' as <-. }
  rewrite Hs in *. exists r. split; [done|]. split; [done|].
  assert (from_ <> to_) as Hne.
  { intros ->. unfold pawnDirection in Hrow. destruct (color p); lia. }
  assert (forall sq, pieceAt (newBoard r) sq =
            if pos_eqb sq from_ then Null
            else if pos_eqb sq to_ then Pc p
            else if pos_eqb sq (mkPos (row from_) (col to_)) then Null
            else pieceAt b sq) as Hsq.
  { intros sq. unfold pieceAt. rewrite Hcells. unfold movedCell.
    by rewrite Hcpr. }
  split; [by rewrite Hcap; unfold capturedCell; rewrite Hcpr|].
  split; [by rewrite Hsq, pos_eqb_refl|].
  split; [by rewrite Hsq, (pos_eqb_neq to_ from_), pos_eqb_refl|].
  split.
  - rewrite Hsq, pos_eqb_refl.
    rewrite (pos_eqb_neq _ to_).
    + by destruct (pos_eqb (mkPos (row from_) (col to_)) from_).
    + intros Heq. apply (f_equal row) in Heq. simpl in Heq.
      unfold pawnDirection in Hrow. destruct (color p); lia.
  - intros sq H1 H2 H3. by rewrite Hsq, !pos_eqb_neq.
Qed.

End Moved.

Section Castled.

Variable strict : bool.

(** X14.  A king move over two columns that [isValidMoveBasic] accepts
    is executed as castling: the king goes from column 4 of its home
    row to column 6 (kingside) or 2 (queenside), the rook from column
    8 or 0 to the square the king crossed, column 5 or 3; the two
    squares they left are empty, no piece is captured, every other
    square is unchanged, and both castling rights of the colour are
    gone afterwards. *)
Theorem executeMove_castling b from_ to_ ep cr cr0 promo p :
  wf_board b -> pieceAt b from_ = Pc p -> type p = king ->
  Z.abs (col to_ - col from_) = 2 ->
  isValidMoveBasic strict b from_ to_ ep cr = Ok true ->
  exists r,
    executeMove strict b from_ to_ cr0 ep promo = Ok r /\
    specialMove r = Some (if kingsideMove from_ to_
                          then castleKingside else castleQueenside) /\
    captured r = Null /\
    from_ = mkPos (homeRow b (color p)) 4 /\
    to_ = mkPos (homeRow b (color p))
            (if kingsideMove from_ to_ then 6 else 2) /\
    pieceAt (newBoard r) to_ = Pc p /\
    pieceAt (newBoard r)
      (mkPos (homeRow b (color p)) (if kingsideMove from_ to_ then 5 else 3))
    = Pc (mkPiece rook (color p)) /\
    pieceAt (newBoard r) from_ = Null /\
    pieceAt (newBoard r)
      (mkPos (homeRow b (color p)) (if kingsideMove from_ to_ then 8 else 0))
    = Null /\
    (forall sq,
       row sq <> homeRow b (color p) \/
       (col sq <> 4 /\
        if kingsideMove from_ to_
        then col sq <> 5 /\ col sq <> 6 /\ col sq <> 8
        else col sq <> 0 /\ col sq <> 2 /\ col sq <> 3) ->
       pieceAt (newBoard r) sq = pieceAt b sq) /\
    rightFor (color p) true (newCastlingRights r) = false /\
    rightFor (color p) false (newCastlingRights r) = false.
Proof.
  intros Hwf Hp Ht Hc Hv.
  destruct (isValidMoveBasic_true strict b from_ to_ ep cr Hwf Hv)
    as (p' & Hp' & Hfrom & Hto & _ & _ & Hking).
  assert (p' = p) as -> by congruence.
  destruct (Hking Ht Hc)
    as (Hrow & cr' & _ & (Hhr & Hhc) & _ & _ & Hrook & Hbetween & _).
  destruct (executeMove_cells strict b from_ to_ cr0 ep promo p
              Hwf Hfrom Hto Hp)
    as (r & Hr & Hs & _ & _ & Hcap & Hcells).
  { intros Ht'. congruence. }
  exists r. split; [done|].
  assert (readCell strict b (row from_) (col from_) = Ok (Pc p)) as Hread.
  { rewrite readCell_wf by (done || apply Hfrom). by rewrite <- Hp. }
  destruct (executeMove_fields strict b from_ to_ cr0 ep promo p r Hread Hr)
    as [Hrights _].
  unfold getSpecialMoveType in Hs. rewrite Hread in Hs. cbn [bind] in Hs.
  rewrite Ht, Hc in Hs. cbn [type_eqb andb Z.eqb Pos.eqb] in Hs.
  injection Hs as Hs. rewrite <- Hs in *.
  unfold kingsideMove in *.
  assert (forall k, rightFor (color p) k (newCastlingRights r) = false)
    as Hlost.
  { intros k. rewrite Hrights, !rookGone_right, kingMoved_right.
    assert (isKingOf (color p) (Pc p) = true) as ->.
    { apply isKingOf_eq. destruct p; simpl in *; by subst. }
    by rewrite andb_false_r. }
  unfold pieceAt in *. cbn [row col].
  destruct from_ as [fr fc], to_ as [tr tc]; cbn [row col] in *. subst fc fr.
  set (home := homeRow b (color p)) in *.
  destruct (Z.ltb_spec 4 tc) as [Hside|Hside].
  - assert (tc = 6) as -> by lia. subst tr.
    assert (cellAt b home 6 = Null) as H6 by (apply Hbetween; lia).
    split; [done|]. split; [by rewrite Hcap|].
    split; [done|]. split; [done|].
    rewrite !Hcells. unfold movedCell. cbn [row col].
    rewrite !Z.eqb_refl. cbn [andb Z.eqb Pos.eqb Z.sub Z.add Z.pos_sub
      Pos.pred_double Z.pred_double Z.succ_double Z.double].
    rewrite ?andb_false_r. simpl Z.eqb.
    rewrite ?andb_false_r, ?Z.eqb_refl.
    split; [done|]. split; [done|]. split; [done|]. split; [done|].
    split; [|split; apply Hlost].
    intros sq Hsq. rewrite Hcells. unfold movedCell. cbn [row col].
    change (6 - 1) with 5.
    destruct (Z.eqb_spec (row sq) home), (Z.eqb_spec (col sq) 4),
      (Z.eqb_spec (col sq) 5), (Z.eqb_spec (col sq) 6),
      (Z.eqb_spec (col sq) 8); cbn [andb]; try done; lia.
  - assert (tc = 2) as -> by lia. subst tr.
    assert (cellAt b home 2 = Null) as H2 by (apply Hbetween; lia).
    split; [done|]. split; [by rewrite Hcap|].
    split; [done|]. split; [done|].
    rewrite !Hcells. unfold movedCell. cbn [row col].
    rewrite !Z.eqb_refl. simpl Z.eqb. simpl Z.add.
    rewrite ?andb_false_r, ?Z.eqb_refl.
    split; [done|]. split; [done|]. split; [done|]. split; [done|].
    split; [|split; apply Hlost].
    intros sq Hsq. rewrite Hcells. unfold movedCell. cbn [row col].
    change (2 + 1) with 3.
    destruct (Z.eqb_spec (row sq) home), (Z.eqb_spec (col sq) 4),
      (Z.eqb_spec (col sq) 0), (Z.eqb_spec (col sq) 2),
      (Z.eqb_spec (col sq) 3); cbn [andb]; try done; lia.
Qed.

End Castled.

(** ** The computer player *)

Section Player.

Variable strict : bool.
Variable flt : Type.
Variables fadd fmul : flt -> flt -> flt.
Variable fneg : flt -> flt.
Variable fofZ : Z -> flt.
Variables f0_1 f0_05 f0_5 : flt.
Variable fleb : flt -> flt -> bool.

Local Abbreviation search :=
  (minimax strict flt fadd fmul fneg fofZ f0_1 f0_05 fleb).

Local Abbreviation playable := (playable strict).

Lemma playable_cons b ep cr m ms :
  playable b ep cr (m :: ms) ->
  (exists res, executeMove strict b (from m) (to m) cr ep promoQueen = Ok res
               /\ wf_board (newBoard res)) /\
  playable b ep cr ms.
Proof.
  intros H. split; [apply H, elem_of_cons; by left|].
  intros m' Hm'. apply H, elem_of_cons. by right.
Qed.

Lemma maxLoop_ok rec b ep cr :
  (forall b' lo hi mx ep' cr', wf_board b' -> isOk (rec b' lo hi mx ep' cr')) ->
  forall ms best alpha beta,
    playable b ep cr ms ->
    isOk (maxLoop strict flt fleb rec b ep cr ms best alpha beta).
Proof.
  intros Hrec. induction ms as [|m ms IH]; intros best alpha beta Hms;
    simpl; [apply isOk_Ok|].
  apply playable_cons in Hms as [(res & -> & Hwf) Hms]. cbn [bind].
  destruct (Hrec (newBoard res) alpha beta false (newEnPassantTarget res)
              (newCastlingRights res) Hwf) as [v ->]. cbn [bind].
  destruct (sleb _ _ _ _); [apply isOk_Ok | by apply IH].
Qed.

Lemma minLoop_ok rec b ep cr :
  (forall b' lo hi mx ep' cr', wf_board b' -> isOk (rec b' lo hi mx ep' cr')) ->
  forall ms best alpha beta,
    playable b ep cr ms ->
    isOk (minLoop strict flt fleb rec b ep cr ms best alpha beta).
Proof.
  intros Hrec. induction ms as [|m ms IH]; intros best alpha beta Hms;
    simpl; [apply isOk_Ok|].
  apply playable_cons in Hms as [(res & -> & Hwf) Hms]. cbn [bind].
  destruct (Hrec (newBoard res) alpha beta true (newEnPassantTarget res)
              (newCastlingRights res) Hwf) as [v ->]. cbn [bind].
  destruct (sleb _ _ _ _); [apply isOk_Ok | by apply IH].
Qed.

Lemma minimax_ok n :
  forall b alpha beta isMaximizing ep cr,
    wf_board b -> isOk (search n b alpha beta isMaximizing ep cr).
Proof.
  induction n as [|n IH]; intros b alpha beta isMaximizing ep cr Hwf; simpl.
  - destruct (evaluateBoard_ok strict flt fadd fmul fneg fofZ f0_1 f0_05
                b ep (Some cr) Hwf) as [v ->]. apply isOk_Ok.
  - set (c := if isMaximizing then black else white).
    destruct (isCheckmate_ok strict b c ep (Some cr) Hwf) as [mate ->].
    cbn [bind]. destruct mate; [apply isOk_Ok|].
    destruct (getAllLegalMoves_ok strict b c ep (Some cr) Hwf)
      as (ms & Hms & _).
    unfold getAllMoves. rewrite Hms. cbn [bind].
    destruct (isEmptyList ms); [apply isOk_Ok|].
    assert (playable b ep cr ms) as Hplay.
    { intros m Hm. by eapply executeMove_legal. }
    destruct isMaximizing; [by apply maxLoop_ok | by apply minLoop_ok].
Qed.

Lemma aiLoop_ok difficulty b ep cr random :
  forall ms i bestMove bestScore,
    playable b ep cr ms ->
    exists m,
      aiLoop strict flt fadd fmul fneg fofZ f0_1 f0_05 f0_5 fleb
        difficulty b ep cr random i ms bestMove bestScore = Ok m /\
      (m = bestMove \/ m ∈ ms).
Proof.
  induction ms as [|m ms IH]; intros i bestMove bestScore Hms; simpl.
  - exists bestMove. by split; [|left].
  - apply playable_cons in Hms as [(res & -> & Hwf) Hms]. cbn [bind].
    destruct (minimax_ok difficulty (newBoard res) NegInf PosInf false
                (newEnPassantTarget res) (newCastlingRights res) Hwf)
      as [v ->]. cbn [bind].
    destruct (negb _).
    + destruct (IH (S i) m (sadd flt fadd v (fmul (random i) f0_5)) Hms)
        as (m' & -> & Hm'). exists m'. split; [done|]. right.
      apply elem_of_cons. destruct Hm'; auto.
    + destruct (IH (S i) bestMove bestScore Hms) as (m' & -> & Hm').
      exists m'. split; [done|]. destruct Hm'; [by left|].
      right. apply elem_of_cons. auto.
Qed.

Lemma getAIMove_spec b difficulty ep cr random :
  wf_board b ->
  exists res,
    getAIMove strict flt fadd fmul fneg fofZ f0_1 f0_05 f0_5 fleb
      b difficulty ep cr random = Ok res /\
    (res = None <-> noLegalMove strict b black ep (Some cr)) /\
    (forall m, res = Some m ->
       pieceAt b (from m) = Pc (piece m) /\ color (piece m) = black /\
       isValidMove strict b (from m) (to m) ep (Some cr) = Ok true).
Proof.
  intros Hwf. unfold getAIMove, getAllMoves.
  pose proof (getAllLegalMoves_empty strict b black ep (Some cr) Hwf)
    as Hempty.
  destruct (getAllLegalMoves_ok strict b black ep (Some cr) Hwf)
    as (ms & Hms & Hlegal).
  rewrite Hms in *. cbn [bind].
  destruct ms as [|m0 ms].
  - exists None. split; [done|]. split; [|done].
    split; [intros _; by apply Hempty | done].
  - assert (playable b ep cr (m0 :: ms)) as Hplay.
    { intros m Hm. by eapply executeMove_legal. }
    destruct (aiLoop_ok difficulty b ep cr random (m0 :: ms) 0%nat m0 NegInf
                Hplay) as (m & -> & Hm). cbn [bind].
    exists (Some m). split; [done|]. split.
    + split; [done|]. by intros [=]%Hempty.
    + intros m' [= <-]. apply Hlegal.
      destruct Hm as [->|Hm]; [apply elem_of_cons; by left | done].
Qed.

(** X15.  On a board of the game [getAIMove] always returns, whatever
    the depth, the random numbers and the arithmetic of the scores.  It
    returns no move exactly when black has no legal move; otherwise the
    move it returns is a legal move of a black piece: its piece is the
    piece on its source square and [isValidMove] accepts it. *)
Theorem getAIMove_plays_legal b difficulty ep cr random :
  wf_board b ->
  exists res,
    getAIMove strict flt fadd fmul fneg fofZ f0_1 f0_05 f0_5 fleb
      b difficulty ep cr random = Ok res /\
    (res = None <-> noLegalMove strict b black ep (Some cr)) /\
    (forall m, res = Some m ->
       pieceAt b (from m) = Pc (piece m) /\ color (piece m) = black /\
       isValidMove strict b (from m) (to m) ep (Some cr) = Ok true).
Proof. apply getAIMove_spec. Qed.

End Player.

Lemma getAIMove_plays_legal_witness :
  exists res,
    getAIMove false Z Z.add (fun x y => x * y / 100) Z.opp (Z.mul 100) 10 5 50
      Z.leb pawnEnding 1 None getInitialCastlingRights (fun _ => 0) = Ok res /\
    (res = None <->
     noLegalMove false pawnEnding black None (Some getInitialCastlingRights)) /\
    (forall m, res = Some m ->
       pieceAt pawnEnding (from m) = Pc (piece m) /\
       color (piece m) = black /\
       isValidMove false pawnEnding (from m) (to m) None
         (Some getInitialCastlingRights) = Ok true).
Proof.
  apply (getAIMove_plays_legal false Z Z.add (fun x y => x * y / 100) Z.opp
           (Z.mul 100) 10 5 50 Z.leb pawnEnding 1 None
           getInitialCastlingRights (fun _ => 0)).
  vm_compute. reflexivity.
Defined.

Section Window.

Variable strict : bool.
Variable flt : Type.
Variables fadd fmul : flt -> flt -> flt.
Variable fneg : flt -> flt.
Variable fofZ : Z -> flt.
Variables f0_1 f0_05 : flt.
Variable fleb : flt -> flt -> bool.

Hypothesis fleb_total : forall x y, fleb x y = true \/ fleb y x = true.
Hypothesis fleb_trans :
  forall x y z, fleb x y = true -> fleb y z = true -> fleb x z = true.
Hypothesis fleb_antisym :
  forall x y, fleb x y = true -> fleb y x = true -> x = y.

Local Abbreviation sle := (sleb flt fleb).

(** X16.  With any window [alpha < beta], on a board of the game and
    for scores that are totally ordered, [minimax] returns, and its
    result relates to the value of the full tree without pruning as a
    fail-soft search does: a result strictly inside the window is that
    value; a result at or below [alpha] is an upper bound of it; a
    result at or above [beta] is a lower bound of it. *)
Theorem minimax_window n b isMaximizing ep cr alpha beta :
  wf_board b -> sle beta alpha = false ->
  exists v r,
    bruteForceMinimax strict flt fadd fmul fneg fofZ f0_1 f0_05 fleb
      n b isMaximizing ep cr = Ok v /\
    minimax strict flt fadd fmul fneg fofZ f0_1 f0_05 fleb
      n b alpha beta isMaximizing ep cr = Ok r /\
    (sle r alpha = false -> sle beta r = false -> r = v) /\
    (sle r alpha = true -> sle v r = true) /\
    (sle beta r = true -> sle r v = true).
Proof.
  intros Hwf Hw.
  destruct (minimax_bounded strict flt fadd fmul fneg fofZ f0_1 f0_05 fleb
              fleb_total fleb_trans fleb_antisym n b isMaximizing ep cr
              alpha beta Hwf Hw) as (v & r & Hv & Hr & H1 & H2 & H3).
  exists v, r. split; [done|]. split; [done|].
  split; [|done]. intros Ha Hb. symmetry. by apply H3.
Qed.

End Window.

Lemma minimax_window_witness :
  exists v r,
    bruteForceMinimax false Z Z.add (fun x y => x * y / 100) Z.opp
      (Z.mul 100) 10 5 Z.leb 2 pawnEnding true None getInitialCastlingRights
    = Ok v /\
    minimax false Z Z.add (fun x y => x * y / 100) Z.opp (Z.mul 100) 10 5
      Z.leb 2 pawnEnding (Fin 0) (Fin 50) true None getInitialCastlingRights
    = Ok r /\
    (sleb Z Z.leb r (Fin 0) = false -> sleb Z Z.leb (Fin 50) r = false ->
     r = v) /\
    (sleb Z Z.leb r (Fin 0) = true -> sleb Z Z.leb v r = true) /\
    (sleb Z Z.leb (Fin 50) r = true -> sleb Z Z.leb r v = true).
Proof.
  apply (minimax_window false Z Z.add (fun x y => x * y / 100) Z.opp
           (Z.mul 100) 10 5 Z.leb
           ltac:(intros; lia) ltac:(intros; lia) ltac:(intros; lia)
           2%nat pawnEnding true None getInitialCastlingRights
           (Fin 0) (Fin 50)); vm_compute; reflexivity.
Defined.

(** ** The position signature *)

Lemma append_assoc (s1 s2 s3 : string) :
  (s1 +:+ s2) +:+ s3 = s1 +:+ (s2 +:+ s3).
Proof.
  induction s1 as [|a s1 IH]; [done|].
  change (String a ((s1 +:+ s2) +:+ s3) = String a (s1 +:+ (s2 +:+ s3))).
  by f_equal.
Qed.

Lemma pretty_digit z :
  0 <= z <= 9 -> exists a, pretty z = String a "".
Proof.
  intros Hz.
  assert (z = 0 \/ z = 1 \/ z = 2 \/ z = 3 \/ z = 4 \/ z = 5 \/ z = 6 \/
          z = 7 \/ z = 8 \/ z = 9) as H by lia.
  repeat (destruct H as [->|H]; [eexists; vm_compute; reflexivity|]).
  subst. eexists. vm_compute. reflexivity.
Qed.

(** The part of the signature after the board: side to move, castling
    flags, en passant target. *)
Lemma getBoardPositionHash_suffix strict b c cr ep h :
  getBoardPositionHash strict b c cr ep = Ok h ->
  exists h0,
    hashSquares strict b (gridSquares b) "" = Ok h0 /\
    h = h0 +:+ (colorLetter c +:+
                (if whiteKingside cr then "K" else "") +:+
                (if whiteQueenside cr then "Q" else "") +:+
                (if blackKingside cr then "k" else "") +:+
                (if blackQueenside cr then "q" else "") +:+
                match ep with
                | Some e => "e" +:+ pretty (row e) +:+ pretty (col e)
                | None => ""
                end).
Proof.
  unfold getBoardPositionHash. intros H.
  apply bind_Ok_inv in H as (h0 & Hh0 & [= <-]).
  exists h0. split; [done|].
  destruct ep; rewrite ?append_assoc; [done|].
  assert (forall s, s +:+ "" = s) as Hnil.
  { induction s as [|a s IH]; [done|].
    change (String a (s +:+ "") = String a s). by f_equal. }
  by rewrite !Hnil.
Qed.

(** X17.  For one board, the signature tells the side to move, the four
    castling rights and the en passant target apart: two states of the
    same board that differ in one of them have different signatures,
    provided the coordinates of the targets are single digits (boards
    of at most ten rows and columns). *)
Theorem getBoardPositionHash_same_board strict b c1 cr1 ep1 c2 cr2 ep2 h1 h2 :
  oneDigit ep1 -> oneDigit ep2 ->
  getBoardPositionHash strict b c1 cr1 ep1 = Ok h1 ->
  getBoardPositionHash strict b c2 cr2 ep2 = Ok h2 ->
  (c1, cr1, ep1) <> (c2, cr2, ep2) ->
  h1 <> h2.
Proof.
  intros Hd1 Hd2 H1 H2 Hne Heq. apply Hne. clear Hne. subst h2.
  apply getBoardPositionHash_suffix in H1 as (h0 & Hh0 & ->).
  apply getBoardPositionHash_suffix in H2 as (h0' & Hh0' & Heq).
  assert (h0' = h0) as -> by congruence.
  apply (inj (String.append h0)) in Heq.
  destruct cr1 as [a1 b1 d1 e1], cr2 as [a2 b2 d2 e2]. cbn in Heq.
  destruct ep1 as [[r1 k1]|], ep2 as [[r2 k2]|]; cbn in Hd1, Hd2, Heq.
  - destruct Hd1 as [[x1 Hx1]%pretty_digit [y1 Hy1]%pretty_digit].
    destruct Hd2 as [[x2 Hx2]%pretty_digit [y2 Hy2]%pretty_digit].
    rewrite Hx1, Hy1, Hx2, Hy2 in Heq.
    assert (c1 = c2 /\ a1 = a2 /\ b1 = b2 /\ d1 = d2 /\ e1 = e2 /\
            x1 = x2 /\ y1 = y2) as (-> & -> & -> & -> & -> & -> & ->).
    { destruct c1, c2, a1, a2, b1, b2, d1, d2, e1, e2; cbn in Heq;
        try discriminate; by injection Heq. }
    rewrite <- Hx2 in Hx1. rewrite <- Hy2 in Hy1.
    apply (inj pretty) in Hx1, Hy1. by subst.
  - destruct Hd1 as [[x1 Hx1]%pretty_digit [y1 Hy1]%pretty_digit].
    rewrite Hx1, Hy1 in Heq.
    destruct c1, c2, a1, a2, b1, b2, d1, d2, e1, e2; cbn in Heq;
      discriminate.
  - destruct Hd2 as [[x2 Hx2]%pretty_digit [y2 Hy2]%pretty_digit].
    rewrite Hx2, Hy2 in Heq.
    destruct c1, c2, a1, a2, b1, b2, d1, d2, e1, e2; cbn in Heq;
      discriminate.
  - destruct c1, c2, a1, a2, b1, b2, d1, d2, e1, e2; cbn in Heq;
      try discriminate; done.
Qed.

Lemma getBoardPositionHash_same_board_witness :
  exists h1 h2,
    getBoardPositionHash false (emptyBoard 8) white getInitialCastlingRights
      (Some (mkPos 5 4)) = Ok h1 /\
    getBoardPositionHash false (emptyBoard 8) black getInitialCastlingRights
      (Some (mkPos 5 4)) = Ok h2 /\
    h1 <> h2.
Proof.
  assert (getBoardPositionHash false (emptyBoard 8) white
            getInitialCastlingRights (Some (mkPos 5 4)) = Ok "wKQkqe54")
    as H1 by (vm_compute; reflexivity).
  assert (getBoardPositionHash false (emptyBoard 8) black
            getInitialCastlingRights (Some (mkPos 5 4)) = Ok "bKQkqe54")
    as H2 by (vm_compute; reflexivity).
  exists "wKQkqe54", "bKQkqe54". split; [exact H1|]. split; [exact H2|].
  apply (getBoardPositionHash_same_board false (emptyBoard 8)
           white getInitialCastlingRights (Some (mkPos 5 4))
           black getInitialCastlingRights (Some (mkPos 5 4)) _ _);
    [simpl; lia | simpl; lia | exact H1 | exact H2 | discriminate].
Defined.

(** ** Check detection *)

Section Check.

Variable strict : bool.

Lemma findKingPosition_unique b c kp :
  wf_board b -> pieceAt b kp = Pc (mkPiece king c) ->
  (forall sq, pieceAt b sq = Pc (mkPiece king c) -> sq = kp) ->
  findKingPosition strict b c = Ok (Some kp).
Proof.
  intros Hwf Hk Huniq.
  destruct (findKingPosition_ok strict b c Hwf) as ([p|] & Hr & Hp).
  - destruct (Hp p eq_refl) as [_ Hking%isKingOf_eq].
    by rewrite Hr, (Huniq p Hking).
  - exfalso. unfold findKingPosition in Hr.
    rewrite allSquares_wf in Hr by done. cbn [bind] in Hr.
    apply findM_existsM in Hr.
    pose proof (pieceAt_inBounds b kp _ Hwf Hk) as Hin.
    apply existsM_false with (x := kp) in Hr; [|by apply elem_of_squares_wf].
    rewrite (readCell_wf strict b) in Hr by (done || apply Hin).
    cbn [bind] in Hr. fold (pieceAt b kp) in Hr. rewrite Hk in Hr.
    by destruct c.
Qed.

(** X18.  On a board of the game a square is under attack by a colour
    exactly when some piece of that colour could move to it by the
    attack rules; and when the board holds one king of a colour, that
    king is in check exactly when its square is under attack by the
    other colour. *)
Theorem check_detection b c :
  wf_board b ->
  (forall position,
     isSquareUnderAttack strict b position c = Ok true <->
     exists sq p, pieceAt b sq = Pc p /\ color p = c /\
                  isValidMoveBasicForAttack strict b sq position = Ok true) /\
  (forall kp,
     pieceAt b kp = Pc (mkPiece king c) ->
     (forall sq, pieceAt b sq = Pc (mkPiece king c) -> sq = kp) ->
     isKingInCheck strict b c = isSquareUnderAttack strict b kp (opponent c)).
Proof.
  intros Hwf. split.
  - intros position. split.
    + unfold isSquareUnderAttack. rewrite allSquares_wf by done. cbn [bind].
      intros (sq & Hsq%elem_of_squares_wf & H)%existsM_true.
      rewrite (readCell_wf strict b) in H by (done || apply Hsq).
      cbn [bind] in H. fold (pieceAt b sq) in H.
      destruct (pieceAt b sq) as [| |p] eqn:Hp; try done.
      destruct (color_eqb (color p) c) eqn:Hc; [|done].
      exists sq, p. by apply color_eqb_eq in Hc.
    + intros (sq & p & Hp & Hc & Hatt).
      destruct (isSquareUnderAttack_ok strict b position c Hwf) as [[|] Hv];
        [done|]. exfalso.
      unfold isSquareUnderAttack in Hv. rewrite allSquares_wf in Hv by done.
      cbn [bind] in Hv.
      pose proof (pieceAt_inBounds b sq p Hwf Hp) as Hin.
      apply existsM_false with (x := sq) in Hv;
        [|by apply elem_of_squares_wf].
      rewrite (readCell_wf strict b) in Hv by (done || apply Hin).
      cbn [bind] in Hv. fold (pieceAt b sq) in Hv. rewrite Hp in Hv.
      rewrite (proj2 (color_eqb_eq _ _) Hc) in Hv. congruence.
  - intros kp Hk Huniq. unfold isKingInCheck.
    by rewrite (findKingPosition_unique b c kp).
Qed.

(** X19.  On a board of the game a move that [isValidMove] accepts
    starts from a square of the board that holds a piece, ends on a
    different square of the board, and never lands on a piece of the
    mover's own colour. *)
Theorem isValidMove_never b from_ to_ ep cr :
  wf_board b -> isValidMove strict b from_ to_ ep cr = Ok true ->
  inBounds b from_ /\ inBounds b to_ /\ from_ <> to_ /\
  exists p, pieceAt b from_ = Pc p /\
            forall q, pieceAt b to_ = Pc q -> color q <> color p.
Proof.
  intros Hwf H.
  apply isValidMove_true in H as (p & Hp & Hv & _); [|done].
  destruct (isValidMoveBasic_true strict b from_ to_ ep cr Hwf Hv)
    as (_ & _ & Hfrom & Hto & Hne & _).
  split; [done|]. split; [done|]. split; [done|].
  exists p. split; [done|]. intros q Hq Hcol.
  rewrite (isValidMoveBasic_wf strict b from_ to_ ep cr p) in Hv by done.
  cbv zeta in Hv. rewrite Hq in Hv. cbn [sameColorTarget] in Hv.
  rewrite (proj2 (color_eqb_eq _ _) Hcol) in Hv.
  by destruct (outOfBounds _ _ _).
Qed.

(** X20.  [isPromotionMove] and [getSpecialMoveType] agree on
    promotion except on the en passant target: whenever the special
    move is a promotion [isPromotionMove] is true, and whenever
    [isPromotionMove] is true the special move is a promotion, or an en
    passant capture when the destination is the en passant target. *)
Theorem isPromotionMove_special b from_ to_ ep :
  (getSpecialMoveType strict b from_ to_ ep = Ok (Some promotion) ->
   isPromotionMove strict b from_ to_ = Ok true) /\
  (isPromotionMove strict b from_ to_ = Ok true ->
   if matchesTarget to_ ep
   then getSpecialMoveType strict b from_ to_ ep = Ok (Some enPassant)
   else getSpecialMoveType strict b from_ to_ ep = Ok (Some promotion)).
Proof.
  unfold getSpecialMoveType, isPromotionMove.
  destruct (readCell strict b (row from_) (col from_)) as [[| |p]|];
    cbn [bind]; try done.
  unfold lastRankFor.
  destruct (type p), (color p), (matchesTarget to_ ep);
    cbn [type_eqb andb negb orb color_eqb]; try done;
    rewrite ?orb_false_r;
    (split; [try done|]);
    try (destruct (Z.abs (col to_ - col from_) =? 2),
           (col from_ <? col to_); done);
    try (destruct (row to_ =? _); done).
Qed.

End Check.

Lemma check_detection_witness :
  isSquareUnderAttack false initial9x8 (mkPos 5 2) white = Ok true.
Proof.
  destruct (check_detection false initial9x8 white) as [H _];
    [vm_compute; reflexivity|].
  apply H. exists (mkPos 7 1), (mkPiece knight white).
  repeat split; vm_compute; reflexivity.
Defined.

Lemma isValidMove_never_witness :
  inBounds initial9x8 (mkPos 6 4) /\ inBounds initial9x8 (mkPos 4 4) /\
  mkPos 6 4 <> mkPos 4 4 /\
  exists p, pieceAt initial9x8 (mkPos 6 4) = Pc p /\
            forall q, pieceAt initial9x8 (mkPos 4 4) = Pc q ->
                      color q <> color p.
Proof.
  apply (isValidMove_never false initial9x8 (mkPos 6 4) (mkPos 4 4) None None);
    vm_compute; reflexivity.
Defined.

Lemma isPromotionMove_special_witness :
  isPromotionMove false (boardOf 8 [ (1, 3, mkPiece pawn white) ]%nat)
    (mkPos 1 3) (mkPos 0 3) = Ok true.
Proof.
  apply (isPromotionMove_special false
           (boardOf 8 [ (1, 3, mkPiece pawn white) ]%nat)
           (mkPos 1 3) (mkPos 0 3) None).
  vm_compute. reflexivity.
Defined.


(** ** Further composition properties *)

Section Composition.

Variable strict : bool.

(** X21.  The en passant target [executeMove] returns for a move that
    [isValidMoveBasic] accepts is sound: the moved piece is a pawn, the
    target is a square of the board that is empty on the new board, and
    the square an en passant capture onto it by the other colour would
    clear is the destination of the move, where the piece just moved
    stands. *)
Theorem en_passant_target_sound b from_ to_ ep cr cr0 promo p r t :
  wf_board b -> pieceAt b from_ = Pc p ->
  isValidMoveBasic strict b from_ to_ ep cr = Ok true ->
  executeMove strict b from_ to_ cr0 ep promo = Ok r ->
  newEnPassantTarget r = Some t ->
  type p = pawn /\ inBounds b t /\ pieceAt (newBoard r) t = Null /\
  to_ = mkPos (capturedPawnRow (opponent (color p)) t) (col t) /\
  exists q, pieceAt (newBoard r) to_ = Pc q /\ color q = color p.
Proof.
  intros Hwf Hp Hv Hr Ht.
  pose proof (pieceAt_inBounds b from_ p Hwf Hp) as Hfrom.
  assert (readCell strict b (row from_) (col from_) = Ok (Pc p)) as Hread.
  { rewrite readCell_wf by (done || apply Hfrom). by rewrite <- Hp. }
  destruct (executeMove_fields strict b from_ to_ cr0 ep promo p r Hread Hr)
    as [_ Hep]. rewrite Ht in Hep.
  destruct (type_eqb (type p) pawn && _) eqn:Hd; [|done].
  apply andb_true_iff in Hd as [Hpawn%type_eqb_eq Habs%Z.eqb_eq].
  injection Hep as ->.
  destruct (isValidMoveBasic_double_step strict b from_ to_ ep cr p
              Hwf Hv Hp Hpawn Habs) as [Hcol Hrow].
  pose proof Hv as Hv0.
  apply (isValidMoveBasic_pawn strict b from_ to_ ep cr p Hwf Hp Hpawn)
    in Hv as [Hto Hv].
  destruct Hv as [(_ & ? & _)|[(_ & _ & _ & Hempty & Hmid)|(? & _)]];
    [unfold pawnDirection in *; destruct (color p); lia | | lia].
  destruct (executeMove_cells strict b from_ to_ cr0 ep promo p
              Hwf Hfrom Hto Hp) as (r' & Hr' & Hs & _ & _ & _ & Hcells).
  { intros _ _. by eapply (accepted_capturedPawnRow strict). }
  assert (r' = r) as -> by congruence.
  unfold pieceAt in *. cbn [row col] in *.
  unfold getSpecialMoveType in Hs. rewrite Hread in Hs. cbn [bind] in Hs.
  rewrite Hpawn in Hs. cbn [type_eqb andb] in Hs.
  assert (epRow (color p) to_ = row from_ + pawnDirection (color p)) as Hmr.
  { unfold epRow, pawnDirection in *. destruct (color p); lia. }
  split; [done|]. split.
  { split; cbn [row col]; [|apply Hto].
    destruct Hfrom, Hto. unfold epRow. destruct (color p); simpl in *; lia. }
  split; [|split].
  - rewrite Hcells. unfold movedCell. cbn [row col]. rewrite Hmr.
    replace (row from_ + pawnDirection (color p) =? row from_) with false
      by (unfold pawnDirection; destruct (color p); lia).
    replace (row from_ + pawnDirection (color p) =? row to_) with false
      by (unfold pawnDirection in *; destruct (color p); lia).
    cbn [andb]. rewrite <- Hcol in Hmid. rewrite Hmid.
    destruct (specialMove r) as [[]|]; try done.
    by destruct (_ && _).
  - unfold capturedPawnRow, epRow, opponent. cbn [row col].
    destruct to_ as [tr tc]. cbn [row col]. destruct (color p); f_equal; lia.
  - rewrite Hcells. unfold movedCell. cbn [row col].
    rewrite !Z.eqb_refl. cbn [andb].
    replace (row to_ =? row from_) with false
      by (unfold pawnDirection in *; destruct (color p); lia).
    cbn [andb].
    destruct (specialMove r) as [[]|]; eexists; split; done.
Qed.

Lemma isValidMoveBasic_ep_unused b from_ to_ ep ep' cr p :
  readCell strict b (row from_) (col from_) = Ok (Pc p) -> type p <> pawn ->
  isValidMoveBasic strict b from_ to_ ep cr =
  isValidMoveBasic strict b from_ to_ ep' cr.
Proof.
  intros Hp Ht. unfold isValidMoveBasic.
  destruct (boardCols strict b) as [cols|]; [|done]. cbn [bind].
  destruct (outOfBounds _ _ _); [done|]. rewrite Hp. cbn [bind].
  destruct (readCell strict b (row to_) (col to_)) as [t|]; [|done].
  cbn [bind]. destruct (sameColorTarget t p); [done|].
  destruct (pos_eqb from_ to_); [done|]. by destruct (type p).
Qed.

Lemma isValidMoveBasic_rights_unused b from_ to_ ep cr cr' p :
  readCell strict b (row from_) (col from_) = Ok (Pc p) -> type p <> king ->
  isValidMoveBasic strict b from_ to_ ep cr =
  isValidMoveBasic strict b from_ to_ ep cr'.
Proof.
  intros Hp Ht. unfold isValidMoveBasic.
  destruct (boardCols strict b) as [cols|]; [|done]. cbn [bind].
  destruct (outOfBounds _ _ _); [done|]. rewrite Hp. cbn [bind].
  destruct (readCell strict b (row to_) (col to_)) as [t|]; [|done].
  cbn [bind]. destruct (sameColorTarget t p); [done|].
  destruct (pos_eqb from_ to_); [done|]. by destruct (type p).
Qed.

Lemma simulatedBoard_ep_unused b from_ to_ ep ep' p :
  readCell strict b (row from_) (col from_) = Ok (Pc p) -> type p <> pawn ->
  simulatedBoard strict b from_ to_ ep = simulatedBoard strict b from_ to_ ep'.
Proof.
  intros Hp Ht. unfold simulatedBoard. rewrite Hp. cbn [bind].
  by destruct (type p).
Qed.

(** X22.  The en passant target matters to pawns only and the castling
    rights to kings only: for a piece that is not a pawn [isValidMove]
    returns the same with any en passant target, and for a piece that
    is not a king the same with any castling rights. *)
Theorem isValidMove_unused_state b from_ to_ ep ep' cr cr' p :
  readCell strict b (row from_) (col from_) = Ok (Pc p) ->
  (type p <> pawn ->
   isValidMove strict b from_ to_ ep cr =
   isValidMove strict b from_ to_ ep' cr) /\
  (type p <> king ->
   isValidMove strict b from_ to_ ep cr =
   isValidMove strict b from_ to_ ep cr').
Proof.
  intros Hp. unfold isValidMove, wouldMoveLeaveKingInCheck.
  rewrite Hp. cbn [bind]. split; intros Ht.
  - by rewrite (isValidMoveBasic_ep_unused b from_ to_ ep ep' cr p),
      (simulatedBoard_ep_unused b from_ to_ ep ep' p).
  - by rewrite (isValidMoveBasic_rights_unused b from_ to_ ep cr cr' p).
Qed.

(** X23.  On a board of the game a knight may make a basic move exactly
    when the destination is a square of the board that holds no piece
    of its colour, two rows and one column or one row and two columns
    away.  A king may make a basic move exactly when the destination is
    such a square, other than the source, and either at most one row
    and one column away, or two columns away on the same row with
    castling rights given and the castling precondition met. *)
Theorem king_knight_move_rule b from_ to_ ep cr p :
  wf_board b -> pieceAt b from_ = Pc p ->
  (type p = knight ->
   (isValidMoveBasic strict b from_ to_ ep cr = Ok true <->
    inBounds b to_ /\ sameColorTarget (pieceAt b to_) p = false /\
    (Z.abs (row to_ - row from_) = 2 /\ Z.abs (col to_ - col from_) = 1 \/
     Z.abs (row to_ - row from_) = 1 /\ Z.abs (col to_ - col from_) = 2))) /\
  (type p = king ->
   (isValidMoveBasic strict b from_ to_ ep cr = Ok true <->
    inBounds b to_ /\ sameColorTarget (pieceAt b to_) p = false /\
    from_ <> to_ /\
    (Z.abs (row to_ - row from_) <= 1 /\ Z.abs (col to_ - col from_) <= 1 \/
     row to_ = row from_ /\ Z.abs (col to_ - col from_) = 2 /\
     exists cr', cr = Some cr' /\
                 castlingPrecondition strict b from_ to_ (color p) cr'))).
Proof.
  intros Hwf Hp.
  rewrite (isValidMoveBasic_wf strict b from_ to_ ep cr p) by done.
  cbv zeta.
  destruct (outOfBounds (boardRows b) 9 to_) eqn:Hout.
  { split; intros _; (split; [done|]); intros [Hin _];
      apply outOfBounds_false in Hin; congruence. }
  apply outOfBounds_false in Hout.
  destruct (sameColorTarget (pieceAt b to_) p).
  { split; intros _; (split; [done|]); by intros (_ & ? & _). }
  destruct (pos_eqb from_ to_) eqn:Hpe.
  { apply pos_eqb_eq in Hpe. subst to_.
    split; intros _; (split; [done|]).
    - intros (_ & _ & H). lia.
    - by intros (_ & _ & ? & _). }
  assert (from_ <> to_) as Hne.
  { intros Heq%pos_eqb_eq. congruence. }
  unfold inBounds in *.
  split; intros ->.
  - destruct (Z.eqb_spec (Z.abs (row to_ - row from_)) 2),
             (Z.eqb_spec (Z.abs (col to_ - col from_)) 1),
             (Z.eqb_spec (Z.abs (row to_ - row from_)) 1),
             (Z.eqb_spec (Z.abs (col to_ - col from_)) 2);
      cbn [andb orb];
      (split; [try done; intros _; repeat split; (done || lia)
              | try done; intros (_ & _ & ?); lia]).
  - destruct (Z.leb_spec (Z.abs (row to_ - row from_)) 1),
             (Z.leb_spec (Z.abs (col to_ - col from_)) 1); cbn [andb].
    1: { split; [|done]. intros _.
         split; [done|]. split; [done|]. split; [done|]. left. lia. }
    all: destruct cr as [cr1|];
      [ destruct (Z.eqb_spec (Z.abs (row to_ - row from_)) 0),
                 (Z.eqb_spec (Z.abs (col to_ - col from_)) 2); cbn [andb];
        rewrite ?canCastle_iff
      | ].
    all: split;
      [ first [ done
              | intros Hc;
                split; [done|]; split; [done|]; split; [done|]; right;
                split; [lia|]; split; [lia|]; by exists cr1 ]
      | intros (_ & _ & _ & [?|(? & ? & cr2 & ? & ?)]);
        first [ lia | done | by simplify_eq ] ].
Qed.

End Composition.

Lemma en_passant_target_sound_witness :
  exists r,
    executeMove false initial9x8 (mkPos 6 4) (mkPos 4 4)
      getInitialCastlingRights None promoQueen = Ok r /\
    pieceAt (newBoard r) (mkPos 5 4) = Null.
Proof.
  eexists. split; [vm_compute; reflexivity|].
  match goal with
  | |- pieceAt (newBoard ?r) _ = _ =>
      destruct (en_passant_target_sound false initial9x8 (mkPos 6 4)
                  (mkPos 4 4) None None getInitialCastlingRights promoQueen
                  (mkPiece pawn white) r (mkPos 5 4))
        as (_ & _ & H & _)
  end; [vm_compute; reflexivity.. | exact H].
Defined.

Lemma isValidMove_unused_state_witness :
  isValidMove false initial9x8 (mkPos 7 1) (mkPos 5 2) None None =
  isValidMove false initial9x8 (mkPos 7 1) (mkPos 5 2) (Some (mkPos 2 2))
    None.
Proof.
  destruct (isValidMove_unused_state false initial9x8 (mkPos 7 1) (mkPos 5 2)
              None (Some (mkPos 2 2)) None None (mkPiece knight white))
    as [H _]; [vm_compute; reflexivity|].
  apply H. simpl. discriminate.
Defined.

Lemma king_knight_move_rule_witness :
  isValidMoveBasic false initial9x8 (mkPos 7 1) (mkPos 5 2) None None
  = Ok true.
Proof.
  destruct (king_knight_move_rule false initial9x8 (mkPos 7 1) (mkPos 5 2)
              None None (mkPiece knight white)) as [H _];
    [vm_compute; reflexivity | vm_compute; reflexivity |].
  apply (H eq_refl). split; [vm_compute; intuition congruence|].
  split; [vm_compute; reflexivity|]. left. simpl. lia.
Defined.

(** ** Material *)

Section Material.

Variable strict : bool.

(** X24.  On a board of the game [isInsufficientMaterial] inspects the
    list of all pieces of the board.  When exactly two of them are
    kings it answers [true] in three cases only: there is no other
    piece; there is one other piece, a bishop or a knight; there are
    two other pieces, both bishops, on squares whose [(row + col) % 2]
    agree. *)
Theorem isInsufficientMaterial_two_kings b :
  wf_board b ->
  exists pieces,
    collectPieces strict b = Ok pieces /\
    (forall pp, pp ∈ pieces <-> pieceAt b (snd pp) = Pc (fst pp)) /\
    (length (List.filter (hasType king) pieces) = 2%nat ->
     isInsufficientMaterial strict b = Ok (insufficientSpec pieces)).
Proof.
  intros Hwf. unfold isInsufficientMaterial.
  destruct (isInsufficientMaterial_ok strict b Hwf) as [v Hv].
  unfold isInsufficientMaterial in Hv.
  apply bind_Ok_inv in Hv as (pieces & Hpieces & _).
  exists pieces. split; [done|]. rewrite Hpieces. cbn [bind].
  split; [|intros Hk; by rewrite insufficient_two_kings].
  unfold collectPieces in Hpieces. rewrite gridSquares_wf in Hpieces by done.
  intros pp. split.
  - intros Hpp.
    destruct (concatM_elem _ _ _ _ Hpieces Hpp)
      as (sq & h & Hsq%elem_of_squares_wf & Hh & Hin).
    cbv beta in Hh.
    rewrite (readCell_wf strict b) in Hh by (done || apply Hsq).
    cbn [bind] in Hh. fold (pieceAt b sq) in Hh.
    destruct (pieceAt b sq) as [| |q] eqn:Hq; injection Hh as <-;
      try (by apply elem_of_nil in Hin).
    apply list_elem_of_singleton in Hin. by subst.
  - intros Hp. pose proof (pieceAt_inBounds b _ _ Hwf Hp) as Hin.
    eapply (concatM_elem_2 _ _ _ (snd pp)); [done | by apply elem_of_squares_wf | |].
    + cbv beta. rewrite (readCell_wf strict b) by (done || apply Hin).
      fold (pieceAt b (snd pp)). rewrite Hp. cbn [bind]. reflexivity.
    + destruct pp. by apply list_elem_of_singleton.
Qed.

End Material.

Lemma isInsufficientMaterial_two_kings_witness :
  isInsufficientMaterial false
    (boardOf 8 [ (7, 4, mkPiece king white); (7, 2, mkPiece bishop white);
                 (0, 4, mkPiece king black) ]%nat) = Ok true.
Proof.
  destruct (isInsufficientMaterial_two_kings false
              (boardOf 8 [ (7, 4, mkPiece king white);
                           (7, 2, mkPiece bishop white);
                           (0, 4, mkPiece king black) ]%nat))
    as (pieces & Hp & _ & H); [vm_compute; reflexivity|].
  vm_compute in Hp. injection Hp as <-. apply H. reflexivity.
Defined.

(** ** Instances *)

Lemma sliding_move_rule_witness :
  inBounds castlingBoard (mkPos 5 8) /\ mkPos 7 8 <> mkPos 5 8 /\
  sameColorTarget (pieceAt castlingBoard (mkPos 5 8)) (mkPiece rook white)
  = false /\
  slides rook (mkPos 7 8) (mkPos 5 8) /\
  pathEmpty castlingBoard (mkPos 7 8) (mkPos 5 8).
Proof.
  apply (sliding_move_rule false castlingBoard (mkPos 7 8) (mkPos 5 8)
           None None (mkPiece rook white));
    [vm_compute; reflexivity | vm_compute; reflexivity
    | left; reflexivity | vm_compute; reflexivity].
Defined.

Lemma pawn_move_rule_witness :
  isValidMoveBasic false initial9x8 (mkPos 6 4) (mkPos 4 4) None None
  = Ok true.
Proof.
  apply (pawn_move_rule false initial9x8 (mkPos 6 4) (mkPos 4 4) None None
           (mkPiece pawn white));
    [vm_compute; reflexivity | vm_compute; reflexivity | reflexivity |].
  split; [vm_compute; intuition congruence|].
  right. left. repeat split; vm_compute; reflexivity.
Defined.

Lemma getValidMoves_exact_witness :
  exists ms,
    getValidMoves false initial9x8 (mkPos 6 4) None None = Ok ms /\
    NoDup ms /\
    (forall t, t ∈ ms <->
               isValidMove false initial9x8 (mkPos 6 4) t None None = Ok true)
    /\
    (isPiece (pieceAt initial9x8 (mkPos 6 4)) = false -> ms = []).
Proof.
  apply (getValidMoves_exact false initial9x8 (mkPos 6 4) None None);
    [vm_compute; reflexivity | vm_compute; intuition congruence].
Defined.

Lemma getAllLegalMoves_exact_witness :
  exists ms,
    getAllLegalMoves false initial9x8 white None None = Ok ms /\
    NoDup ms /\
    forall m, m ∈ ms <->
      pieceAt initial9x8 (from m) = Pc (piece m) /\
      color (piece m) = white /\
      isValidMove false initial9x8 (from m) (to m) None None = Ok true.
Proof.
  apply (getAllLegalMoves_exact false initial9x8 white None None).
  vm_compute. reflexivity.
Defined.

Lemma executeMove_keeps_shape_witness :
  exists r,
    executeMove false initial9x8 (mkPos 6 4) (mkPos 4 4)
      getInitialCastlingRights None promoQueen = Ok r /\
    wf_board (newBoard r) /\
    boardRows (newBoard r) = boardRows initial9x8 /\
    getSpecialMoveType false initial9x8 (mkPos 6 4) (mkPos 4 4) None
    = Ok (specialMove r).
Proof.
  apply (executeMove_keeps_shape false initial9x8 (mkPos 6 4) (mkPos 4 4)
           None); vm_compute; reflexivity.
Defined.

Lemma executeMove_plain_move_witness :
  exists r,
    executeMove false initial9x8 (mkPos 7 1) (mkPos 5 2)
      getInitialCastlingRights None promoQueen = Ok r /\
    pieceAt (newBoard r) (mkPos 7 1) = Null /\
    pieceAt (newBoard r) (mkPos 7 4) = Pc (mkPiece king white).
Proof.
  destruct (executeMove_plain_move false initial9x8 (mkPos 7 1) (mkPos 5 2)
              getInitialCastlingRights None promoQueen
              (mkPiece knight white))
    as (r & Hr & _ & Hfrom & _ & Hrest);
    [vm_compute; reflexivity | vm_compute; intuition congruence
    | vm_compute; intuition congruence | vm_compute; reflexivity
    | left; vm_compute; reflexivity |].
  exists r. split; [done|]. split; [done|].
  by rewrite Hrest.
Defined.

Lemma executeMove_en_passant_witness :
  exists r,
    executeMove false enPassantBoard (mkPos 3 4) (mkPos 2 5)
      getInitialCastlingRights (Some (mkPos 2 5)) promoQueen = Ok r /\
    specialMove r = Some enPassant /\
    captured r = Pc (mkPiece pawn black) /\
    pieceAt (newBoard r) (mkPos 3 5) = Null.
Proof.
  destruct (executeMove_en_passant false enPassantBoard (mkPos 3 4)
              (mkPos 2 5) getInitialCastlingRights promoQueen
              (mkPiece pawn white))
    as (r & Hr & Hs & Hc & _ & _ & Hn & _);
    [vm_compute; reflexivity | vm_compute; intuition congruence
    | vm_compute; intuition congruence | vm_compute; reflexivity
    | reflexivity | reflexivity |].
  exists r. done.
Defined.

Lemma executeMove_castling_witness :
  exists r,
    executeMove false castlingBoard (mkPos 7 4) (mkPos 7 6)
      getInitialCastlingRights None promoQueen = Ok r /\
    specialMove r = Some castleKingside /\
    pieceAt (newBoard r) (mkPos 7 6) = Pc (mkPiece king white) /\
    pieceAt (newBoard r) (mkPos 7 5) = Pc (mkPiece rook white) /\
    rightFor white true (newCastlingRights r) = false /\
    rightFor white false (newCastlingRights r) = false.
Proof.
  destruct (executeMove_castling false castlingBoard (mkPos 7 4) (mkPos 7 6)
              None (Some getInitialCastlingRights) getInitialCastlingRights
              promoQueen (mkPiece king white))
    as (r & Hr & Hs & _ & _ & _ & Hk & Hrk & _ & _ & _ & H1 & H2);
    [vm_compute; reflexivity | vm_compute; reflexivity | reflexivity
    | reflexivity | vm_compute; reflexivity |].
  exists r. done.
Defined.

(** ** The whole engine stays in bounds *)

#[local] Hint Resolve readCell_agrees writeCell_agrees boardCols_agrees
  isPathClear_agrees isValidMoveBasicForAttack_agrees allSquares_agrees
  findKingPosition_agrees isSquareUnderAttack_agrees isKingInCheck_agrees
  canCastle_agrees isValidMoveBasic_agrees simulatedBoard_agrees
  wouldMoveLeaveKingInCheck_agrees isValidMove_agrees : agree.

Lemma filterM_agrees {A} (f g : A -> result bool) l :
  (forall x, agrees (f x) (g x)) -> agrees (filterM f l) (filterM g l).
Proof.
  intros H. induction l as [|x l IH]; simpl; [apply agrees_refl|].
  apply agrees_bind; [done|]. intros t.
  apply agrees_bind; [done|]. intros r. apply agrees_refl.
Qed.

Lemma concatM_agrees {A B} (f g : A -> result (list B)) l :
  (forall x, agrees (f x) (g x)) -> agrees (concatM f l) (concatM g l).
Proof.
  intros H. induction l as [|x l IH]; simpl; [apply agrees_refl|].
  apply agrees_bind; [done|]. intros t.
  apply agrees_bind; [done|]. intros r. apply agrees_refl.
Qed.

Ltac agree_loops :=
  repeat first
    [ progress agree
    | match goal with
      | |- agrees (filterM _ _) (filterM _ _) =>
          apply filterM_agrees; intros ?
      | |- agrees (concatM _ _) (concatM _ _) =>
          apply concatM_agrees; intros ?
      end ].

Lemma getValidMoves_agrees b from_ ep cr :
  agrees (getValidMoves true b from_ ep cr) (getValidMoves false b from_ ep cr).
Proof. unfold getValidMoves. agree_loops. Qed.

Lemma getPiecesOfColor_agrees b c :
  agrees (getPiecesOfColor true b c) (getPiecesOfColor false b c).
Proof. unfold getPiecesOfColor. agree_loops. Qed.

#[local] Hint Resolve getValidMoves_agrees getPiecesOfColor_agrees : agree.

Lemma getAllLegalMoves_agrees b c ep cr :
  agrees (getAllLegalMoves true b c ep cr) (getAllLegalMoves false b c ep cr).
Proof. unfold getAllLegalMoves. agree_loops. Qed.

#[local] Hint Resolve getAllLegalMoves_agrees : agree.

Lemma isCheckmate_agrees b c ep cr :
  agrees (isCheckmate true b c ep cr) (isCheckmate false b c ep cr).
Proof. unfold isCheckmate. agree_loops. Qed.

Lemma isStalemate_agrees b c ep cr :
  agrees (isStalemate true b c ep cr) (isStalemate false b c ep cr).
Proof. unfold isStalemate. agree_loops. Qed.

Lemma getCheckStatus_agrees b c ep cr :
  agrees (getCheckStatus true b c ep cr) (getCheckStatus false b c ep cr).
Proof. unfold getCheckStatus. agree_loops. Qed.

Lemma hashSquares_agrees b sq hash :
  agrees (hashSquares true b sq hash) (hashSquares false b sq hash).
Proof.
  revert hash. induction sq as [|p sq IH]; intros hash; simpl;
    [apply agrees_refl|].
  apply agrees_bind; [apply readCell_agrees|]. intros x. apply IH.
Qed.

#[local] Hint Resolve isStalemate_agrees hashSquares_agrees : agree.

Lemma getBoardPositionHash_agrees b c cr ep :
  agrees (getBoardPositionHash true b c cr ep)
         (getBoardPositionHash false b c cr ep).
Proof. unfold getBoardPositionHash. agree_loops. Qed.

Lemma isInsufficientMaterial_agrees b :
  agrees (isInsufficientMaterial true b) (isInsufficientMaterial false b).
Proof. unfold isInsufficientMaterial, collectPieces. agree_loops. Qed.

#[local] Hint Resolve getBoardPositionHash_agrees isInsufficientMaterial_agrees
  : agree.

Lemma getDrawStatus_agrees b c ep cr history clock :
  agrees (getDrawStatus true b c ep cr history clock)
         (getDrawStatus false b c ep cr history clock).
Proof. unfold getDrawStatus. agree_loops. Qed.

Lemma isKingCaptured_agrees b c :
  agrees (isKingCaptured true b c) (isKingCaptured false b c).
Proof. unfold isKingCaptured. agree_loops. Qed.

Lemma getSpecialMoveType_agrees b from_ to_ ep :
  agrees (getSpecialMoveType true b from_ to_ ep)
         (getSpecialMoveType false b from_ to_ ep).
Proof. unfold getSpecialMoveType. agree_loops. Qed.

#[local] Hint Resolve getSpecialMoveType_agrees : agree.

Lemma executeMove_agrees b from_ to_ cr ep promo :
  agrees (executeMove true b from_ to_ cr ep promo)
         (executeMove false b from_ to_ cr ep promo).
Proof. unfold executeMove. cbv zeta. agree_loops. Qed.

Lemma inBoundsRun_intro {A} (run : bool -> result A) :
  isOk (run true) -> agrees (run true) (run false) -> inBoundsRun run.
Proof. intros [v Hv] Ha. exists v. split; [done | by apply Ha]. Qed.

Lemma getDrawStatus_ok strict b c ep cr history clock :
  wf_board b -> isOk (getDrawStatus strict b c ep cr history clock).
Proof.
  intros Hwf. unfold getDrawStatus.
  destruct (isStalemate_ok strict b c ep (Some cr) Hwf) as [[|] ->];
    cbn [bind]; [apply isOk_Ok|].
  destruct (getBoardPositionHash_ok strict b c cr ep Hwf) as [h ->].
  cbn [bind]. destruct (isThreefoldRepetition _ _); [apply isOk_Ok|].
  destruct (isFiftyMoveRule _); [apply isOk_Ok|].
  destruct (isInsufficientMaterial_ok strict b Hwf) as [[|] ->];
    apply isOk_Ok.
Qed.

(** X25.  On a board of the game the enumeration and status functions
    never index outside the arrays: [getAllLegalMoves], [isCheckmate],
    [isStalemate], [getCheckStatus], [getDrawStatus] and
    [isKingCaptured] return even when every index outside the arrays is
    an error, with the result of the JavaScript run. *)
Theorem status_accesses_in_bounds b c ep cr rights history clock :
  wf_board b ->
  inBoundsRun (fun s => getAllLegalMoves s b c ep cr) /\
  inBoundsRun (fun s => isCheckmate s b c ep cr) /\
  inBoundsRun (fun s => isStalemate s b c ep cr) /\
  inBoundsRun (fun s => getCheckStatus s b c ep cr) /\
  inBoundsRun (fun s => getDrawStatus s b c ep rights history clock) /\
  inBoundsRun (fun s => isKingCaptured s b c).
Proof.
  intros Hwf. repeat split; apply inBoundsRun_intro.
  - destruct (getAllLegalMoves_ok true b c ep cr Hwf) as (ms & -> & _).
    apply isOk_Ok.
  - apply getAllLegalMoves_agrees.
  - by apply isCheckmate_ok.
  - apply isCheckmate_agrees.
  - by apply isStalemate_ok.
  - apply isStalemate_agrees.
  - destruct (getCheckStatus_spec true b c ep cr Hwf) as (st & -> & _).
    apply isOk_Ok.
  - apply getCheckStatus_agrees.
  - by apply getDrawStatus_ok.
  - apply getDrawStatus_agrees.
  - destruct (isKingCaptured_spec true b c Hwf) as (v & -> & _).
    apply isOk_Ok.
  - apply isKingCaptured_agrees.
Qed.

Lemma status_accesses_in_bounds_witness :
  inBoundsRun (fun s => getAllLegalMoves s initial9x8 white None None) /\
  inBoundsRun (fun s => getDrawStatus s initial9x8 white None
                          getInitialCastlingRights [] 0).
Proof.
  destruct (status_accesses_in_bounds initial9x8 white None None
              getInitialCastlingRights [] 0) as (H1 & _ & _ & _ & H2 & _);
    [vm_compute; reflexivity|].
  split; [exact H1 | exact H2].
Defined.

(** X26.  [executeMove] checks nothing itself, but for a move that
    [isValidMoveBasic] accepts on a board of the game all its reads and
    writes are in bounds: it returns even when every index outside the
    arrays is an error, with the result of the JavaScript run.  For a
    destination outside the board [isValidMove] answers [false], while
    [executeMove] fails as soon as the destination row is outside the
    board. *)
Theorem executeMove_accesses_in_bounds b from_ to_ ep cr cr0 promo p :
  wf_board b -> pieceAt b from_ = Pc p ->
  (isValidMoveBasic false b from_ to_ ep cr = Ok true ->
   inBoundsRun (fun s => executeMove s b from_ to_ cr0 ep promo)) /\
  (~ inBounds b to_ -> isValidMove false b from_ to_ ep cr = Ok false) /\
  (~ 0 <= row to_ < boardRows b ->
   executeMove false b from_ to_ cr0 ep promo = Err TypeError).
Proof.
  intros Hwf Hp.
  pose proof (pieceAt_inBounds b from_ p Hwf Hp) as Hfrom.
  split; [|split].
  - intros Hv. apply inBoundsRun_intro; [|apply executeMove_agrees].
    destruct (isValidMoveBasic_ok true b from_ to_ ep cr Hwf Hfrom)
      as [v Hv'].
    pose proof (isValidMoveBasic_agrees b from_ to_ ep cr v Hv') as Hv''.
    assert (v = true) as -> by congruence.
    destruct (accepted_move_boards true b from_ to_ ep cr cr0 promo p
                Hwf Hv' Hp) as (_ & r & _ & _ & -> & _).
    apply isOk_Ok.
  - intros Hout.
    destruct (isValidMove_ok false b from_ to_ ep cr Hwf Hfrom) as [[|] Hv];
      [|done].
    by apply isValidMove_inBounds in Hv as [_ ?].
  - intros Hout. unfold executeMove.
    rewrite (readCell_wf false b (row from_) (col from_))
      by (done || apply Hfrom).
    fold (pieceAt b from_). rewrite Hp. cbn [bind].
    unfold readCell at 1, rowAt.
    destruct (Z.ltb_spec (row to_) 0); [done|].
    rewrite lookup_ge_None_2; [done|]. unfold boardRows in Hout. lia.
Qed.

Lemma executeMove_accesses_in_bounds_witness :
  inBoundsRun (fun s => executeMove s initial9x8 (mkPos 6 4) (mkPos 4 4)
                          getInitialCastlingRights None promoQueen) /\
  executeMove false initial9x8 (mkPos 6 4) (mkPos 8 4)
    getInitialCastlingRights None promoQueen = Err TypeError.
Proof.
  destruct (executeMove_accesses_in_bounds initial9x8 (mkPos 6 4) (mkPos 4 4)
              None None getInitialCastlingRights promoQueen
              (mkPiece pawn white)) as (H1 & _ & _);
    [vm_compute; reflexivity | vm_compute; reflexivity |].
  destruct (executeMove_accesses_in_bounds initial9x8 (mkPos 6 4) (mkPos 8 4)
              None None getInitialCastlingRights promoQueen
              (mkPiece pawn white)) as (_ & _ & H2);
    [vm_compute; reflexivity | vm_compute; reflexivity |].
  split; [apply H1; vm_compute; reflexivity|].
  apply H2. vm_compute. intuition congruence.
Defined.

Section SearchBounds.

Variable flt : Type.
Variables fadd fmul : flt -> flt -> flt.
Variable fneg : flt -> flt.
Variable fofZ : Z -> flt.
Variables f0_1 f0_05 f0_5 : flt.
Variable fleb : flt -> flt -> bool.

Lemma scoreSquares_agrees b centerRow centerCol sq score :
  agrees (scoreSquares true flt fadd fmul fneg fofZ f0_1 f0_05
            b centerRow centerCol sq score)
         (scoreSquares false flt fadd fmul fneg fofZ f0_1 f0_05
            b centerRow centerCol sq score).
Proof.
  revert score. induction sq as [|p sq IH]; intros score; simpl;
    [apply agrees_refl|].
  apply agrees_bind; [apply readCell_agrees|]. intros x. apply IH.
Qed.

Lemma evaluateBoard_agrees b ep cr :
  agrees (evaluateBoard true flt fadd fmul fneg fofZ f0_1 f0_05 b ep cr)
         (evaluateBoard false flt fadd fmul fneg fofZ f0_1 f0_05 b ep cr).
Proof.
  unfold evaluateBoard. cbv zeta.
  apply agrees_bind; [apply boardCols_agrees|]. intros cols.
  apply agrees_bind; [apply isCheckmate_agrees|]. intros [|];
    [apply agrees_refl|].
  apply agrees_bind; [apply isCheckmate_agrees|]. intros [|];
    [apply agrees_refl|].
  apply agrees_bind; [apply isKingInCheck_agrees|]. intros chkW.
  apply agrees_bind; [apply isKingInCheck_agrees|]. intros chkB.
  apply scoreSquares_agrees.
Qed.

Lemma maxLoop_agrees (rec1 rec2 : searcher flt) b ep cr :
  (forall b' lo hi mx ep' cr',
     agrees (rec1 b' lo hi mx ep' cr') (rec2 b' lo hi mx ep' cr')) ->
  forall ms best alpha beta,
    agrees (maxLoop true flt fleb rec1 b ep cr ms best alpha beta)
           (maxLoop false flt fleb rec2 b ep cr ms best alpha beta).
Proof.
  intros Hrec. induction ms as [|m ms IH]; intros best alpha beta; simpl;
    [apply agrees_refl|].
  apply agrees_bind; [apply executeMove_agrees|]. intros res.
  apply agrees_bind; [apply Hrec|]. intros v.
  destruct (sleb _ _ _ _); [apply agrees_refl | apply IH].
Qed.

Lemma minLoop_agrees (rec1 rec2 : searcher flt) b ep cr :
  (forall b' lo hi mx ep' cr',
     agrees (rec1 b' lo hi mx ep' cr') (rec2 b' lo hi mx ep' cr')) ->
  forall ms best alpha beta,
    agrees (minLoop true flt fleb rec1 b ep cr ms best alpha beta)
           (minLoop false flt fleb rec2 b ep cr ms best alpha beta).
Proof.
  intros Hrec. induction ms as [|m ms IH]; intros best alpha beta; simpl;
    [apply agrees_refl|].
  apply agrees_bind; [apply executeMove_agrees|]. intros res.
  apply agrees_bind; [apply Hrec|]. intros v.
  destruct (sleb _ _ _ _); [apply agrees_refl | apply IH].
Qed.

Lemma minimax_agrees n :
  forall b alpha beta isMaximizing ep cr,
    agrees (minimax true flt fadd fmul fneg fofZ f0_1 f0_05 fleb
              n b alpha beta isMaximizing ep cr)
           (minimax false flt fadd fmul fneg fofZ f0_1 f0_05 fleb
              n b alpha beta isMaximizing ep cr).
Proof.
  induction n as [|n IH]; intros b alpha beta isMaximizing ep cr; simpl.
  - apply agrees_bind; [apply evaluateBoard_agrees|]. intros v.
    apply agrees_refl.
  - apply agrees_bind; [apply isCheckmate_agrees|]. intros [|];
      [apply agrees_refl|].
    apply agrees_bind; [apply getAllLegalMoves_agrees|]. intros ms.
    destruct (isEmptyList ms); [apply agrees_refl|].
    destruct isMaximizing; [by apply maxLoop_agrees | by apply minLoop_agrees].
Qed.

Lemma aiLoop_agrees difficulty b ep cr random :
  forall ms i bestMove bestScore,
    agrees (aiLoop true flt fadd fmul fneg fofZ f0_1 f0_05 f0_5 fleb
              difficulty b ep cr random i ms bestMove bestScore)
           (aiLoop false flt fadd fmul fneg fofZ f0_1 f0_05 f0_5 fleb
              difficulty b ep cr random i ms bestMove bestScore).
Proof.
  induction ms as [|m ms IH]; intros i bestMove bestScore; simpl;
    [apply agrees_refl|].
  apply agrees_bind; [apply executeMove_agrees|]. intros res.
  apply agrees_bind; [apply minimax_agrees|]. intros v.
  destruct (negb _); apply IH.
Qed.

(** X27.  On a board of the game the evaluation, the search and the
    choice of the computer's move never index outside the arrays:
    [evaluateBoard], [minimax] and [getAIMove] return even when every
    index outside the arrays is an error, with the result of the
    JavaScript run, for every depth, window and arithmetic of the
    scores. *)
Theorem search_accesses_in_bounds b n alpha beta isMaximizing ep cr random :
  wf_board b ->
  inBoundsRun (fun s => evaluateBoard s flt fadd fmul fneg fofZ f0_1 f0_05
                          b ep (Some cr)) /\
  inBoundsRun (fun s => minimax s flt fadd fmul fneg fofZ f0_1 f0_05 fleb
                          n b alpha beta isMaximizing ep cr) /\
  inBoundsRun (fun s => getAIMove s flt fadd fmul fneg fofZ f0_1 f0_05 f0_5
                          fleb b n ep cr random).
Proof.
  intros Hwf. repeat split; apply inBoundsRun_intro.
  - by apply evaluateBoard_ok.
  - apply evaluateBoard_agrees.
  - by apply minimax_ok.
  - apply minimax_agrees.
  - destruct (getAIMove_spec true flt fadd fmul fneg fofZ f0_1 f0_05 f0_5
                fleb b n ep cr random Hwf) as (res & -> & _).
    apply isOk_Ok.
  - unfold getAIMove.
    apply agrees_bind; [apply getAllLegalMoves_agrees|]. intros [|m0 ms];
      [apply agrees_refl|].
    apply agrees_bind; [apply aiLoop_agrees|]. intros m. apply agrees_refl.
Qed.

End SearchBounds.

Lemma search_accesses_in_bounds_witness :
  inBoundsRun
    (fun s => getAIMove s Z Z.add (fun x y => x * y / 100) Z.opp (Z.mul 100)
                10 5 50 Z.leb pawnEnding 1 None getInitialCastlingRights
                (fun _ => 0)).
Proof.
  destruct (search_accesses_in_bounds Z Z.add (fun x y => x * y / 100) Z.opp
              (Z.mul 100) 10 5 50 Z.leb pawnEnding 1 NegInf PosInf true None
              getInitialCastlingRights (fun _ => 0)) as (_ & _ & H);
    [vm_compute; reflexivity | exact H].
Defined.

(** ** The board component: history and repetition *)

Section ComponentFacts.

Variable strict : bool.
Variable fromCharCode : Z -> string.



Lemma completeMove_spec st from_ to_ p promotionPiece cr :
  wf_board (board st) -> pieceAt (board st) from_ = Pc p ->
  isValidMoveBasic strict (board st) from_ to_ (enPassantTarget st) cr
  = Ok true ->
  exists done,
    completeMove strict fromCharCode st from_ to_ p promotionPiece = Ok done /\
    wf_board (setBoard done) /\
    boardRows (setBoard done) = boardRows (board st) /\
    length (setPositionHistory done) = S (length (positionHistory st)) /\
    setHalfMoveClock done =
      (if type_eqb (type p) pawn || bool_decide (onCapture done <> None)
       then 0 else halfMoveClock st + 1).
Proof.
  intros Hwf Hp Hv.
  destruct (isValidMoveBasic_true strict _ _ _ _ _ Hwf Hv)
    as (p' & Hp' & Hfrom & Hto & _).
  destruct (executeMove_cells strict (board st) from_ to_ (castlingRights st)
              (enPassantTarget st) promotionPiece p Hwf Hfrom Hto Hp)
    as (r & Hr & Hs & Hwf' & Hrows & Hcap & _).
  { intros Ht _. by eapply (accepted_capturedPawnRow strict). }
  unfold completeMove. rewrite Hr, Hs. cbn [bind].
  destruct (isKingInCheck_ok strict (newBoard r) (opponent (currentPlayer st))
              Hwf') as [chk ->]. cbn [bind].
  destruct (isCheckmate_ok strict (newBoard r) (opponent (currentPlayer st))
              (newEnPassantTarget r) (Some (newCastlingRights r)) Hwf')
    as [mate Hmate].
  assert (exists m, (if chk
                     then isCheckmate strict (newBoard r)
                            (opponent (currentPlayer st))
                            (newEnPassantTarget r)
                            (Some (newCastlingRights r))
                     else Ok false) = Ok m) as [m ->].
  { destruct chk; eauto. }
  cbn [bind].
  destruct (getBoardPositionHash_ok strict (newBoard r)
              (opponent (currentPlayer st)) (newCastlingRights r)
              (newEnPassantTarget r) Hwf') as [sig ->]. cbn [bind].
  eexists. split; [reflexivity|].
  cbn [setBoard setPositionHistory setHalfMoveClock onCapture].
  split; [done|]. split; [done|].
  split; [rewrite length_app; simpl; lia|].
  assert (captured r <> Undefined) as Hdef.
  { rewrite Hcap. unfold capturedCell, pieceAt.
    destruct (specialMove r) as [[]|] eqn:Hsp;
      try (apply cellAt_defined; [done | apply Hto | apply Hto]).
    apply cellAt_defined; [done | | apply Hto].
    unfold getSpecialMoveType in Hs.
    rewrite (readCell_wf strict (board st)) in Hs by (done || apply Hfrom).
    fold (pieceAt (board st) from_) in Hs. rewrite Hp in Hs.
    cbn [bind] in Hs.
    destruct (type_eqb (type p) king && _); [by destruct (_ <? _)|].
    destruct (type_eqb (type p) pawn) eqn:Ht; cbn [andb] in Hs.
    - apply type_eqb_eq in Ht.
      by eapply (accepted_capturedPawnRow strict).
    - done. }
  destruct (captured r) as [| |q]; [done| |]; cbn [pieceOf isNull negb].
  - rewrite bool_decide_eq_false_2 by (intros H; by apply H). done.
  - rewrite bool_decide_eq_true_2 by done. done.
Qed.

(** X29.  For a move that [isValidMoveBasic] accepts on a board of the
    game [completeMove] returns: the new board is a board of the game
    with the same number of rows, the history is one entry longer, and
    the half-move clock is reset to 0 exactly when the moving piece is
    a pawn or a captured piece is reported, and is one more than before
    otherwise. *)
Theorem completeMove_accepted st from_ to_ p promotionPiece cr :
  wf_board (board st) -> pieceAt (board st) from_ = Pc p ->
  isValidMoveBasic strict (board st) from_ to_ (enPassantTarget st) cr
  = Ok true ->
  exists done,
    completeMove strict fromCharCode st from_ to_ p promotionPiece = Ok done /\
    wf_board (setBoard done) /\
    boardRows (setBoard done) = boardRows (board st) /\
    length (setPositionHistory done) = S (length (positionHistory st)) /\
    setHalfMoveClock done =
      (if type_eqb (type p) pawn || bool_decide (onCapture done <> None)
       then 0 else halfMoveClock st + 1).
Proof. apply completeMove_spec. Qed.

End ComponentFacts.


Lemma completeMove_accepted_witness :
  exists done,
    completeMove false asciiChar repeatedState (mkPos 7 8) (mkPos 5 8)
      (mkPiece rook white) promoQueen = Ok done /\
    wf_board (setBoard done) /\
    boardRows (setBoard done) = boardRows (board repeatedState) /\
    length (setPositionHistory done)
    = S (length (positionHistory repeatedState)).
Proof.
  destruct (completeMove_accepted false asciiChar repeatedState (mkPos 7 8)
              (mkPos 5 8) (mkPiece rook white) promoQueen None)
    as (done & H1 & H2 & H3 & H4 & _);
    [vm_compute; reflexivity | vm_compute; reflexivity
    | vm_compute; reflexivity |].
  exists done. exact (conj H1 (conj H2 (conj H3 H4))).
Defined.

Section ComputerFacts.

Variable strict : bool.
Variable fromCharCode : Z -> string.
Variable flt : Type.
Variables fadd fmul : flt -> flt -> flt.
Variable fneg : flt -> flt.
Variable fofZ : Z -> flt.
Variables f0_1 f0_05 f0_5 : flt.
Variable fleb : flt -> flt -> bool.

(** X30.  On a board of the game, when it is black's turn against the
    computer and the game is not over, [makeAIMove] returns.  It
    completes no move exactly when black has no legal move; otherwise
    what it completes is a legal move of a black piece, carried out by
    [completeMove] with a queen as promotion piece, and the board it
    sets is again a board of the game.  In any other mode, on white's
    turn or after the end of the game it does nothing. *)
Theorem makeAIMove_completes st random :
  wf_board (board st) ->
  (gameMode st = ai -> currentPlayer st = black -> gameOver st = false ->
   exists res,
     makeAIMove strict fromCharCode flt fadd fmul fneg fofZ f0_1 f0_05 f0_5
       fleb st random = Ok res /\
     (res = None <->
      noLegalMove strict (board st) black (enPassantTarget st)
        (Some (castlingRights st))) /\
     (forall done, res = Some done ->
        exists m,
          pieceAt (board st) (from m) = Pc (piece m) /\
          color (piece m) = black /\
          isValidMove strict (board st) (from m) (to m) (enPassantTarget st)
            (Some (castlingRights st)) = Ok true /\
          completeMove strict fromCharCode st (from m) (to m) (piece m)
            promoQueen = Ok done /\
          wf_board (setBoard done))) /\
  (gameMode st <> ai \/ currentPlayer st <> black \/ gameOver st = true ->
   makeAIMove strict fromCharCode flt fadd fmul fneg fofZ f0_1 f0_05 f0_5
     fleb st random = Ok None).
Proof.
  intros Hwf. unfold makeAIMove. split.
  - intros -> -> ->. cbn [isAI negb color_eqb orb].
    destruct (getAIMove_spec strict flt fadd fmul fneg fofZ f0_1 f0_05 f0_5
                fleb (board st) 2 (enPassantTarget st) (castlingRights st)
                random Hwf) as (res & -> & Hnone & Hsome).
    cbn [bind]. destruct res as [m|].
    + destruct (Hsome m eq_refl) as (Hp & Hc & Hv).
      pose proof (pieceAt_inBounds _ _ _ Hwf Hp) as Hin.
      unfold isPromotionMove.
      rewrite (readCell_wf strict (board st)) by (done || apply Hin).
      fold (pieceAt (board st) (from m)). rewrite Hp. cbn [bind].
      assert (exists v,
                (if negb (type_eqb (type (piece m)) pawn) then Ok false
                 else Ok (color_eqb (color (piece m)) white && (row (to m) =? 0)
                          || color_eqb (color (piece m)) black
                             && (row (to m) =? boardRows (board st) - 1)))
                = Ok v) as [v ->] by (destruct (negb _); eauto).
      cbn [bind].
      pose proof Hv as Hv'.
      apply isValidMove_true in Hv' as (p' & _ & Hb & _); [|done].
      destruct (completeMove_spec strict fromCharCode st (from m) (to m)
                  (piece m) promoQueen (Some (castlingRights st)) Hwf Hp Hb)
        as (done & Hdone & Hwf' & _).
      assert ((if v
               then completeMove strict fromCharCode st (from m) (to m)
                      (piece m) promoQueen
               else completeMove strict fromCharCode st (from m) (to m)
                      (piece m) promoQueen) = Ok done) as ->
        by (by destruct v).
      cbn [bind]. eexists. split; [reflexivity|]. split.
      * split; [done|]. intros Hno. by apply Hnone in Hno.
      * intros done' [= <-]. by exists m.
    + exists None. split; [done|]. split; [|done].
      split; [intros _; by apply Hnone | done].
  - intros [Hm|[Hc|Hg]].
    + by destruct (gameMode st).
    + destruct (currentPlayer st); [|done]. by rewrite orb_true_r.
    + by rewrite Hg, orb_true_r.
Qed.

End ComputerFacts.

Lemma makeAIMove_completes_witness :
  exists res,
    makeAIMove false asciiChar Z Z.add (fun x y => x * y / 100) Z.opp
      (Z.mul 100) 10 5 50 Z.leb computerTurn (fun _ => 0) = Ok res /\
    (res = None <->
     noLegalMove false (board computerTurn) black
       (enPassantTarget computerTurn) (Some (castlingRights computerTurn))).
Proof.
  destruct (makeAIMove_completes false asciiChar Z Z.add
              (fun x y => x * y / 100) Z.opp (Z.mul 100) 10 5 50 Z.leb
              computerTurn (fun _ => 0)) as [H _];
    [vm_compute; reflexivity|].
  destruct (H eq_refl eq_refl eq_refl) as (res & H1 & H2 & _).
  exists res. exact (conj H1 H2).
Defined.
